(** * Staking-rewards exporter: formatting, pagination, snapshot lookup,
      share reconstruction, epoch sampling and the accrual engine.

    Shallow embedding of the JavaScript sources
      - [src/utils.js]            ([paginatedFetch], [normalizeAddress]),
      - the monthly integration script ([main], share reconstruction),
      - the implementation test script ([toRose], [paginatedFetch],
        [calculateTotalValue], [findHistoryEntryForEpoch],
        [fetchStakingRewardsTest]).

    Conventions.  A JavaScript [BigInt] is a [Z]; BigInt division truncates
    towards zero and is [Z.quot].  Epochs are JavaScript numbers holding
    integers and are [Z] too.  Strings are [string]; the string primitives
    ([padStart], [slice], [replace]) work on the list of characters.  Objects
    used as dictionaries are [gmap]s.  [null] / [undefined] is [None]. *)

From Stdlib Require Import ZArith Lia List Ascii String.
From Stdlib Require Import DecimalString DecimalZ DecimalPos DecimalFacts.
From stdpp Require Import gmap strings list fin_maps.
From Equations Require Import Equations.

Open Scope Z_scope.

(* ===================================================================== *)
(** * 1. Numeric formatting layer                                         *)
(* ===================================================================== *)

Module Format.

(** [BigInt.prototype.toString()]: canonical decimal rendering. *)
Definition toString (z : Z) : string := NilZero.string_of_int (Z.to_int z).

Definition ROSE_DECIMALS : Z := 9.

(** [s.padStart(targetLength, c)] for a one-character filler. *)
Definition padStart (s : list ascii) (targetLength : Z) (c : ascii) : list ascii :=
  replicate (Z.to_nat (targetLength - Z.of_nat (length s))) c ++ s.

(** Relative index resolution of [String.prototype.slice]: a negative index
    counts from the end, and the result is clamped to [0, len]. *)
Definition relIndex (len i : Z) : Z :=
  if i <? 0 then Z.max (len + i) 0 else Z.min i len.

(** [s.slice(b, e)]. *)
Definition slice (s : list ascii) (b e : Z) : list ascii :=
  let len := Z.of_nat (length s) in
  let from := relIndex len b in
  let to := relIndex len e in
  take (Z.to_nat (to - from)) (drop (Z.to_nat from) s).

(** [s.slice(b)]. *)
Definition sliceFrom (s : list ascii) (b : Z) : list ascii :=
  slice s b (Z.of_nat (length s)).

Definition isZeroChar (c : ascii) : bool := Ascii.eqb c "0".

Fixpoint dropLeadingZeros (s : list ascii) : list ascii :=
  match s with
  | c :: r => if isZeroChar c then dropLeadingZeros r else s
  | [] => []
  end.

(** [s.replace(/0+$/, "")]: remove the maximal run of zeros at the end. *)
Definition stripTrailingZeros (s : list ascii) : list ascii :=
  reverse (dropLeadingZeros (reverse s)).

(** [s || "0"]: the empty string is falsy. *)
Definition orZero (s : list ascii) : list ascii :=
  match s with [] => ["0"%char] | _ => s end.

Definition startsWithMinus (s : list ascii) : bool :=
  match s with c :: _ => Ascii.eqb c "-" | [] => false end.

Definition listEqb (a b : list ascii) : bool := bool_decide (a = b).

(** [toRose(baseUnits, extraDecimals = 0)]. *)
Definition toRose (baseUnits : Z) (extraDecimals : Z) : string :=
  let totalDecimals := ROSE_DECIMALS + extraDecimals in
  let str := list_ascii_of_string (toString baseUnits) in
  let isNegative := startsWithMinus str in
  let absStr := if isNegative then slice str 1 (Z.of_nat (length str)) else str in
  let padded := padStart absStr (totalDecimals + 1) "0" in
  let intPart := orZero (slice padded 0 (- totalDecimals)) in
  let decPart := orZero (stripTrailingZeros (sliceFrom padded (- totalDecimals))) in
  let result :=
    if listEqb decPart ["0"%char] then intPart
    else intPart ++ "."%char :: decPart in
  string_of_list_ascii (if isNegative then "-"%char :: result else result).

(** ** Reading a rendered amount back (the [parse] of the round-trip
       property): optional sign, integer digits, optional fraction of at most
       [decimals] digits, scaled by [10^decimals]. *)

Definition digitVal (c : ascii) : option Z :=
  let n := Z.of_nat (nat_of_ascii c) in
  if (48 <=? n) && (n <=? 57) then Some (n - 48) else None.

Definition isDigit (c : ascii) : bool :=
  match digitVal c with Some _ => true | None => false end.

(** Horner evaluation of a digit string, most significant digit first. *)
Definition digitsValueFrom (acc : Z) (s : list ascii) : Z :=
  fold_left (fun a c => 10 * a + default 0 (digitVal c)) s acc.

Definition digitsValue (s : list ascii) : Z := digitsValueFrom 0 s.

Fixpoint splitDot (s : list ascii) : list ascii * option (list ascii) :=
  match s with
  | [] => ([], None)
  | c :: r =>
      if Ascii.eqb c "." then ([], Some r)
      else let '(i, f) := splitDot r in (c :: i, f)
  end.

Definition parseUnsigned (decimals : Z) (s : list ascii) : option Z :=
  let '(ip, fp) := splitDot s in
  let fr := default [] fp in
  if negb (listEqb ip []) && forallb isDigit ip && forallb isDigit fr
     && (Z.of_nat (length fr) <=? decimals)
     && negb (bool_decide (fp = Some []))
  then Some (digitsValue
               (ip ++ fr ++ replicate (Z.to_nat (decimals - Z.of_nat (length fr))) "0"%char))
  else None.

Definition parseRose (decimals : Z) (s : string) : option Z :=
  match list_ascii_of_string s with
  | c :: r =>
      if Ascii.eqb c "-" then Z.opp <$> parseUnsigned decimals r
      else parseUnsigned decimals (c :: r)
  | [] => None
  end.

(** Digits of an unsigned decimal numeral, as characters. *)
Definition digitsOf (d : Decimal.uint) : list ascii :=
  list_ascii_of_string (NilEmpty.string_of_uint d).

(** The characters [toString] writes after the sign. *)
Definition absDigits (z : Z) : list ascii :=
  match z with
  | 0 => ["0"%char]
  | Z.pos p | Z.neg p => digitsOf (Pos.to_uint p)
  end.

(** Shape of the output.  [fractionOf] is the fractional digit string
    that is printed (empty when no point is printed). *)

Definition intPartOf (amount totalDecimals : Z) : list ascii :=
  let padded := padStart (absDigits amount) (totalDecimals + 1) "0" in
  take (length padded - Z.to_nat totalDecimals) padded.

Definition fractionOf (amount totalDecimals : Z) : list ascii :=
  let padded := padStart (absDigits amount) (totalDecimals + 1) "0" in
  stripTrailingZeros (drop (length padded - Z.to_nat totalDecimals) padded).

Definition renderedAs (amount : Z) (ip fr : list ascii) : list ascii :=
  (if amount <? 0 then ["-"%char] else [])
  ++ ip ++ (match fr with [] => [] | _ => "."%char :: fr end).

End Format.

(* ===================================================================== *)
(** * 2. Paginated collection fetcher                                     *)
(* ===================================================================== *)

(** One page of a list endpoint: [response.data].  [data_items] is
    [response.data[itemsKey]] ([None] when the key is absent),
    [total_count] is [None] when absent. *)
Record Response (A : Type) := {
  data_items : option (list A);
  total_count : option Z;
  is_total_count_clipped : bool;
}.
Arguments data_items {A} _.
Arguments total_count {A} _.
Arguments is_total_count_clipped {A} _.

(** [x || d] on a number: [undefined] and [0] are falsy. *)
Definition orNum (x : option Z) (d : Z) : Z :=
  match x with
  | Some 0 | None => d
  | Some z => z
  end.

(** The [while (true)] loop performs one request per iteration, so it is
    modelled with a budget of requests: [None] means that the loop is still
    running after [fuel] requests.  The server is [get n offset]: the answer
    to the [n]-th request, which carries [offset] (and the fixed [limit]).
    A rejected request raises an exception in the caller and is not part of
    this model. *)
Section Pagination.
Context {A : Type}.
Variable get : nat -> Z -> Response A.
Variable limit : Z.

(** The loop of the test scripts: stop on the first short page. *)
Fixpoint paginatedLoop (fuel n : nat) (items : list A) (offset : Z)
  : option (list A) :=
  match fuel with
  | O => None
  | S fuel' =>
      let response := get n offset in
      let pageItems := default [] (data_items response) in
      let items := items ++ pageItems in
      if Z.of_nat (length pageItems) <? limit then Some items
      else paginatedLoop fuel' (S n) items (offset + Z.of_nat (length pageItems))
  end.

Definition paginatedFetch (fuel : nat) : option (list A) :=
  paginatedLoop fuel O [] 0.

(** The pages the loop receives as long as it keeps going: the offset of
    request [n] and the items of its answer. *)
Fixpoint offsetAt (n : nat) : Z :=
  match n with
  | O => 0
  | S m =>
      offsetAt m + Z.of_nat (length (default [] (data_items (get m (offsetAt m)))))
  end.

Definition responseAt (n : nat) : Response A := get n (offsetAt n).

Definition pageAt (n : nat) : list A := default [] (data_items (responseAt n)).

Definition shortPage (n : nat) : Prop := Z.of_nat (length (pageAt n)) < limit.

(** Concatenation of pages [0 .. n-1] in request order. *)
Fixpoint pagesUpTo (n : nat) : list A :=
  match n with
  | O => []
  | S m => pagesUpTo m ++ pageAt m
  end.
End Pagination.

Module Utils.
Section Pagination.
Context {A : Type}.
Variable get : nat -> Z -> Response A.
Variable limit : Z.

(** [paginatedFetch] of [utils.js]: also stops once
    [offset + pageItems.length >= (total_count || 0)], and reports whether
    any page was flagged as clipped. *)
Fixpoint paginatedLoop (fuel n : nat) (items : list A) (offset : Z)
  (wasClipped : bool) : option (list A * bool) :=
  match fuel with
  | O => None
  | S fuel' =>
      let response := get n offset in
      let pageItems := default [] (data_items response) in
      let items := items ++ pageItems in
      let wasClipped :=
        if is_total_count_clipped response then true else wasClipped in
      if (Z.of_nat (length pageItems) <? limit)
         || (orNum (total_count response) 0 <=? offset + Z.of_nat (length pageItems))
      then Some (items, wasClipped)
      else paginatedLoop fuel' (S n) items
             (offset + Z.of_nat (length pageItems)) wasClipped
  end.

Definition paginatedFetch (fuel : nat) : option (list A * bool) :=
  paginatedLoop fuel O [] 0 false.

(** The stopping test of this variant at request [n]. *)
Definition stopsAt (n : nat) : Prop :=
  Z.of_nat (length (pageAt get n)) < limit
  \/ orNum (total_count (responseAt get n)) 0
     <= offsetAt get n + Z.of_nat (length (pageAt get n)).
End Pagination.
End Utils.

(* ===================================================================== *)
(** * 3. Snapshot locator                                                 *)
(* ===================================================================== *)

(** One record of a validator's history.  The balances arrive as decimal
    strings; [None] is an absent (falsy) field. *)
Record HistoryEntry := {
  epoch : Z;
  active_balance : option Z;
  active_shares : option Z;
}.

#[global] Instance HistoryEntry_eq_dec : EqDecision HistoryEntry.
Proof. solve_decision. Defined.

(** The [while (low <= high)] loop of the binary search. *)
Equations? searchLoop (history : list HistoryEntry) (targetEpoch : Z)
  (low high : Z) (result : option HistoryEntry) : option HistoryEntry
  by wf (Z.to_nat (high - low + 1)) lt :=
  searchLoop history targetEpoch low high result with Z_le_gt_dec low high := {
    | left _ =>
        let mid := (low + high) / 2 in
        match history !! Z.to_nat mid with
        | Some entry =>
            if epoch entry <=? targetEpoch
            then searchLoop history targetEpoch (mid + 1) high (Some entry)
            else searchLoop history targetEpoch low (mid - 1) result
        | None => result (* [history[mid]] is always in range *)
        end
    | right _ => result }.
Proof.
  all: subst mid;
    assert (low <= (low + high) / 2 <= high)
      by (split; [apply Z.div_le_lower_bound | apply Z.div_le_upper_bound]; lia);
    lia.
Qed.

Definition findHistoryEntryForEpoch (history : list HistoryEntry)
  (targetEpoch : Z) : option HistoryEntry :=
  match history with
  | [] => None
  | _ => searchLoop history targetEpoch 0 (Z.of_nat (length history) - 1) None
  end.

(** [history.sort((a, b) => a.epoch - b.epoch)]: a stable sort by epoch. *)
Fixpoint insertByEpoch (x : HistoryEntry) (l : list HistoryEntry)
  : list HistoryEntry :=
  match l with
  | [] => [x]
  | y :: r => if epoch x <=? epoch y then x :: y :: r else y :: insertByEpoch x r
  end.

Definition sortByEpoch (l : list HistoryEntry) : list HistoryEntry :=
  foldr insertByEpoch [] l.

(** [calculateShareValue(historyEntry)], with [BigInt(1e18)]. *)
Definition calculateShareValue (historyEntry : HistoryEntry) : Z :=
  let balance := default 0 (active_balance historyEntry) in
  let shares := default 1 (active_shares historyEntry) in
  if shares =? 0 then 0 else Z.quot (balance * 10 ^ 18) shares.

(** [calculateTotalValue(userShares, historyEntry)]. *)
Definition calculateTotalValue (userShares : Z)
  (historyEntry : option HistoryEntry) : Z :=
  match historyEntry with
  | None => 0
  | Some h =>
      let balance := default 0 (active_balance h) in
      let shares := default 1 (active_shares h) in
      if shares =? 0 then 0 else Z.quot (userShares * balance) shares
  end.


(* ===================================================================== *)
(** * 4. Fetched data and the share-position reconstructor               *)
(* ===================================================================== *)

(** [ev.body] of a consensus event; every access in the source is guarded
    ([ev.body?.x || default]), so every field may be absent. *)
Record EventBody := {
  owner : option string;
  escrow : option string;
  body_epoch : option Z;
  new_shares : option Z;
  debonding_shares : option Z;
  amount : option Z;
}.

(** One item of [/accounts/{address}/delegations]. *)
Record Delegation := {
  del_validator : option string;
  del_shares : option Z;
}.

Definition lowerChar (c : ascii) : ascii :=
  let n := nat_of_ascii c in
  if ((65 <=? n) && (n <=? 90))%nat then ascii_of_nat (n + 32) else c.

(** [s.toLowerCase()] on ASCII text (addresses are bech32 strings). *)
Definition toLowerCase (s : string) : string :=
  string_of_list_ascii (map lowerChar (list_ascii_of_string s)).

(** [normalizeAddress(address)] = [address?.toLowerCase() || ""]. *)
Definition normalizeAddress (address : option string) : string :=
  match address with
  | Some a => toLowerCase a
  | None => ""
  end.

(** A plain object with string keys, in insertion order (the order in which
    [Object.entries] and [Object.keys] enumerate address-like keys). *)
Fixpoint objGet {V : Type} (k : string) (o : list (string * V)) : option V :=
  match o with
  | [] => None
  | (k', v) :: r => if String.eqb k k' then Some v else objGet k r
  end.

Fixpoint objSet {V : Type} (k : string) (v : V) (o : list (string * V))
  : list (string * V) :=
  match o with
  | [] => [(k, v)]
  | (k', v') :: r =>
      if String.eqb k k' then (k, v) :: r else (k', v') :: objSet k v r
  end.

(** [set.add(x)] on a [Set], which enumerates in insertion order. *)
Definition setAdd (x : string) (s : list string) : list string :=
  if bool_decide (x ∈ s) then s else s ++ [x].

(** The filter applied to both event lists ("events during the year"). *)
Definition relevant (normalizedAddress : string) (startEpoch endEpoch : Z)
  (ev : EventBody) : bool :=
  if negb (String.eqb (normalizeAddress (owner ev)) normalizedAddress) then false
  else
    let eventEpoch := orNum (body_epoch ev) 0 in
    (startEpoch <? eventEpoch) && (eventEpoch <=? endEpoch).

(** [currentSharesPerValidator]. *)
Definition recordDelegation (o : list (string * Z)) (del : Delegation)
  : list (string * Z) :=
  match del_validator del, del_shares del with
  | Some v, Some s =>
      if String.eqb v "" then o else objSet (normalizeAddress (Some v)) s o
  | _, _ => o
  end.

Definition currentSharesPerValidatorOf (currentDelegations : list Delegation)
  : list (string * Z) :=
  foldl recordDelegation [] currentDelegations.

(** ** Shares at [startEpoch] (implementation test script).
    The Add loop subtracts [new_shares] and clamps at zero after each event;
    the Debond loop then adds [debonding_shares] back. *)
Definition reverseAdd (sharesPerValidator : list (string * Z)) (ev : EventBody)
  : list (string * Z) :=
  let validator := normalizeAddress (escrow ev) in
  let shares := default 0 (new_shares ev) in
  let o1 :=
    objSet validator (default 0 (objGet validator sharesPerValidator) - shares)
      sharesPerValidator in
  if default 0 (objGet validator o1) <? 0 then objSet validator 0 o1 else o1.

Definition reverseDebond (sharesPerValidator : list (string * Z)) (ev : EventBody)
  : list (string * Z) :=
  let validator := normalizeAddress (escrow ev) in
  let shares := default 0 (debonding_shares ev) in
  objSet validator (default 0 (objGet validator sharesPerValidator) + shares)
    sharesPerValidator.

Definition sharesPerValidatorOf (currentSharesPerValidator : list (string * Z))
  (relevantAddEvents relevantDebondEvents : list EventBody) : list (string * Z) :=
  let copied :=
    foldl (fun o '(validator, shares) => objSet validator shares o) []
      currentSharesPerValidator in
  let afterAdds := foldl reverseAdd copied relevantAddEvents in
  foldl reverseDebond afterAdds relevantDebondEvents.

Module MonthlyScript.
(** Shares at the start of the year in the monthly integration script
    (one fixed validator): no clamp at all. *)
Definition initialShares (currentShares : option Z)
  (relevantAddEvents relevantDebondEvents : list EventBody) : Z :=
  let s0 := default 0 currentShares in
  let s1 := foldl (fun s ev => s - default 0 (new_shares ev)) s0 relevantAddEvents in
  foldl (fun s ev => s + default 0 (debonding_shares ev)) s1 relevantDebondEvents.
End MonthlyScript.

(** [validators]: the validators with positive reconstructed shares, then
    those of the current delegations, without duplicates and without the
    empty address. *)
Definition validatorsOf (sharesPerValidator currentSharesPerValidator : list (string * Z))
  : list string :=
  let s1 :=
    foldl (fun s '(validator, shares) => if 0 <? shares then setAdd validator s else s)
      [] sharesPerValidator in
  let s2 := foldl (fun s validator => setAdd validator s) s1
              (map fst currentSharesPerValidator) in
  List.filter (fun v => negb (String.eqb v "")) s2.

(* ===================================================================== *)
(** * 5. Epoch sampler                                                    *)
(* ===================================================================== *)

(** [step = Math.max(1, Math.floor(totalEpochs / targetSamples))]. *)
Definition sampleStep (totalEpochs : Z) : Z := Z.max 1 (totalEpochs / 12).

(** [for (let e = ...; e <= endEpoch; e += step) epochsToProcess.push(e)],
    with [step = sampleStep totalEpochs]. *)
Equations? sampleLoop (totalEpochs e endEpoch : Z) (epochsToProcess : list Z)
  : list Z by wf (Z.to_nat (endEpoch - e + 1)) lt :=
  sampleLoop totalEpochs e endEpoch epochsToProcess with Z_le_gt_dec e endEpoch := {
    | left _ =>
        sampleLoop totalEpochs (e + sampleStep totalEpochs) endEpoch
          (epochsToProcess ++ [e])
    | right _ => epochsToProcess }.
Proof. unfold sampleStep. lia. Qed.

Definition epochsToProcessOf (granularity : string) (startEpoch endEpoch : Z)
  : list Z :=
  let totalEpochs := endEpoch - startEpoch + 1 in
  if String.eqb granularity "year" then [endEpoch]
  else
    let step := sampleStep totalEpochs in
    let epochsToProcess := sampleLoop totalEpochs (startEpoch + step) endEpoch [] in
    match last epochsToProcess with
    | None => epochsToProcess ++ [endEpoch]
    | Some l =>
        if l =? endEpoch then epochsToProcess else epochsToProcess ++ [endEpoch]
    end.


(* ===================================================================== *)
(** * 6. Rewards accrual engine                                           *)
(* ===================================================================== *)

Inductive EventType := EvAdd | EvDebond.

(** An entry of [eventsByEpoch]: [{type, validator, shares, amount}]. *)
Record Event := {
  ev_type : EventType;
  ev_validator : string;
  ev_shares : Z;
  ev_amount : Z;
}.

Definition addEventOf (ev : EventBody) : Event :=
  {| ev_type := EvAdd;
     ev_validator := normalizeAddress (escrow ev);
     ev_shares := default 0 (new_shares ev);
     ev_amount := default 0 (amount ev) |}.

Definition debondEventOf (ev : EventBody) : Event :=
  {| ev_type := EvDebond;
     ev_validator := normalizeAddress (escrow ev);
     ev_shares := default 0 (debonding_shares ev);
     ev_amount := default 0 (amount ev) |}.

(** [eventsByEpoch[epoch].push(...)] with [epoch = ev.body?.epoch || startEpoch]. *)
Definition pushEvent (startEpoch : Z) (mk : EventBody -> Event)
  (eventsByEpoch : gmap Z (list Event)) (ev : EventBody) : gmap Z (list Event) :=
  let epoch := orNum (body_epoch ev) startEpoch in
  <[epoch := default [] (eventsByEpoch !! epoch) ++ [mk ev]]> eventsByEpoch.

Definition eventsByEpochOf (startEpoch : Z)
  (relevantAddEvents relevantDebondEvents : list EventBody) : gmap Z (list Event) :=
  foldl (pushEvent startEpoch debondEventOf)
    (foldl (pushEvent startEpoch addEventOf) ∅ relevantAddEvents)
    relevantDebondEvents.

(** [validatorState[validator]]. *)
Record ValidatorState := {
  shares : Z;
  prevTotalValue : Z;
  periodDelegationValue : Z;
  periodUndelegationValue : Z;
}.

(** One element of [results]. *)
Record Row := {
  start_timestamp : string;
  end_timestamp : string;
  start_epoch : Z;
  end_epoch : Z;
  validator : string;
  row_shares : string;
  share_price : string;
  delegation_value : string;
  rewards : string;
  _prevTotalValue : Z;
  _totalValue : Z;
  _periodDelegationValue : Z;
  _periodUndelegationValue : Z;
}.

(** A timestamp is a string or [null]; the empty string is falsy as well. *)
Definition truthy (t : option string) : bool :=
  match t with
  | Some s => negb (String.eqb s "")
  | None => false
  end.

(** [t || ""]. *)
Definition orEmpty (t : option string) : string :=
  if truthy t then default ""%string t else ""%string.

Definition tsLookup (epochTimestamps : gmap Z (option string)) (e : Z)
  : option string :=
  match epochTimestamps !! e with
  | Some t => t
  | None => None
  end.

(** The body of [if (ev.type === "add") ... else if (ev.type === "debond") ...]
    on the state object of the event's validator. *)
Definition applyToState (state : ValidatorState) (ev : Event)
  (historyEntry : option HistoryEntry) : ValidatorState :=
  match ev_type ev with
  | EvAdd =>
      {| shares := shares state + ev_shares ev;
         prevTotalValue := prevTotalValue state;
         periodDelegationValue :=
           periodDelegationValue state + calculateTotalValue (ev_shares ev) historyEntry;
         periodUndelegationValue := periodUndelegationValue state |}
  | EvDebond =>
      let shares1 := shares state - ev_shares ev in
      {| shares := if shares1 <? 0 then 0 else shares1;
         prevTotalValue := prevTotalValue state;
         periodDelegationValue := periodDelegationValue state;
         periodUndelegationValue :=
           periodUndelegationValue state + calculateTotalValue (ev_shares ev) historyEntry |}
  end.

(** The row pushed for a validator at a sample, and the state it leaves;
    [None] when the validator is skipped ([continue]). *)
Definition emitFor (startEpoch : Z) (startTs : option string) (epoch : Z)
  (timestamp : string) (validator : string) (history : list HistoryEntry)
  (state : ValidatorState) : option (Row * ValidatorState) :=
  if (shares state =? 0) && (prevTotalValue state =? 0) then None
  else
    match findHistoryEntryForEpoch history epoch with
    | None => None
    | Some historyEntry =>
        let shareValueScaled := calculateShareValue historyEntry in
        let totalValue := calculateTotalValue (shares state) (Some historyEntry) in
        let earned :=
          totalValue - prevTotalValue state - periodDelegationValue state
          + periodUndelegationValue state in
        Some
          ({| start_timestamp := orEmpty startTs;
              end_timestamp := timestamp;
              start_epoch := startEpoch;
              end_epoch := epoch;
              validator := validator;
              row_shares := Format.toString (shares state);
              share_price := Format.toRose shareValueScaled 18;
              delegation_value := Format.toRose totalValue 0;
              rewards := Format.toRose earned 0;
              _prevTotalValue := prevTotalValue state;
              _totalValue := totalValue;
              _periodDelegationValue := periodDelegationValue state;
              _periodUndelegationValue := periodUndelegationValue state |},
           {| shares := shares state;
              prevTotalValue := totalValue;
              periodDelegationValue := 0;
              periodUndelegationValue := 0 |})
    end.

Section Engine.
Variable startEpoch : Z.
Variable validators : list string.
Variable validatorHistories : gmap string (list HistoryEntry).
Variable eventsByEpoch : gmap Z (list Event).
Variable epochTimestamps : gmap Z (option string).

(** Body of [for (const ev of events)]. *)
Definition applyEvent (e : Z) (validatorState : gmap string ValidatorState)
  (ev : Event) : gmap string ValidatorState :=
  match validatorState !! ev_validator ev with
  | None => validatorState
  | Some state =>
      let history := default [] (validatorHistories !! ev_validator ev) in
      let historyEntry := findHistoryEntryForEpoch history e in
      <[ev_validator ev := applyToState state ev historyEntry]> validatorState
  end.

(** Body of [for (let e = lastProcessedEpoch + 1; e <= epoch; e++)]. *)
Definition applyEpoch (validatorState : gmap string ValidatorState) (e : Z)
  : gmap string ValidatorState :=
  foldl (applyEvent e) validatorState (default [] (eventsByEpoch !! e)).

(** The whole "Apply events" loop: epochs [lastProcessedEpoch + 1 .. epoch]. *)
Definition applyEvents (lastProcessedEpoch epoch : Z)
  (validatorState : gmap string ValidatorState) : gmap string ValidatorState :=
  foldl applyEpoch validatorState
    (seqZ (lastProcessedEpoch + 1) (epoch - lastProcessedEpoch)).

(** Body of [for (const validator of validators)] ("Output rows").  Every
    validator of the list has a state object, so the [None] branch is not
    taken in a run. *)
Definition outputRow (epoch : Z) (timestamp : string)
  (acc : gmap string ValidatorState * list Row) (validator : string)
  : gmap string ValidatorState * list Row :=
  let '(validatorState, results) := acc in
  match validatorState !! validator with
  | None => acc
  | Some state =>
      let history := default [] (validatorHistories !! validator) in
      match emitFor startEpoch (tsLookup epochTimestamps startEpoch) epoch
              timestamp validator history state with
      | None => acc
      | Some (row, state') => (<[validator := state']> validatorState, results ++ [row])
      end
  end.

(** The loop state of "Process epochs". *)
Record Engine := {
  validatorState : gmap string ValidatorState;
  lastProcessedEpoch : Z;
  results : list Row;
}.

(** Body of [for (const epoch of epochsToProcess)]. *)
Definition processEpoch (s : Engine) (epoch : Z) : Engine :=
  let timestamp := tsLookup epochTimestamps epoch in
  if negb (truthy timestamp) then s
  else
    let st1 := applyEvents (lastProcessedEpoch s) epoch (validatorState s) in
    let '(st2, results2) :=
      foldl (outputRow epoch (default ""%string timestamp)) (st1, results s) validators in
    {| validatorState := st2; lastProcessedEpoch := epoch; results := results2 |}.

Definition processEpochs (s : Engine) (epochsToProcess : list Z) : Engine :=
  foldl processEpoch s epochsToProcess.
End Engine.

(** ** The whole computation, after the network phase.
    [Fetched] holds what the requests returned. *)
Record Fetched := {
  addEscrowEvents : list EventBody;
  debondingEvents : list EventBody;
  currentDelegations : list Delegation;
  (** the paginated history of a validator over [startEpoch - 100 .. endEpoch] *)
  fetchedHistory : string -> list HistoryEntry;
  (** [response.data?.history || []] of the window request of
      [fetchHistoryAtEpoch] *)
  historyWindow : string -> Z -> list HistoryEntry;
  (** timestamp of the start epoch's first block *)
  startTimestamp : option string;
  (** [fetchEpochTimestamp]: [None] when a request failed *)
  fetchEpochTimestamp : Z -> option string;
}.

Definition fetchHistoryAtEpoch (f : Fetched) (validator : string) (targetEpoch : Z)
  : option HistoryEntry :=
  findHistoryEntryForEpoch (sortByEpoch (historyWindow f validator targetEpoch))
    targetEpoch.

Section Run.
Variable f : Fetched.
Variable address : string.
Variables startEpoch endEpoch : Z.

Definition relevantAddEvents : list EventBody :=
  List.filter (relevant (normalizeAddress (Some address)) startEpoch endEpoch)
    (addEscrowEvents f).

Definition relevantDebondEvents : list EventBody :=
  List.filter (relevant (normalizeAddress (Some address)) startEpoch endEpoch)
    (debondingEvents f).

Definition currentSharesPerValidator : list (string * Z) :=
  currentSharesPerValidatorOf (currentDelegations f).

Definition sharesPerValidator : list (string * Z) :=
  sharesPerValidatorOf currentSharesPerValidator relevantAddEvents relevantDebondEvents.

Definition validators : list string :=
  validatorsOf sharesPerValidator currentSharesPerValidator.

Definition validatorHistories : gmap string (list HistoryEntry) :=
  foldl (fun m validator => <[validator := sortByEpoch (fetchedHistory f validator)]> m)
    ∅ validators.

Definition eventsByEpoch : gmap Z (list Event) :=
  eventsByEpochOf startEpoch relevantAddEvents relevantDebondEvents.

Definition epochTimestamps (epochsToProcess : list Z) : gmap Z (option string) :=
  foldl (fun m epoch => <[epoch := fetchEpochTimestamp f epoch]> m)
    (<[startEpoch := startTimestamp f]> ∅) epochsToProcess.

(** "Initialize validator state". *)
Definition initialState (validator : string) : ValidatorState :=
  let initialHistoryEntry := fetchHistoryAtEpoch f validator startEpoch in
  let initialShares := default 0 (objGet validator sharesPerValidator) in
  {| shares := initialShares;
     prevTotalValue := calculateTotalValue initialShares initialHistoryEntry;
     periodDelegationValue := 0;
     periodUndelegationValue := 0 |}.

Definition initialValidatorState : gmap string ValidatorState :=
  foldl (fun m validator => <[validator := initialState validator]> m) ∅ validators.

Definition fetchStakingRewardsTest (granularity : string) : list Row :=
  let epochsToProcess := epochsToProcessOf granularity startEpoch endEpoch in
  results
    (processEpochs startEpoch validators validatorHistories eventsByEpoch
       (epochTimestamps epochsToProcess)
       {| validatorState := initialValidatorState;
          lastProcessedEpoch := startEpoch;
          results := [] |}
       epochsToProcess).
End Run.

(* ===================================================================== *)
(** * 7. Notions used in the statements                                   *)
(* ===================================================================== *)

(** A history in ascending epoch order (what [sort] establishes). *)
Definition ascending (history : list HistoryEntry) : Prop :=
  forall (i j : nat) a b,
    history !! i = Some a -> history !! j = Some b -> (i < j)%nat ->
    epoch a <= epoch b.

(** Ascending with unique epochs. *)
Definition ascendingUnique (history : list HistoryEntry) : Prop :=
  forall (i j : nat) a b,
    history !! i = Some a -> history !! j = Some b -> (i < j)%nat ->
    epoch a < epoch b.

(** The entry at index [b - 1], none for [b = 0]. *)
Definition entryBefore (history : list HistoryEntry) (b : Z) : option HistoryEntry :=
  if b =? 0 then None else history !! Z.to_nat (b - 1).

(** [b] separates the entries at or before the target epoch (indices below
    [b]) from the later ones. *)
Definition boundary (history : list HistoryEntry) (targetEpoch b : Z) : Prop :=
  0 <= b <= Z.of_nat (length history)
  /\ (forall (i : nat) e, Z.of_nat i < b -> history !! i = Some e -> epoch e <= targetEpoch)
  /\ (forall (i : nat) e, b <= Z.of_nat i -> history !! i = Some e -> targetEpoch < epoch e).

(** A small history used in examples. *)
Definition sampleHistory : list HistoryEntry :=
  [ {| epoch := 10; active_balance := Some 100; active_shares := Some 100 |};
    {| epoch := 20; active_balance := Some 110; active_shares := Some 100 |};
    {| epoch := 35; active_balance := Some 120; active_shares := Some 100 |} ].


(** The stepped samples of month granularity:
    [startEpoch + k * step] for [k = 1 .. floor((endEpoch - startEpoch) / step)],
    which are exactly those that are [<= endEpoch]. *)
Definition steppedSamples (startEpoch endEpoch : Z) : list Z :=
  let step := sampleStep (endEpoch - startEpoch + 1) in
  (fun k => startEpoch + k * step) <$> seqZ 1 ((endEpoch - startEpoch) / step).

(** Strictly ascending list of epochs. *)
Definition strictlyAscending (l : list Z) : Prop :=
  forall (i j : nat) x y, l !! i = Some x -> l !! j = Some y -> (i < j)%nat -> x < y.

(** Whether one of the pages [0 .. n-1] was flagged as clipped. *)
Fixpoint clippedUpTo {A : Type} (get : nat -> Z -> Response A) (n : nat) : bool :=
  match n with
  | O => false
  | S m => is_total_count_clipped (responseAt get m) || clippedUpTo get m
  end.

(** A source of three items served with page size 2 whose reported total
    is capped at 2. *)
Definition clippedSource (n : nat) (offset : Z) : Response Z :=
  {| data_items := Some (if offset =? 0 then [1; 2] else [3]);
     total_count := Some 2;
     is_total_count_clipped := true |}.

(** Sum of a list of amounts. *)
Definition sumZ (l : list Z) : Z := foldr Z.add 0 l.

(** The share amounts ([field] is [new_shares] or [debonding_shares]) of the
    events on validator [v], in list order. *)
Definition sharesOn (field : EventBody -> option Z) (v : string)
  (evs : list EventBody) : list Z :=
  (fun ev => default 0 (field ev))
    <$> List.filter (fun ev => String.eqb (normalizeAddress (escrow ev)) v) evs.

(** Reading [sharesPerValidator[v] || 0n]. *)
Definition sharesAt (v : string) (o : list (string * Z)) : Z :=
  default 0 (objGet v o).

Definition addOn (v : string) (n : Z) : EventBody :=
  {| owner := None; escrow := Some v; body_epoch := None;
     new_shares := Some n; debonding_shares := None; amount := None |}.

Definition debondOn (v : string) (n : Z) : EventBody :=
  {| owner := None; escrow := Some v; body_epoch := None;
     new_shares := None; debonding_shares := Some n; amount := None |}.

(** Small inputs used in examples: 500 current shares on validator "v",
    two Adds on "v" and one on "w", one Debond on "v". *)
Definition exampleDelegations : list Delegation :=
  [ {| del_validator := Some "v"%string; del_shares := Some 500 |} ].

Definition exampleAdds : list EventBody :=
  [addOn "v" 100; addOn "w" 7; addOn "v" 50].

Definition exampleDebonds : list EventBody := [debondOn "v" 30].

(** ** One validator's view of the engine.
    The engine keeps one state object per validator and touches only the
    object of the validator at hand, so a run can be read validator by
    validator: [local*] are the engine's loops restricted to the state
    (if any) and the rows of a single validator [v]. *)

(** The rows of a validator, in emission order. *)
Definition rowsOf (v : string) (rows : list Row) : list Row :=
  List.filter (fun r => String.eqb (validator r) v) rows.

Section LocalView.
Variable startEpoch : Z.
Variable validators : list string.
Variable validatorHistories : gmap string (list HistoryEntry).
Variable eventsByEpoch : gmap Z (list Event).
Variable epochTimestamps : gmap Z (option string).
Variable v : string.

Definition localEvent (e : Z) (o : option ValidatorState) (ev : Event)
  : option ValidatorState :=
  if String.eqb (ev_validator ev) v
  then (fun state =>
          applyToState state ev
            (findHistoryEntryForEpoch (default [] (validatorHistories !! v)) e)) <$> o
  else o.

Definition localEpoch (o : option ValidatorState) (e : Z) : option ValidatorState :=
  foldl (localEvent e) o (default [] (eventsByEpoch !! e)).

Definition localEvents (lastProcessedEpoch epoch : Z) (o : option ValidatorState)
  : option ValidatorState :=
  foldl localEpoch o (seqZ (lastProcessedEpoch + 1) (epoch - lastProcessedEpoch)).

(** The emit step for [v], when [v] is one of the [validators]. *)
Definition localEmit (epoch : Z) (timestamp : string) (o : option ValidatorState)
  : option ValidatorState * list Row :=
  if bool_decide (v ∈ validators) then
    match o with
    | Some state =>
        match emitFor startEpoch (tsLookup epochTimestamps startEpoch) epoch timestamp v
                (default [] (validatorHistories !! v)) state with
        | Some (row, state') => (Some state', [row])
        | None => (Some state, [])
        end
    | None => (None, [])
    end
  else (o, []).

(** State of [v], last processed epoch, rows of [v]. *)
Definition localStep (s : option ValidatorState * Z * list Row) (epoch : Z)
  : option ValidatorState * Z * list Row :=
  let '(o, lastProcessedEpoch, rows) := s in
  let timestamp := tsLookup epochTimestamps epoch in
  if negb (truthy timestamp) then s
  else
    let o1 := localEvents lastProcessedEpoch epoch o in
    let '(o2, new) := localEmit epoch (default ""%string timestamp) o1 in
    (o2, epoch, rows ++ new).

Definition localView (s : Engine) : option ValidatorState * Z * list Row :=
  (validatorState s !! v, lastProcessedEpoch s, rowsOf v (results s)).
End LocalView.

(** Every tracked share count is non-negative. *)
Definition nonnegShares (st : gmap string ValidatorState) : Prop :=
  forall v s, st !! v = Some s -> 0 <= shares s.

(** Every Add event carries a non-negative share amount. *)
Definition addsNonneg (eventsByEpoch : gmap Z (list Event)) : Prop :=
  forall e evs ev,
    eventsByEpoch !! e = Some evs -> ev ∈ evs -> ev_type ev = EvAdd ->
    0 <= ev_shares ev.

(** A fresh state holding [n] shares valued [n]. *)
Definition holding (n : Z) : ValidatorState :=
  {| shares := n; prevTotalValue := n;
     periodDelegationValue := 0; periodUndelegationValue := 0 |}.

(** A small engine configuration used in examples: validator "v" with
    [sampleHistory], 100 shares at epoch 0, an Add of 30 and a Debond of 500
    shares at epoch 12, one sample at epoch 20. *)
Definition exampleEvents : gmap Z (list Event) :=
  {[ 12 := [addEventOf (addOn "v" 30); debondEventOf (debondOn "v" 500)] ]}.

Definition exampleHistories : gmap string (list HistoryEntry) :=
  {[ "v"%string := sampleHistory ]}.

Definition exampleTimestamps : gmap Z (option string) :=
  {[ 0 := Some "t0"%string; 20 := Some "t20"%string ]}.

Definition exampleEngine : Engine :=
  {| validatorState := {[ "v"%string := holding 100 ]};
     lastProcessedEpoch := 0;
     results := [] |}.

(** ** Notions for the statements about whole runs. *)

(** [epochTimestamps[startEpoch]] once the timestamps are fetched: the
    entry written first from the start epoch's block is overwritten by
    [fetchEpochTimestamp] when [startEpoch] is itself a sample, which
    happens exactly when the period is a single epoch. *)
Definition startTimestampOf (f : Fetched) (startEpoch endEpoch : Z) : option string :=
  if startEpoch =? endEpoch then fetchEpochTimestamp f startEpoch
  else startTimestamp f.

(** The integer a row's [rewards] column stands for (base units). *)
Definition rewardOf (r : Row) : Z :=
  default 0 (Format.parseRose Format.ROSE_DECIMALS (rewards r)).

(** Sum of the [rewards] of the rows of validator [v]. *)
Definition sumRewards (v : string) (rows : list Row) : Z :=
  sumZ (rewardOf <$> rowsOf v rows).

(** A row of validator [v] closes at [epoch]. *)
Definition emittedAt (v : string) (epoch : Z) (rows : list Row) : Prop :=
  exists r, r ∈ rows /\ validator r = v /\ end_epoch r = epoch.

(** What a state still owes to the rewards: minus the value at the last
    emitted sample, minus the delegations and plus the undelegations of the
    open period. *)
Definition ledger (s : ValidatorState) : Z :=
  - prevTotalValue s - periodDelegationValue s + periodUndelegationValue s.

(** State [o] of a run that has emitted rewards summing to [k] against the
    state [ref] of a run over the same events that has emitted nothing. *)
Definition tracks (k : Z) (o ref : option ValidatorState) : Prop :=
  match o, ref with
  | Some a, Some b => shares a = shares b /\ k + ledger a = ledger b
  | None, None => True
  | _, _ => False
  end.

(** The state of validator [v] when all events of the period
    ([startEpoch + 1 .. endEpoch]) are applied to its initial state and no
    row is emitted. *)
Definition referenceState (f : Fetched) (address : string) (startEpoch endEpoch : Z)
  (v : string) : option ValidatorState :=
  localEvents (validatorHistories f address startEpoch endEpoch)
    (eventsByEpoch f address startEpoch endEpoch) v startEpoch endEpoch
    (initialValidatorState f address startEpoch endEpoch !! v).

(** No event of the period is on validator [v]. *)
Definition noEventsOn (eventsByEpoch : gmap Z (list Event)) (v : string) : Prop :=
  forall e evs ev, eventsByEpoch !! e = Some evs -> ev ∈ evs -> ev_validator ev <> v.

(** The two values the reconciliation property speaks of. *)
Definition initialTotalValueOf (f : Fetched) (address : string)
  (startEpoch endEpoch : Z) (v : string) : Z :=
  prevTotalValue (initialState f address startEpoch endEpoch v).

Definition finalTotalValueOf (f : Fetched) (address : string)
  (startEpoch endEpoch : Z) (v : string) : Z :=
  match referenceState f address startEpoch endEpoch v with
  | Some final =>
      calculateTotalValue (shares final)
        (findHistoryEntryForEpoch
           (default [] (validatorHistories f address startEpoch endEpoch !! v)) endEpoch)
  | None => 0
  end.

Definition eventBody (who v : string) (e : Z) (added debonded : option Z) : EventBody :=
  {| owner := Some who; escrow := Some v; body_epoch := Some e;
     new_shares := added; debonding_shares := debonded; amount := None |}.

Definition snapshot (e balance total : Z) : HistoryEntry :=
  {| epoch := e; active_balance := Some balance; active_shares := Some total |}.

(** Period 0..24 (month samples 2, 4, .., 24).  The delegator holds 440
    shares of "v" at the start, adds 100 at epoch 5 and debonds 40 at epoch
    15, so holds 500 now; the pool grows from 1000 to 1040 per 1000
    shares. *)
Definition examplePool : list HistoryEntry :=
  [snapshot 0 1000 1000; snapshot 6 1010 1000; snapshot 12 1020 1000;
   snapshot 18 1030 1000; snapshot 24 1040 1000].

Definition exampleFetched : Fetched :=
  {| addEscrowEvents := [eventBody "addr" "v" 5 (Some 100) None];
     debondingEvents := [eventBody "addr" "v" 15 None (Some 40)];
     currentDelegations := [ {| del_validator := Some "v"%string; del_shares := Some 500 |} ];
     fetchedHistory := fun _ => examplePool;
     historyWindow := fun _ _ => examplePool;
     startTimestamp := Some "t0"%string;
     fetchEpochTimestamp := fun _ => Some "t"%string |}.

(** Period 0..24.  The delegator holds 100 shares of "v" at the start and
    debonds them all at epoch 3; the pool's balance reads 0 at epoch 2 and
    is back at epoch 3. *)
Definition zeroedPool : list HistoryEntry :=
  [snapshot 0 1000 1000; snapshot 2 0 1000; snapshot 3 1000 1000].

Definition zeroedFetched : Fetched :=
  {| addEscrowEvents := [];
     debondingEvents := [eventBody "addr" "v" 3 None (Some 100)];
     currentDelegations := [];
     fetchedHistory := fun _ => zeroedPool;
     historyWindow := fun _ _ => zeroedPool;
     startTimestamp := Some "t0"%string;
     fetchEpochTimestamp := fun _ => Some "t"%string |}.

From Stdlib Require HexadecimalString.

(* ===================================================================== *)
(** * 8. Further functions of the sources                                 *)
(* ===================================================================== *)

(** Pairwise distinct epochs (what the history endpoint returns, in any
    order). *)
Definition distinctEpochs (history : list HistoryEntry) : Prop :=
  NoDup (epoch <$> history).

(** The entries of a history at a given epoch, in list order. *)
Definition entriesAt (e : Z) (history : list HistoryEntry) : list HistoryEntry :=
  List.filter (fun h => epoch h =? e) history.

(** A server that holds the list [all], honours [limit] and [offset], and
    reports the true total: the endpoint the fetchers are written for. *)
Definition pagedServer {A : Type} (all : list A) (limit : Z) (n : nat) (offset : Z)
  : Response A :=
  {| data_items := Some (take (Z.to_nat limit) (drop (Z.to_nat offset) all));
     total_count := Some (Z.of_nat (length all));
     is_total_count_clipped := false |}.

(** [createAddressSet(addresses)] of [utils.js]:
    [new Set(addresses.map((addr) => normalizeAddress(addr)))]. *)
Definition createAddressSet (addresses : list (option string)) : list string :=
  foldl (fun set addr => setAdd addr set) [] (map normalizeAddress addresses).

(** [set.has(x)]. *)
Definition setHas (x : string) (set : list string) : bool := bool_decide (x ∈ set).

(** [n.toString(16)] for a natural number. *)
Definition toString16 (n : N) : list ascii :=
  list_ascii_of_string (HexadecimalString.NilZero.string_of_uint (N.to_hex_uint n)).

(** [b64ToHex(b64)] of [utils.js].  [atob] is the platform's base64 decoder:
    it returns the binary string (one character of code 0..255 per byte) or
    throws ([None]). *)
Section Base64.
Variable atob : string -> option (list ascii).

Definition b64ToHex (b64 : option string) : string :=
  match b64 with
  | None => ""
  | Some EmptyString => ""
  | Some b64 =>
      match atob b64 with
      | Some binaryStr =>
          string_of_list_ascii
            (concat (map (fun char => Format.padStart (toString16 (N_of_ascii char)) 2 "0")
                         binaryStr))
      | None => ""
      end
  end.
End Base64.

(** Reading a lowercase hexadecimal text back, two digits per byte. *)
Definition hexVal (c : ascii) : option N :=
  let n := N_of_ascii c in
  if ((48 <=? n) && (n <=? 57))%N then Some (n - 48)%N
  else if ((97 <=? n) && (n <=? 102))%N then Some (n - 87)%N
  else None.

Fixpoint hexToBytes (s : list ascii) : option (list ascii) :=
  match s with
  | [] => Some []
  | hi :: lo :: r =>
      match hexVal hi, hexVal lo, hexToBytes r with
      | Some h, Some l, Some bytes => Some (ascii_of_N (16 * h + l) :: bytes)
      | _, _, _ => None
      end
  | _ => None
  end.

(** A decoder that knows one text: ["TWE="] is the base64 form of ["Ma"]. *)
Definition exampleAtob (s : string) : option (list ascii) :=
  if String.eqb s "TWE=" then Some ["M"; "a"]%char else None.

(** Row [r] is what the "Output rows" loop pushes for validator [v] at the
    sample [epoch] with timestamp [timestamp], from some state of [v]. *)
Definition pushedAt (startEpoch : Z) (validatorHistories : gmap string (list HistoryEntry))
  (epochTimestamps : gmap Z (option string)) (v : string) (epoch : Z) (timestamp : string)
  (r : Row) : Prop :=
  exists state state',
    emitFor startEpoch (tsLookup epochTimestamps startEpoch) epoch timestamp v
      (default [] (validatorHistories !! v)) state = Some (r, state').

(** Each row starts from the value at which the previous one closed; the
    first one starts from [prev]. *)
Fixpoint chained (prev : Z) (rows : list Row) : Prop :=
  match rows with
  | [] => True
  | r :: rest => _prevTotalValue r = prev /\ chained (_totalValue r) rest
  end.

(** The value at which the last row closes ([prev] when there is none). *)
Definition closingValue (prev : Z) (rows : list Row) : Z :=
  default prev (_totalValue <$> last rows).

(** The totals of [main] in the implementation test script:
    [total += row._totalValue - row._prevTotalValue] over the rows of a run. *)
Definition totalOf (results : list Row) : Z :=
  foldl (fun total row => total + (_totalValue row - _prevTotalValue row)) 0 results.

(** A validator's view of the run (state, last sample, rows) in which the
    rows are chained and the state remembers the value at which the last row
    closed. *)
Definition chainInv (prev : Z) (s : option ValidatorState * Z * list Row) : Prop :=
  chained prev s.2
  /\ forall state, s.1.1 = Some state -> prevTotalValue state = closingValue prev s.2.

(** ** [main] of the monthly integration script *)
Module MonthlyMain.
(** "Generate monthly epochs": the list starts with [START_EPOCH]. *)
Definition epochsToProcessOf (START_EPOCH END_EPOCH : Z) : list Z :=
  let totalEpochs := END_EPOCH - START_EPOCH + 1 in
  let step := sampleStep totalEpochs in
  let epochsToProcess :=
    sampleLoop totalEpochs (START_EPOCH + step) END_EPOCH [START_EPOCH] in
  match last epochsToProcess with
  | Some l =>
      if l =? END_EPOCH then epochsToProcess else epochsToProcess ++ [END_EPOCH]
  | None => epochsToProcess ++ [END_EPOCH]
  end.

(** Body of [for (const epoch of epochsToProcess)] on
    [(prevTotalValue, totalRewards)]; [prevTotalValue] is [null] before the
    first sample. *)
Definition monthStep (f : Fetched) (VALIDATOR : string) (userShares : Z)
  (s : option Z * Z) (epoch : Z) : option Z * Z :=
  let '(prevTotalValue, totalRewards) := s in
  let historyEntry := fetchHistoryAtEpoch f VALIDATOR epoch in
  let totalValue := calculateTotalValue userShares historyEntry in
  match prevTotalValue with
  | Some prev => (Some totalValue, totalRewards + (totalValue - prev))
  | None => (Some totalValue, totalRewards)
  end.

Definition totalRewards (f : Fetched) (VALIDATOR : string) (userShares : Z)
  (START_EPOCH END_EPOCH : Z) : Z :=
  (foldl (monthStep f VALIDATOR userShares) (None, 0)
     (epochsToProcessOf START_EPOCH END_EPOCH)).2.

(** "Verification": [endValue - startValue] from two further history
    requests. *)
Definition yearlyTotal (f : Fetched) (VALIDATOR : string) (userShares : Z)
  (START_EPOCH END_EPOCH : Z) : Z :=
  let startHistory := fetchHistoryAtEpoch f VALIDATOR START_EPOCH in
  let endHistory := fetchHistoryAtEpoch f VALIDATOR END_EPOCH in
  let startValue := calculateTotalValue userShares startHistory in
  let endValue := calculateTotalValue userShares endHistory in
  endValue - startValue.
End MonthlyMain.

(** The example engine configuration with a second validator "w" beside
    "v": further events, a further history and a further state object. *)
Definition crowdedEvents : gmap Z (list Event) :=
  {[ 12 := [addEventOf (addOn "w" 7); addEventOf (addOn "v" 30);
            debondEventOf (debondOn "v" 500)];
     15 := [addEventOf (addOn "w" 1)] ]}.

Definition crowdedHistories : gmap string (list HistoryEntry) :=
  {[ "v"%string := sampleHistory; "w"%string := examplePool ]}.

Definition crowdedEngine : Engine :=
  {| validatorState := {[ "v"%string := holding 100; "w"%string := holding 5 ]};
     lastProcessedEpoch := 0;
     results := [] |}.

(** ** The events of the period, as the reconciliation speaks of them
    These notions are stated on the fetched event lists themselves, not on
    the engine's state. *)

(** The epoch under which an event is filed: its epoch, or [startEpoch] when
    the epoch is absent or zero. *)
Definition filedEpoch (startEpoch : Z) (ev : EventBody) : Z :=
  orNum (body_epoch ev) startEpoch.

(** An event of the account on validator [v] whose epoch lies in
    [(startEpoch, endEpoch]]. *)
Definition ofPeriod (address : string) (startEpoch endEpoch : Z) (v : string)
  (ev : EventBody) : bool :=
  String.eqb (normalizeAddress (owner ev)) (normalizeAddress (Some address))
  && (startEpoch <? orNum (body_epoch ev) 0)
  && (orNum (body_epoch ev) 0 <=? endEpoch)
  && String.eqb (normalizeAddress (escrow ev)) v.

(** Those events of [evs] filed under epoch [k], and under the epochs of
    [(a, b]], in list order. *)
Definition eventsAt (address : string) (startEpoch endEpoch : Z) (v : string) (k : Z)
  (evs : list EventBody) : list EventBody :=
  List.filter (fun ev => ofPeriod address startEpoch endEpoch v ev
                         && (filedEpoch startEpoch ev =? k)) evs.

Definition eventsIn (address : string) (startEpoch endEpoch : Z) (v : string) (a b : Z)
  (evs : list EventBody) : list EventBody :=
  List.filter (fun ev => ofPeriod address startEpoch endEpoch v ev
                         && (a <? filedEpoch startEpoch ev)
                         && (filedEpoch startEpoch ev <=? b)) evs.

(** The value of an event's shares at the snapshot located at its epoch. *)
Definition pricedAt (history : list HistoryEntry) (startEpoch : Z)
  (field : EventBody -> option Z) (ev : EventBody) : Z :=
  calculateTotalValue (default 0 (field ev))
    (findHistoryEntryForEpoch history (filedEpoch startEpoch ev)).

(** Delegations and undelegations on [v] over the epochs of [(a, b]]: the
    snapshot-priced values of the Add and of the Debond events. *)
Definition delegationsIn (f : Fetched) (address : string) (startEpoch endEpoch : Z)
  (v : string) (a b : Z) : Z :=
  sumZ (pricedAt (sortByEpoch (fetchedHistory f v)) startEpoch new_shares
          <$> eventsIn address startEpoch endEpoch v a b (addEscrowEvents f)).

Definition undelegationsIn (f : Fetched) (address : string) (startEpoch endEpoch : Z)
  (v : string) (a b : Z) : Z :=
  sumZ (pricedAt (sortByEpoch (fetchedHistory f v)) startEpoch debonding_shares
          <$> eventsIn address startEpoch endEpoch v a b (debondingEvents f)).

(** The same, epoch by epoch. *)
Definition delegationsAt (f : Fetched) (address : string) (startEpoch endEpoch : Z)
  (v : string) (k : Z) : Z :=
  sumZ (pricedAt (sortByEpoch (fetchedHistory f v)) startEpoch new_shares
          <$> eventsAt address startEpoch endEpoch v k (addEscrowEvents f)).

Definition undelegationsAt (f : Fetched) (address : string) (startEpoch endEpoch : Z)
  (v : string) (k : Z) : Z :=
  sumZ (pricedAt (sortByEpoch (fetchedHistory f v)) startEpoch debonding_shares
          <$> eventsAt address startEpoch endEpoch v k (debondingEvents f)).

(** Sum of [g] over the epochs of [(a, b]]. *)
Definition accruedIn (g : Z -> Z) (a b : Z) : Z := sumZ (g <$> seqZ (a + 1) (b - a)).

(** Replay of the share count through the events of one epoch, Adds before
    Debonds (an Add adds its [new_shares], a Debond subtracts its
    [debonding_shares] with floor 0), and through the epochs of [(a, b]] in
    ascending order. *)
Definition sharesStep (f : Fetched) (address : string) (startEpoch endEpoch : Z)
  (v : string) (shares : Z) (k : Z) : Z :=
  foldl (fun n ev => Z.max 0 (n - default 0 (debonding_shares ev)))
    (foldl (fun n ev => n + default 0 (new_shares ev)) shares
       (eventsAt address startEpoch endEpoch v k (addEscrowEvents f)))
    (eventsAt address startEpoch endEpoch v k (debondingEvents f)).

Definition sharesThrough (f : Fetched) (address : string) (startEpoch endEpoch : Z)
  (v : string) (a b : Z) (shares : Z) : Z :=
  foldl (sharesStep f address startEpoch endEpoch v) shares (seqZ (a + 1) (b - a)).

(** The share count reconstructed for [startEpoch]. *)
Definition startShares (f : Fetched) (address : string) (startEpoch endEpoch : Z)
  (v : string) : Z :=
  sharesAt v (sharesPerValidator f address startEpoch endEpoch).

(** The value, at the snapshot located at epoch [b], of the share count
    replayed from the start shares through the events up to [b]. *)
Definition valueAtEpoch (f : Fetched) (address : string) (startEpoch endEpoch : Z)
  (v : string) (b : Z) : Z :=
  calculateTotalValue
    (sharesThrough f address startEpoch endEpoch v startEpoch b
       (startShares f address startEpoch endEpoch v))
    (findHistoryEntryForEpoch (sortByEpoch (fetchedHistory f v)) b).

(** The end epoch of the last row ([startEpoch] when there is none). *)
Definition closingEpoch (startEpoch : Z) (rows : list Row) : Z :=
  default startEpoch (end_epoch <$> last rows).

(** A validator's view of the run (state, last sample, rows) accounted for
    in terms of the events: the state holds the replayed share count, the
    closing value of the last row and the priced events since that row; the
    rewards emitted so far are the closing value minus the initial value,
    minus the delegations and plus the undelegations up to that row. *)
Definition reconInv (f : Fetched) (address : string) (startEpoch endEpoch : Z)
  (v : string) (s : option ValidatorState * Z * list Row) : Prop :=
  exists state,
    s.1.1 = Some state
    /\ shares state
       = sharesThrough f address startEpoch endEpoch v startEpoch s.1.2
           (startShares f address startEpoch endEpoch v)
    /\ prevTotalValue state
       = closingValue (initialTotalValueOf f address startEpoch endEpoch v) s.2
    /\ periodDelegationValue state
       = accruedIn (delegationsAt f address startEpoch endEpoch v)
           (closingEpoch startEpoch s.2) s.1.2
    /\ periodUndelegationValue state
       = accruedIn (undelegationsAt f address startEpoch endEpoch v)
           (closingEpoch startEpoch s.2) s.1.2
    /\ sumZ (rewardOf <$> s.2)
       = closingValue (initialTotalValueOf f address startEpoch endEpoch v) s.2
         - initialTotalValueOf f address startEpoch endEpoch v
         - accruedIn (delegationsAt f address startEpoch endEpoch v) startEpoch
             (closingEpoch startEpoch s.2)
         + accruedIn (undelegationsAt f address startEpoch endEpoch v) startEpoch
             (closingEpoch startEpoch s.2)
    /\ Forall (fun r => _totalValue r
                        = valueAtEpoch f address startEpoch endEpoch v (end_epoch r)) s.2.

(** Period 0..24.  The delegator holds 100 shares of "v" at the start and
    debonds them all at epoch 3, after the pool has grown from 1000 to 1010
    per 1000 shares: a full exit. *)
Definition exitPool : list HistoryEntry :=
  [snapshot 0 1000 1000; snapshot 2 1010 1000; snapshot 24 1040 1000].

Definition exitFetched : Fetched :=
  {| addEscrowEvents := [];
     debondingEvents := [eventBody "addr" "v" 3 None (Some 100)];
     currentDelegations := [];
     fetchedHistory := fun _ => exitPool;
     historyWindow := fun _ _ => exitPool;
     startTimestamp := Some "t0"%string;
     fetchEpochTimestamp := fun _ => Some "t"%string |}.

Example toRose_ex1 : Format.toRose 50000000000 0 = "50"%string.
Proof. vm_compute. reflexivity. Qed.

Example toRose_ex2 : Format.toRose (-1234500000) 0 = "-1.2345"%string.
Proof. vm_compute. reflexivity. Qed.

Example toRose_ex3 : Format.toRose 1100000000000000000 18 = "0.0000000011"%string.
Proof. vm_compute. reflexivity. Qed.

Example toRose_ex4 : Format.toRose 0 0 = "0"%string.
Proof. vm_compute. reflexivity. Qed.

Example parseRose_ex1 : Format.parseRose 9 "-1.2345" = Some (-1234500000).
Proof. vm_compute. reflexivity. Qed.

(* ===================================================================== *)
(** * Proofs: numeric formatting layer                                    *)
(* ===================================================================== *)

Import Format.

Lemma digitsOf_digits d : forallb isDigit (digitsOf d) = true.
Proof. induction d; cbn; auto. Qed.

Lemma digitsValueFrom_cons acc c s :
  digitsValueFrom acc (c :: s) = digitsValueFrom (10 * acc + default 0 (digitVal c)) s.
Proof. reflexivity. Qed.

Lemma digitsValueFrom_app acc s t :
  digitsValueFrom acc (s ++ t) = digitsValueFrom (digitsValueFrom acc s) t.
Proof. unfold digitsValueFrom. apply fold_left_app. Qed.

Lemma digitsValueFrom_acc s : forall acc,
  digitsValueFrom acc s = acc * 10 ^ Z.of_nat (length s) + digitsValue s.
Proof.
  unfold digitsValue.
  induction s as [|c s IH]; intros acc.
  - cbn. lia.
  - cbn [digitsValueFrom fold_left length]. fold (digitsValueFrom (10 * acc + default 0 (digitVal c)) s).
    fold (digitsValueFrom (10 * 0 + default 0 (digitVal c)) s).
    rewrite IH, (IH (10 * 0 + _)).
    rewrite Nat2Z.inj_succ, Z.pow_succ_r by lia. ring.
Qed.

Lemma digitsValue_app s t :
  digitsValue (s ++ t) = digitsValue s * 10 ^ Z.of_nat (length t) + digitsValue t.
Proof.
  unfold digitsValue at 1. rewrite digitsValueFrom_app.
  fold (digitsValue s). apply digitsValueFrom_acc.
Qed.

Lemma digitsValue_zeros n : digitsValue (replicate n "0"%char) = 0.
Proof.
  induction n as [|n IH]; [reflexivity|].
  change (replicate (S n) "0"%char) with (["0"%char] ++ replicate n "0"%char).
  rewrite digitsValue_app, IH. reflexivity.
Qed.

Lemma digitsValue_pad n s : digitsValue (replicate n "0"%char ++ s) = digitsValue s.
Proof. rewrite digitsValue_app, digitsValue_zeros. lia. Qed.

Lemma of_uint_acc_value d : forall acc,
  Z.pos (Pos.of_uint_acc d acc) = digitsValueFrom (Z.pos acc) (digitsOf d).
Proof.
  induction d; intros acc; cbn [Pos.of_uint_acc]; [reflexivity | ..];
    rewrite IHd; unfold digitsOf; cbn [NilEmpty.string_of_uint list_ascii_of_string];
    rewrite digitsValueFrom_cons; f_equal;
    try match goal with
        | |- _ = _ + ?x => let v := eval vm_compute in x in change x with v
        end; lia.
Qed.

Lemma of_uint_value d : Z.of_N (Pos.of_uint d) = digitsValue (digitsOf d).
Proof.
  induction d; cbn [Pos.of_uint]; [reflexivity | exact IHd | ..];
    cbn [Z.of_N]; rewrite of_uint_acc_value; reflexivity.
Qed.

Lemma digitsOf_pos_value p : digitsValue (digitsOf (Pos.to_uint p)) = Z.pos p.
Proof. rewrite <- of_uint_value, DecimalPos.Unsigned.of_to. reflexivity. Qed.

Lemma digitsOf_pos_nonempty p : digitsOf (Pos.to_uint p) <> [].
Proof.
  pose proof (DecimalPos.Unsigned.to_uint_nonnil p) as H.
  destruct (Pos.to_uint p); [congruence | discriminate ..].
Qed.

Lemma absDigits_value z : digitsValue (absDigits z) = Z.abs z.
Proof. destruct z; cbn [absDigits Z.abs]; [reflexivity | apply digitsOf_pos_value ..]. Qed.

Lemma absDigits_digits z : forallb isDigit (absDigits z) = true.
Proof. destruct z; cbn [absDigits]; [reflexivity | apply digitsOf_digits ..]. Qed.

Lemma absDigits_nonempty z : absDigits z <> [].
Proof. destruct z; cbn [absDigits]; [discriminate | apply digitsOf_pos_nonempty ..]. Qed.

Lemma toString_chars z :
  list_ascii_of_string (toString z)
  = (if z <? 0 then ["-"%char] else []) ++ absDigits z.
Proof.
  unfold toString. destruct z as [|p|p]; cbn [Z.to_int NilZero.string_of_int Z.ltb Z.compare absDigits app].
  - reflexivity.
  - unfold NilZero.string_of_uint, digitsOf.
    pose proof (DecimalPos.Unsigned.to_uint_nonnil p).
    destruct (Pos.to_uint p); [congruence | reflexivity ..].
  - unfold NilZero.string_of_uint, digitsOf.
    pose proof (DecimalPos.Unsigned.to_uint_nonnil p).
    destruct (Pos.to_uint p); [congruence | reflexivity ..].
Qed.

Lemma digit_not_minus c s : forallb isDigit (c :: s) = true -> Ascii.eqb c "-" = false.
Proof.
  cbn. intros H. apply andb_true_iff in H as [H _].
  destruct (Ascii.eqb_spec c "-"%char) as [->|]; [discriminate|reflexivity].
Qed.

Lemma digit_not_dot c : isDigit c = true -> Ascii.eqb c "." = false.
Proof.
  intros H. destruct (Ascii.eqb_spec c "."%char) as [->|]; [discriminate|reflexivity].
Qed.

(** ** The string primitives at the arguments [toRose] uses. *)

Lemma slice_tail c (s : list ascii) :
  slice (c :: s) 1 (Z.of_nat (length (c :: s))) = s.
Proof.
  unfold slice, relIndex. cbn [length].
  replace (1 <? 0) with false by reflexivity.
  destruct (Z.ltb_spec (Z.of_nat (S (length s))) 0); [lia|].
  rewrite Z.min_id, Z.min_l by lia.
  change (Z.to_nat 1) with 1%nat. cbn [drop].
  apply firstn_all2. lia.
Qed.

Lemma slice_int (s : list ascii) t :
  0 < t <= Z.of_nat (length s) ->
  slice s 0 (- t) = take (length s - Z.to_nat t) s.
Proof.
  intros H. unfold slice, relIndex.
  replace (0 <? 0) with false by reflexivity.
  destruct (Z.ltb_spec (- t) 0); [|lia].
  rewrite Z.min_l, Z.max_l by lia. cbn [Z.to_nat drop].
  f_equal. lia.
Qed.

Lemma slice_dec (s : list ascii) t :
  0 < t <= Z.of_nat (length s) ->
  sliceFrom s (- t) = drop (length s - Z.to_nat t) s.
Proof.
  intros H. unfold sliceFrom, slice, relIndex.
  destruct (Z.ltb_spec (- t) 0); [|lia].
  destruct (Z.ltb_spec (Z.of_nat (length s)) 0); [lia|].
  rewrite Z.max_l, Z.min_id by lia.
  replace (Z.to_nat (Z.of_nat (length s) + - t)) with (length s - Z.to_nat t)%nat by lia.
  apply firstn_all2. rewrite length_drop. lia.
Qed.

Lemma dropLeadingZeros_spec s :
  exists k, s = replicate k "0"%char ++ dropLeadingZeros s
            /\ head (dropLeadingZeros s) <> Some "0"%char.
Proof.
  induction s as [|c s (k & Hk & Hh)]; [exists 0%nat; split; [reflexivity|discriminate]|].
  cbn [dropLeadingZeros]. unfold isZeroChar.
  destruct (Ascii.eqb_spec c "0"%char) as [->|Hc].
  - exists (S k). split; [cbn; f_equal; exact Hk | exact Hh].
  - exists 0%nat. split; [reflexivity|]. cbn. congruence.
Qed.

Lemma stripTrailingZeros_spec s :
  exists k, s = stripTrailingZeros s ++ replicate k "0"%char
            /\ last (stripTrailingZeros s) <> Some "0"%char.
Proof.
  unfold stripTrailingZeros.
  destruct (dropLeadingZeros_spec (reverse s)) as (k & Hk & Hh).
  exists k. split.
  - apply (f_equal reverse) in Hk. rewrite reverse_involutive in Hk.
    rewrite Hk at 1. rewrite reverse_app, reverse_replicate. reflexivity.
  - rewrite last_reverse. exact Hh.
Qed.

Lemma splitDot_digits s : forallb isDigit s = true -> splitDot s = (s, None).
Proof.
  induction s as [|c s IH]; [reflexivity|]. cbn [forallb splitDot].
  intros H. apply andb_true_iff in H as [Hc Hs].
  rewrite (digit_not_dot c Hc), (IH Hs). reflexivity.
Qed.

Lemma splitDot_dot s t :
  forallb isDigit s = true -> splitDot (s ++ "."%char :: t) = (s, Some t).
Proof.
  induction s as [|c s IH]; [reflexivity|]. cbn [forallb splitDot app].
  intros H. apply andb_true_iff in H as [Hc Hs].
  rewrite (digit_not_dot c Hc), (IH Hs). reflexivity.
Qed.

Lemma padStart_length (s : list ascii) t c :
  Z.of_nat (length (padStart s t c)) = Z.max t (Z.of_nat (length s)).
Proof. unfold padStart. rewrite length_app, length_replicate. lia. Qed.

Lemma toRose_chars amount extraDecimals :
  0 <= extraDecimals ->
  list_ascii_of_string (toRose amount extraDecimals)
  = renderedAs amount (intPartOf amount (ROSE_DECIMALS + extraDecimals))
      (fractionOf amount (ROSE_DECIMALS + extraDecimals)).
Proof.
  intros Hx. unfold toRose, renderedAs, intPartOf, fractionOf.
  set (t := ROSE_DECIMALS + extraDecimals).
  assert (Ht : 9 <= t) by (unfold t, ROSE_DECIMALS; lia).
  rewrite list_ascii_of_string_of_list_ascii, toString_chars.
  assert (Hneg : startsWithMinus ((if amount <? 0 then ["-"%char] else []) ++ absDigits amount)
                 = (amount <? 0)).
  { destruct (amount <? 0); [reflexivity|]. cbn [app].
    pose proof (absDigits_digits amount) as Hd. pose proof (absDigits_nonempty amount).
    destruct (absDigits amount) as [|c r]; [congruence|]. cbn. eapply digit_not_minus, Hd. }
  rewrite Hneg.
  assert (Habs : (if amount <? 0
                  then slice ((if amount <? 0 then ["-"%char] else []) ++ absDigits amount) 1
                         (Z.of_nat (length ((if amount <? 0 then ["-"%char] else []) ++ absDigits amount)))
                  else (if amount <? 0 then ["-"%char] else []) ++ absDigits amount)
                 = absDigits amount).
  { destruct (amount <? 0); [|reflexivity]. cbn [app]. apply slice_tail. }
  rewrite Habs. clear Hneg Habs.
  set (padded := padStart (absDigits amount) (t + 1) "0").
  assert (Hlen : t + 1 <= Z.of_nat (length padded))
    by (unfold padded; rewrite padStart_length; lia).
  rewrite slice_int, slice_dec by lia.
  set (ip := take (length padded - Z.to_nat t) padded).
  set (fr := stripTrailingZeros (drop (length padded - Z.to_nat t) padded)).
  assert (Hip : orZero ip = ip).
  { assert (length ip <> 0%nat) by (unfold ip; rewrite length_take; lia).
    destruct ip; [cbn in *; congruence | reflexivity]. }
  rewrite Hip.
  destruct (stripTrailingZeros_spec (drop (length padded - Z.to_nat t) padded)) as (k & _ & Hl).
  fold fr in Hl.
  assert (Hres : (if listEqb (orZero fr) ["0"%char] then ip else ip ++ "."%char :: orZero fr)
                 = ip ++ match fr with [] => [] | _ => "."%char :: fr end).
  { destruct fr as [|c r]; [cbn; rewrite app_nil_r; reflexivity|].
    cbn [orZero]. unfold listEqb. rewrite bool_decide_eq_false_2; [reflexivity|].
    intros E. rewrite E in Hl. cbn in Hl. congruence. }
  rewrite Hres. destruct (amount <? 0); reflexivity.
Qed.

Lemma parts_value amount t :
  0 < t ->
  exists k,
    drop (length (padStart (absDigits amount) (t + 1) "0") - Z.to_nat t)
      (padStart (absDigits amount) (t + 1) "0")
    = fractionOf amount t ++ replicate k "0"%char
    /\ Z.of_nat (length (fractionOf amount t)) + Z.of_nat k = t
    /\ digitsValue (intPartOf amount t ++ fractionOf amount t ++ replicate k "0"%char)
       = Z.abs amount.
Proof.
  intros Ht. unfold intPartOf, fractionOf.
  set (padded := padStart (absDigits amount) (t + 1) "0").
  assert (Hlen : t + 1 <= Z.of_nat (length padded))
    by (unfold padded; rewrite padStart_length; lia).
  destruct (stripTrailingZeros_spec (drop (length padded - Z.to_nat t) padded)) as (k & Hk & _).
  exists k. split; [exact Hk|]. split.
  - apply (f_equal (@length ascii)) in Hk.
    rewrite length_drop, length_app, length_replicate in Hk. lia.
  - rewrite <- Hk, take_drop. unfold padded, padStart.
    rewrite digitsValue_pad. apply absDigits_value.
Qed.


Lemma forallb_take_drop (P : ascii -> bool) n s :
  forallb P s = true -> forallb P (take n s) = true /\ forallb P (drop n s) = true.
Proof.
  intros H. rewrite <- (take_drop n s), forallb_app in H.
  apply andb_true_iff in H. exact H.
Qed.

Lemma padded_digits amount t :
  forallb isDigit (padStart (absDigits amount) t "0") = true.
Proof.
  unfold padStart. rewrite forallb_app, absDigits_digits, andb_true_r.
  induction (Z.to_nat _) as [|n IH]; [reflexivity | exact IH].
Qed.

Lemma intPartOf_digits amount t : forallb isDigit (intPartOf amount t) = true.
Proof.
  unfold intPartOf. cbv zeta.
  exact (proj1 (forallb_take_drop _ _ _ (padded_digits amount (t + 1)))).
Qed.

Lemma intPartOf_nonempty amount t : 0 <= t -> intPartOf amount t <> [].
Proof.
  intros Ht E. apply (f_equal (@length ascii)) in E. unfold intPartOf in E. cbv zeta in E.
  pose proof (padStart_length (absDigits amount) (t + 1) "0").
  rewrite length_take in E. cbn [length] in E. lia.
Qed.

Lemma fractionOf_facts amount t :
  0 < t ->
  forallb isDigit (fractionOf amount t) = true
  /\ Z.of_nat (length (fractionOf amount t)) <= t
  /\ last (fractionOf amount t) <> Some "0"%char.
Proof.
  intros Ht. destruct (parts_value amount t Ht) as (k & Hk & Hlen & _).
  split; [|split; [lia|]].
  - pose proof (proj2 (forallb_take_drop _
                         (length (padStart (absDigits amount) (t + 1) "0") - Z.to_nat t)
                         _ (padded_digits amount (t + 1)))) as H.
    rewrite Hk, forallb_app in H.
    apply andb_true_iff in H as [H _]. exact H.
  - unfold fractionOf. cbv zeta.
    destruct (stripTrailingZeros_spec
                (drop (length (padStart (absDigits amount) (t + 1) "0") - Z.to_nat t)
                   (padStart (absDigits amount) (t + 1) "0"))) as (k' & _ & Hl).
    exact Hl.
Qed.

Lemma parseUnsigned_rendered amount t :
  0 < t ->
  parseUnsigned t
    (intPartOf amount t
     ++ match fractionOf amount t with [] => [] | _ => "."%char :: fractionOf amount t end)
  = Some (Z.abs amount).
Proof.
  intros Ht.
  destruct (parts_value amount t Ht) as (k & _ & Hlen & Hval).
  destruct (fractionOf_facts amount t Ht) as (Hfd & Hfl & _).
  pose proof (intPartOf_digits amount t) as Hid.
  pose proof (intPartOf_nonempty amount t ltac:(lia)) as Hne.
  assert (Hk : Z.to_nat (t - Z.of_nat (length (fractionOf amount t))) = k) by lia.
  unfold parseUnsigned.
  destruct (fractionOf amount t) as [|c fr] eqn:Hfr.
  - rewrite app_nil_r, splitDot_digits by exact Hid. cbn [default from_option id].
    unfold listEqb. rewrite bool_decide_eq_false_2 by exact Hne.
    rewrite Hid. cbn [negb andb forallb length].
    destruct (Z.leb_spec (Z.of_nat 0) t); [|lia].
    rewrite bool_decide_eq_false_2 by discriminate. cbn [negb andb].
    cbn [length] in Hk. rewrite Hk. exact (f_equal Some Hval).
  - rewrite splitDot_dot by exact Hid. cbn [default from_option id].
    unfold listEqb. rewrite bool_decide_eq_false_2 by exact Hne.
    rewrite Hid, Hfd. cbn [negb andb].
    destruct (Z.leb_spec (Z.of_nat (length (c :: fr))) t); [|lia].
    rewrite bool_decide_eq_false_2 by discriminate. cbn [negb andb].
    rewrite Hk. exact (f_equal Some Hval).
Qed.

(** Reading back what [toRose] printed gives the amount. *)
Lemma parseRose_toRose amount extraDecimals :
  0 <= extraDecimals ->
  parseRose (ROSE_DECIMALS + extraDecimals) (toRose amount extraDecimals) = Some amount.
Proof.
  intros Hx. unfold parseRose. rewrite toRose_chars by exact Hx.
  set (t := ROSE_DECIMALS + extraDecimals).
  assert (Ht : 0 < t) by (unfold t, ROSE_DECIMALS; lia).
  pose proof (parseUnsigned_rendered amount t Ht) as Hp.
  unfold renderedAs.
  destruct (Z.ltb_spec amount 0) as [Hneg|Hpos]; cbn [app].
  - replace (Ascii.eqb "-" "-") with true by reflexivity.
    rewrite Hp. cbn. f_equal. lia.
  - pose proof (intPartOf_digits amount t) as Hid.
    pose proof (intPartOf_nonempty amount t ltac:(lia)) as Hne.
    destruct (intPartOf amount t) as [|c r] eqn:Hip; [congruence|].
    cbn [app] in *. rewrite (digit_not_minus c r Hid), Hp. f_equal. lia.
Qed.



(* ===================================================================== *)
(** * Proofs: snapshot locator                                            *)
(* ===================================================================== *)

Lemma searchLoop_step history targetEpoch low high result :
  searchLoop history targetEpoch low high result
  = if Z_le_gt_dec low high then
      match history !! Z.to_nat ((low + high) / 2) with
      | Some entry =>
          if epoch entry <=? targetEpoch
          then searchLoop history targetEpoch ((low + high) / 2 + 1) high (Some entry)
          else searchLoop history targetEpoch low ((low + high) / 2 - 1) result
      | None => result
      end
    else result.
Proof.
  rewrite searchLoop_equation_1.
  destruct (Z_le_gt_dec low high);
    [rewrite searchLoop_clause_1_equation_1 | rewrite searchLoop_clause_1_equation_2];
    reflexivity.
Qed.

Lemma mid_bounds low high : low <= high -> low <= (low + high) / 2 <= high.
Proof.
  intros H. split; [apply Z.div_le_lower_bound | apply Z.div_le_upper_bound]; lia.
Qed.

(** The loop invariant: everything left of [low] is at or before the
    target, everything right of [high] is after it, and [result] is the
    entry just left of [low]. *)
Lemma searchLoop_boundary history targetEpoch :
  ascending history ->
  forall (n : nat) low high result,
    Z.to_nat (high - low + 1) = n ->
    0 <= low -> high < Z.of_nat (length history) -> low <= high + 1 ->
    (forall i e, Z.of_nat i < low -> history !! i = Some e -> epoch e <= targetEpoch) ->
    (forall i e, high < Z.of_nat i -> history !! i = Some e -> targetEpoch < epoch e) ->
    result = entryBefore history low ->
    exists b,
      boundary history targetEpoch b
      /\ searchLoop history targetEpoch low high result = entryBefore history b.
Proof.
  intros Hsorted n. induction n as [n IH] using lt_wf_ind.
  intros low high result Hn Hlow Hhigh Hlh Hleft Hright Hres.
  rewrite searchLoop_step.
  destruct (Z_le_gt_dec low high) as [Hle|Hgt].
  - pose proof (mid_bounds low high Hle) as Hmid.
    set (mid := (low + high) / 2) in *.
    destruct (history !! Z.to_nat mid) as [entry|] eqn:Hentry.
    + destruct (Z.leb_spec (epoch entry) targetEpoch) as [Hcmp|Hcmp].
      * eapply (IH (Z.to_nat (high - (mid + 1) + 1))); try reflexivity; try lia.
        -- intros i e Hi He.
           destruct (decide (i = Z.to_nat mid)) as [->|Hne]; [congruence|].
           pose proof (Hsorted i (Z.to_nat mid) e entry He Hentry ltac:(lia)). lia.
        -- intros i e Hi He. apply (Hright i e); [lia|exact He].
        -- unfold entryBefore. destruct (Z.eqb_spec (mid + 1) 0); [lia|].
           replace (mid + 1 - 1) with mid by lia. symmetry. exact Hentry.
      * eapply (IH (Z.to_nat (mid - 1 - low + 1))); try reflexivity; try lia.
        -- exact Hleft.
        -- intros i e Hi He.
           destruct (decide (i = Z.to_nat mid)) as [->|Hne]; [congruence|].
           pose proof (Hsorted (Z.to_nat mid) i entry e Hentry He ltac:(lia)). lia.
        -- exact Hres.
    + apply lookup_ge_None in Hentry. lia.
  - exists low. split; [|exact Hres].
    split; [lia|]. split.
    + exact Hleft.
    + intros i e Hi He. apply (Hright i e); [lia|exact He].
Qed.

Lemma findHistoryEntryForEpoch_boundary history targetEpoch :
  ascending history ->
  exists b,
    boundary history targetEpoch b
    /\ findHistoryEntryForEpoch history targetEpoch = entryBefore history b.
Proof.
  intros Hsorted. unfold findHistoryEntryForEpoch.
  destruct history as [|h0 history'] eqn:Hh.
  - exists 0. split; [|reflexivity].
    split; [cbn; lia|]. split; intros i e Hi He; rewrite lookup_nil in He; discriminate.
  - rewrite <- Hh in *.
    eapply (searchLoop_boundary history targetEpoch Hsorted _ 0 _ None);
      try reflexivity; try lia.
    intros i e Hi He. apply lookup_lt_Some in He. lia.
Qed.

Lemma entryBefore_Some history b e :
  entryBefore history b = Some e ->
  0 < b -> history !! Z.to_nat (b - 1) = Some e.
Proof. unfold entryBefore. destruct (Z.eqb_spec b 0); [lia|]. auto. Qed.

(** C2.  Snapshot locator: on a history in ascending epoch order with
    unique epochs, [findHistoryEntryForEpoch] returns exactly the entry of
    the history with the greatest epoch at or before the target; it returns
    none exactly when every entry is after the target, in particular for the
    empty history and when the target precedes the first entry. *)
Theorem findHistoryEntryForEpoch_correct (history : list HistoryEntry) (targetEpoch : Z) :
  ascendingUnique history ->
  (forall e,
      findHistoryEntryForEpoch history targetEpoch = Some e
      <-> (e ∈ history /\ epoch e <= targetEpoch
           /\ forall e', e' ∈ history -> epoch e' <= targetEpoch -> epoch e' <= epoch e))
  /\ (findHistoryEntryForEpoch history targetEpoch = None
      <-> forall e', e' ∈ history -> targetEpoch < epoch e')
  /\ (history = [] -> findHistoryEntryForEpoch history targetEpoch = None)
  /\ (forall first, head history = Some first -> targetEpoch < epoch first ->
      findHistoryEntryForEpoch history targetEpoch = None).
Proof.
  intros Huniq.
  assert (Hsorted : ascending history).
  { intros i j a b Ha Hb Hij. pose proof (Huniq i j a b Ha Hb Hij). lia. }
  destruct (findHistoryEntryForEpoch_boundary history targetEpoch Hsorted)
    as (b & (Hb & Hleft & Hright) & Hfind).
  assert (HNone : findHistoryEntryForEpoch history targetEpoch = None
                  <-> forall e', e' ∈ history -> targetEpoch < epoch e').
  { rewrite Hfind. unfold entryBefore. split.
    - intros Hn e' He'. apply list_elem_of_lookup in He' as [i Hi].
      destruct (Z.eqb_spec b 0) as [->|Hne].
      + apply (Hright i e'); [lia|exact Hi].
      + apply lookup_ge_None in Hn. lia.
    - intros Hall. destruct (Z.eqb_spec b 0) as [->|Hne]; [reflexivity|].
      destruct (history !! Z.to_nat (b - 1)) as [e|] eqn:He; [|reflexivity].
      pose proof (Hleft (Z.to_nat (b - 1)) e ltac:(lia) He).
      pose proof (Hall e ltac:(apply list_elem_of_lookup; eauto)). lia. }
  split; [|split; [exact HNone|split]].
  - intros e. rewrite Hfind. split.
    + intros He. assert (0 < b) by (unfold entryBefore in He; destruct (Z.eqb_spec b 0); [discriminate|lia]).
      apply entryBefore_Some in He; [|assumption].
      split; [apply list_elem_of_lookup; eauto|].
      split; [apply (Hleft (Z.to_nat (b - 1)) e); [lia|exact He]|].
      intros e' He' Hle. apply list_elem_of_lookup in He' as [i Hi].
      destruct (Z_lt_le_dec (Z.of_nat i) b) as [Hlt|Hge].
      * destruct (decide (i = Z.to_nat (b - 1))) as [->|Hne]; [replace e' with e by congruence; lia|].
        pose proof (Hsorted i (Z.to_nat (b - 1)) e' e Hi He ltac:(lia)). lia.
      * pose proof (Hright i e' Hge Hi). lia.
    + intros (Hin & Hle & Hmax). apply list_elem_of_lookup in Hin as [i Hi].
      assert (Hib : Z.of_nat i < b).
      { destruct (Z_lt_le_dec (Z.of_nat i) b); [assumption|].
        pose proof (Hright i e ltac:(lia) Hi). lia. }
      unfold entryBefore. destruct (Z.eqb_spec b 0); [lia|].
      destruct (history !! Z.to_nat (b - 1)) as [e1|] eqn:He1;
        [|apply lookup_ge_None in He1; lia].
      destruct (decide (i = Z.to_nat (b - 1))) as [->|Hne]; [congruence|].
      pose proof (Huniq i (Z.to_nat (b - 1)) e e1 Hi He1 ltac:(lia)).
      pose proof (Hleft (Z.to_nat (b - 1)) e1 ltac:(lia) He1).
      pose proof (Hmax e1 ltac:(apply list_elem_of_lookup; eauto) ltac:(lia)). lia.
  - intros ->. reflexivity.
  - intros first Hhead Hlt. apply HNone. intros e' He'.
    apply list_elem_of_lookup in He' as [i Hi].
    destruct i as [|i].
    + destruct history; cbn in *; congruence.
    + assert (history !! 0%nat = Some first) by (destruct history; cbn in *; congruence).
      pose proof (Huniq 0%nat (S i) first e' H Hi ltac:(lia)). lia.
Qed.

Lemma findHistoryEntryForEpoch_correct_witness :
  (forall e,
      findHistoryEntryForEpoch sampleHistory 34 = Some e
      <-> (e ∈ sampleHistory /\ epoch e <= 34
           /\ forall e', e' ∈ sampleHistory -> epoch e' <= 34 -> epoch e' <= epoch e))
  /\ (findHistoryEntryForEpoch sampleHistory 34 = None
      <-> forall e', e' ∈ sampleHistory -> 34 < epoch e')
  /\ (sampleHistory = [] -> findHistoryEntryForEpoch sampleHistory 34 = None)
  /\ (forall first, head sampleHistory = Some first -> 34 < epoch first ->
      findHistoryEntryForEpoch sampleHistory 34 = None).
Proof.
  apply (findHistoryEntryForEpoch_correct sampleHistory 34).
  intros i j a b Ha Hb Hij.
  destruct i as [|[|[|i]]]; destruct j as [|[|[|j]]]; cbn in Ha, Hb;
    try discriminate; try lia; inversion Ha; inversion Hb; subst; cbn; lia.
Defined.

Example findHistoryEntryForEpoch_ex :
  epoch <$> findHistoryEntryForEpoch sampleHistory 34 = Some 20
  /\ findHistoryEntryForEpoch sampleHistory 9 = None
  /\ epoch <$> findHistoryEntryForEpoch sampleHistory 35 = Some 35.
Proof. vm_compute. auto. Qed.

(* ===================================================================== *)
(** * Proofs: epoch sampler                                               *)
(* ===================================================================== *)

Lemma sampleStep_pos totalEpochs : 1 <= sampleStep totalEpochs.
Proof. unfold sampleStep. lia. Qed.

Lemma seqZ_from_1 n : seqZ 1 n = Z.add 1 <$> seqZ 0 n.
Proof. rewrite fmap_add_seqZ. reflexivity. Qed.

Lemma sampleLoop_step totalEpochs e endEpoch acc :
  sampleLoop totalEpochs e endEpoch acc
  = if Z_le_gt_dec e endEpoch
    then sampleLoop totalEpochs (e + sampleStep totalEpochs) endEpoch (acc ++ [e])
    else acc.
Proof.
  rewrite sampleLoop_equation_1.
  destruct (Z_le_gt_dec e endEpoch);
    [rewrite sampleLoop_clause_1_equation_1 | rewrite sampleLoop_clause_1_equation_2];
    reflexivity.
Qed.

(** When exactly [n] stepped values starting at [e] fit below [endEpoch],
    the loop pushes them in order. *)
Lemma sampleLoop_closed totalEpochs endEpoch (n : nat) : forall e acc,
  endEpoch < e + Z.of_nat n * sampleStep totalEpochs ->
  ((0 < n)%nat -> e + (Z.of_nat n - 1) * sampleStep totalEpochs <= endEpoch) ->
  sampleLoop totalEpochs e endEpoch acc
  = acc ++ ((fun k => e + k * sampleStep totalEpochs) <$> seqZ 0 (Z.of_nat n)).
Proof.
  pose proof (sampleStep_pos totalEpochs) as Hstep.
  induction n as [|n IH]; intros e acc Hup Hlow; rewrite sampleLoop_step.
  - destruct (Z_le_gt_dec e endEpoch); [lia|]. cbn. rewrite app_nil_r. reflexivity.
  - destruct (Z_le_gt_dec e endEpoch) as [Hle|Hgt]; [|nia].
    rewrite IH; [| nia | intros; specialize (Hlow ltac:(lia)); nia].
    rewrite <- app_assoc. f_equal.
    rewrite (seqZ_cons 0 (Z.of_nat (S n))) by lia.
    cbn [fmap list_fmap app]. f_equal; [f_equal; lia|].
    replace (Z.pred (Z.of_nat (S n))) with (Z.of_nat n) by lia.
    change (Z.succ 0) with 1.
    rewrite seqZ_from_1, <- list_fmap_compose.
    apply list_fmap_ext. intros _ k _. cbn. ring.
Qed.

(** The stepped samples [startEpoch + k * step], [k = 1 .. count]. *)
Lemma sampleLoop_stepped startEpoch endEpoch :
  sampleLoop (endEpoch - startEpoch + 1)
    (startEpoch + sampleStep (endEpoch - startEpoch + 1)) endEpoch []
  = steppedSamples startEpoch endEpoch.
Proof.
  unfold steppedSamples.
  set (step := sampleStep (endEpoch - startEpoch + 1)).
  pose proof (sampleStep_pos (endEpoch - startEpoch + 1)) as Hstep. fold step in Hstep.
  pose proof (Z.div_mod (endEpoch - startEpoch) step ltac:(lia)) as Hdm.
  pose proof (Z.mod_pos_bound (endEpoch - startEpoch) step ltac:(lia)) as Hmod.
  set (q := (endEpoch - startEpoch) / step) in *.
  rewrite (sampleLoop_closed _ endEpoch (Z.to_nat q)).
  - cbn [app]. destruct (Z_le_gt_dec q 0) as [Hq|Hq].
    + rewrite !seqZ_nil by lia. reflexivity.
    + rewrite Z2Nat.id by lia.
      rewrite seqZ_from_1, <- list_fmap_compose.
      apply list_fmap_ext. intros _ k _. cbn. fold step. ring.
  - fold step. destruct (Z_le_gt_dec q 0); nia.
  - fold step. intros Hn. rewrite Z2Nat.id by lia. nia.
Qed.

Lemma epochsToProcessOf_month granularity startEpoch endEpoch :
  granularity <> "year"%string ->
  epochsToProcessOf granularity startEpoch endEpoch
  = if bool_decide (last (steppedSamples startEpoch endEpoch) = Some endEpoch)
    then steppedSamples startEpoch endEpoch
    else steppedSamples startEpoch endEpoch ++ [endEpoch].
Proof.
  intros Hg. unfold epochsToProcessOf.
  destruct (String.eqb_spec granularity "year"); [congruence|].
  cbv zeta. rewrite sampleLoop_stepped.
  destruct (last (steppedSamples startEpoch endEpoch)) as [l|] eqn:Hl.
  - destruct (Z.eqb_spec l endEpoch) as [->|Hne].
    + rewrite bool_decide_eq_true_2; reflexivity.
    + rewrite bool_decide_eq_false_2; [reflexivity | congruence].
  - rewrite bool_decide_eq_false_2; [reflexivity | discriminate].
Qed.

Lemma steppedSamples_lookup startEpoch endEpoch (i : nat) x :
  steppedSamples startEpoch endEpoch !! i = Some x ->
  x = startEpoch + (Z.of_nat i + 1) * sampleStep (endEpoch - startEpoch + 1)
  /\ startEpoch < x <= endEpoch.
Proof.
  unfold steppedSamples. rewrite list_lookup_fmap.
  set (step := sampleStep (endEpoch - startEpoch + 1)).
  pose proof (sampleStep_pos (endEpoch - startEpoch + 1)) as Hstep. fold step in Hstep.
  destruct (seqZ 1 ((endEpoch - startEpoch) / step) !! i) as [k|] eqn:Hk; [|discriminate].
  cbn. intros [= <-]. apply lookup_seqZ in Hk as [-> Hi].
  pose proof (Z.div_mod (endEpoch - startEpoch) step ltac:(lia)) as Hdm.
  pose proof (Z.mod_pos_bound (endEpoch - startEpoch) step ltac:(lia)) as Hmod.
  split; [ring|]. nia.
Qed.

Lemma steppedSamples_sorted startEpoch endEpoch :
  strictlyAscending (steppedSamples startEpoch endEpoch).
Proof.
  intros i j x y Hx Hy Hij.
  apply steppedSamples_lookup in Hx as [-> _], Hy as [-> _].
  pose proof (sampleStep_pos (endEpoch - startEpoch + 1)). nia.
Qed.

Lemma strictlyAscending_snoc l y :
  strictlyAscending l -> Forall (fun x => x < y) l -> strictlyAscending (l ++ [y]).
Proof.
  intros Hs Hall i j a b Ha Hb Hij.
  pose proof (lookup_lt_Some _ _ _ Hb) as Hj. rewrite length_app in Hj. cbn in Hj.
  rewrite lookup_app_l in Ha by lia.
  destruct (decide (j = length l)) as [->|Hne].
  - rewrite lookup_app_r, Nat.sub_diag in Hb by lia. cbn in Hb. injection Hb as <-.
    exact (proj1 (Forall_lookup _ _) Hall i a Ha).
  - rewrite lookup_app_l in Hb by lia. exact (Hs i j a b Ha Hb Hij).
Qed.

Lemma strictlyAscending_init l y :
  strictlyAscending (l ++ [y]) -> Forall (fun x => x < y) l.
Proof.
  intros Hs. apply Forall_lookup. intros i x Hx.
  pose proof (lookup_lt_Some _ _ _ Hx) as Hi.
  apply (Hs i (length l) x y).
  - rewrite lookup_app_l by lia. exact Hx.
  - rewrite lookup_app_r, Nat.sub_diag by lia. reflexivity.
  - exact Hi.
Qed.

(** The samples always end with [endEpoch], are strictly ascending, and
    all samples before the last lie strictly between the two ends. *)
Lemma epochsToProcessOf_shape granularity startEpoch endEpoch :
  exists init,
    epochsToProcessOf granularity startEpoch endEpoch = init ++ [endEpoch]
    /\ strictlyAscending (init ++ [endEpoch])
    /\ Forall (fun x => startEpoch < x < endEpoch) init.
Proof.
  destruct (decide (granularity = "year"%string)) as [->|Hg].
  - exists []. split; [reflexivity|]. split; [|constructor].
    intros i j a b Ha Hb Hij. apply lookup_lt_Some in Hb. cbn in Hb. lia.
  - rewrite (epochsToProcessOf_month _ _ _ Hg).
    pose proof (steppedSamples_sorted startEpoch endEpoch) as Hs.
    assert (Hb : Forall (fun x => startEpoch < x <= endEpoch) (steppedSamples startEpoch endEpoch)).
    { apply Forall_lookup. intros i x Hx. apply steppedSamples_lookup in Hx. tauto. }
    case_bool_decide as Hl.
    + apply last_Some in Hl as [init Hinit]. exists init. split; [exact Hinit|].
      rewrite <- Hinit. split; [exact Hs|].
      rewrite Hinit in Hs, Hb. apply Forall_app in Hb as [Hb _].
      apply strictlyAscending_init in Hs.
      rewrite Forall_forall in Hb, Hs. apply Forall_forall. intros x Hx.
      specialize (Hb x Hx). specialize (Hs x Hx). cbn in Hb, Hs. lia.
    + exists (steppedSamples startEpoch endEpoch). split; [reflexivity|].
      assert (Hlt : Forall (fun x => startEpoch < x < endEpoch) (steppedSamples startEpoch endEpoch)).
      { apply Forall_lookup. intros i x Hx.
        pose proof (proj1 (Forall_lookup _ _) Hb i x Hx) as Hbx. cbn in Hbx.
        assert (x <> endEpoch); [|lia]. intros ->. apply Hl.
        destruct (last (steppedSamples startEpoch endEpoch)) as [l|] eqn:Hlast.
        - apply last_Some in Hlast as [init Hinit]. f_equal.
          destruct (decide (i = length init)) as [->|Hne].
          + rewrite Hinit, lookup_app_r, Nat.sub_diag in Hx by lia. cbn in Hx. congruence.
          + assert (Hi : (i < length init)%nat).
            { apply lookup_lt_Some in Hx. rewrite Hinit, length_app in Hx. cbn in Hx. lia. }
            rewrite Hinit in Hs, Hb, Hx.
            apply strictlyAscending_init in Hs.
            rewrite lookup_app_l in Hx by lia.
            pose proof (proj1 (Forall_lookup _ _) Hs i endEpoch Hx) as Hlt. cbn in Hlt.
            apply Forall_app in Hb as [_ Hb]. inversion Hb; subst. lia.
        - apply last_None in Hlast. rewrite Hlast in Hx. discriminate. }
      split; [|exact Hlt].
      apply strictlyAscending_snoc; [exact Hs|].
      eapply Forall_impl; [exact Hlt|]. cbn. intros; lia.
Qed.

Lemma steppedSamples_elem startEpoch endEpoch x :
  x ∈ steppedSamples startEpoch endEpoch
  <-> exists k, 1 <= k
                /\ x = startEpoch + k * sampleStep (endEpoch - startEpoch + 1)
                /\ x <= endEpoch.
Proof.
  pose proof (sampleStep_pos (endEpoch - startEpoch + 1)) as Hstep.
  split.
  - intros Hx. apply list_elem_of_lookup in Hx as [i Hi].
    apply steppedSamples_lookup in Hi as [-> Hb].
    exists (Z.of_nat i + 1). split; [lia|]. split; [reflexivity|lia].
  - intros (k & Hk & -> & Hle). unfold steppedSamples.
    apply list_elem_of_fmap. exists k. split; [reflexivity|].
    apply elem_of_seqZ. split; [lia|].
    assert (k <= (endEpoch - startEpoch) / sampleStep (endEpoch - startEpoch + 1));
      [apply Z.div_le_lower_bound; lia | lia].
Qed.

(** The claim as worded fails when the period is a single epoch: the only
    sample is then [startEpoch] itself. *)
Lemma sampler_includes_start_counterexample :
  ~ (5 <= 5 -> 5 ∉ epochsToProcessOf "month" 5 5).
Proof.
  intros H. apply H; [lia|]. vm_compute. apply list_elem_of_here.
Qed.

(** C4 (amended).  Epoch sampler, for [startEpoch <= endEpoch]: "year"
    gives the single sample [endEpoch]; any other granularity ("month")
    gives the stepped samples [startEpoch + k * step], [k >= 1], that are
    [<= endEpoch], with [step = max 1 (floor ((endEpoch - startEpoch + 1) / 12))],
    followed by [endEpoch] when the stepped samples do not end there; the
    samples are strictly ascending; [startEpoch] is not a sample when
    [startEpoch < endEpoch], and when [startEpoch = endEpoch] the only sample
    is that epoch. *)
Theorem epochsToProcessOf_spec (startEpoch endEpoch : Z) :
  startEpoch <= endEpoch ->
  epochsToProcessOf "year" startEpoch endEpoch = [endEpoch]
  /\ (forall granularity, granularity <> "year"%string ->
        epochsToProcessOf granularity startEpoch endEpoch
        = if bool_decide (last (steppedSamples startEpoch endEpoch) = Some endEpoch)
          then steppedSamples startEpoch endEpoch
          else steppedSamples startEpoch endEpoch ++ [endEpoch])
  /\ (forall x, x ∈ steppedSamples startEpoch endEpoch
        <-> exists k, 1 <= k
              /\ x = startEpoch + k * Z.max 1 ((endEpoch - startEpoch + 1) / 12)
              /\ x <= endEpoch)
  /\ (forall granularity,
        strictlyAscending (epochsToProcessOf granularity startEpoch endEpoch))
  /\ (forall granularity, startEpoch < endEpoch ->
        startEpoch ∉ epochsToProcessOf granularity startEpoch endEpoch)
  /\ (forall granularity, startEpoch = endEpoch ->
        epochsToProcessOf granularity startEpoch endEpoch = [startEpoch]).
Proof.
  intros Hse.
  split; [reflexivity|].
  split; [intros g Hg; apply epochsToProcessOf_month; exact Hg|].
  split; [intros x; exact (steppedSamples_elem startEpoch endEpoch x)|].
  split; [|split].
  - intros g. destruct (epochsToProcessOf_shape g startEpoch endEpoch) as (init & -> & Hs & _).
    exact Hs.
  - intros g Hlt Hin.
    destruct (epochsToProcessOf_shape g startEpoch endEpoch) as (init & Heq & _ & Hb).
    rewrite Heq in Hin. apply elem_of_app in Hin as [Hin|Hin].
    + rewrite Forall_forall in Hb. specialize (Hb _ Hin). cbn in Hb. lia.
    + apply list_elem_of_singleton in Hin. lia.
  - intros g <-.
    destruct (epochsToProcessOf_shape g startEpoch startEpoch) as (init & -> & _ & Hb).
    destruct init as [|x init]; [reflexivity|].
    inversion Hb; subst. lia.
Qed.

Lemma epochsToProcessOf_spec_witness :
  epochsToProcessOf "year" 0 23 = [23]
  /\ (forall granularity, granularity <> "year"%string ->
        epochsToProcessOf granularity 0 23
        = if bool_decide (last (steppedSamples 0 23) = Some 23)
          then steppedSamples 0 23
          else steppedSamples 0 23 ++ [23])
  /\ (forall x, x ∈ steppedSamples 0 23
        <-> exists k, 1 <= k /\ x = 0 + k * Z.max 1 ((23 - 0 + 1) / 12) /\ x <= 23)
  /\ (forall granularity, strictlyAscending (epochsToProcessOf granularity 0 23))
  /\ (forall granularity, 0 < 23 -> 0 ∉ epochsToProcessOf granularity 0 23)
  /\ (forall granularity, 0 = 23 -> epochsToProcessOf granularity 0 23 = [0]).
Proof. apply (epochsToProcessOf_spec 0 23). lia. Defined.

Example epochsToProcessOf_ex :
  epochsToProcessOf "month" 0 23 = [2; 4; 6; 8; 10; 12; 14; 16; 18; 20; 22; 23]
  /\ epochsToProcessOf "month" 0 24 = [2; 4; 6; 8; 10; 12; 14; 16; 18; 20; 22; 24]
  /\ epochsToProcessOf "month" 28809 37689
     = [29549; 30289; 31029; 31769; 32509; 33249; 33989; 34729; 35469; 36209;
        36949; 37689].
Proof. vm_compute. auto. Qed.

(* ===================================================================== *)
(** * Proofs: paginated fetcher                                           *)
(* ===================================================================== *)

Lemma least_index (P : nat -> Prop) (dec : forall n, {P n} + {~ P n}) :
  (exists n, P n) -> exists k, P k /\ forall i, (i < k)%nat -> ~ P i.
Proof.
  assert (Hscan : forall n, (forall i, (i < n)%nat -> ~ P i)
                            \/ exists k, (k < n)%nat /\ P k /\ forall i, (i < k)%nat -> ~ P i).
  { induction n as [|n [Hnone|(k & Hk & HP & Hmin)]].
    - left. intros i Hi. lia.
    - destruct (dec n) as [Hn|Hn].
      + right. exists n. split; [lia|]. split; [exact Hn|exact Hnone].
      + left. intros i Hi. destruct (decide (i = n)) as [->|]; [exact Hn|]. apply Hnone. lia.
    - right. exists k. split; [lia|]. split; assumption. }
  intros [n Hn]. destruct (Hscan n) as [Hnone|(k & _ & HP & Hmin)].
  - exists n. split; assumption.
  - exists k. split; assumption.
Qed.

Section PaginationFacts.
Context {A : Type}.
Variable get : nat -> Z -> Response A.
Variable limit : Z.

Lemma shortPage_dec n : {shortPage get limit n} + {~ shortPage get limit n}.
Proof. unfold shortPage. apply Z_lt_dec. Qed.

Lemma stopsAt_dec n : {Utils.stopsAt get limit n} + {~ Utils.stopsAt get limit n}.
Proof.
  unfold Utils.stopsAt.
  destruct (Z_lt_dec (Z.of_nat (length (pageAt get n))) limit); [left; left; assumption|].
  destruct (Z_le_dec (orNum (total_count (responseAt get n)) 0)
              (offsetAt get n + Z.of_nat (length (pageAt get n)))); [left; right; assumption|].
  right. intros [?|?]; contradiction.
Qed.

(** The loop of the test scripts, started at request [n] with the pages
    received so far, when the first short page is [d] requests ahead. *)
Lemma paginatedLoop_run (d : nat) : forall n,
  shortPage get limit (n + d) ->
  (forall i, (n <= i < n + d)%nat -> ~ shortPage get limit i) ->
  paginatedLoop get limit (S d) n (pagesUpTo get n) (offsetAt get n)
  = Some (pagesUpTo get (S (n + d)))
  /\ forall fuel, (fuel <= d)%nat ->
       paginatedLoop get limit fuel n (pagesUpTo get n) (offsetAt get n) = None.
Proof.
  induction d as [|d IH]; intros n Hshort Hlong.
  - rewrite Nat.add_0_r in *. split.
    + cbn [paginatedLoop]. fold (responseAt get n). fold (pageAt get n).
      unfold shortPage in Hshort.
      destruct (Z.ltb_spec (Z.of_nat (length (pageAt get n))) limit); [reflexivity|lia].
    + intros fuel Hf. replace fuel with 0%nat by lia. reflexivity.
  - assert (Hn : ~ shortPage get limit n) by (apply Hlong; lia).
    replace (n + S d)%nat with (S n + d)%nat in * by lia.
    destruct (IH (S n) Hshort ltac:(intros i Hi; apply Hlong; lia)) as [Hrun Hfuel].
    assert (Hstep : forall fuel,
               paginatedLoop get limit (S fuel) n (pagesUpTo get n) (offsetAt get n)
               = paginatedLoop get limit fuel (S n) (pagesUpTo get (S n)) (offsetAt get (S n))).
    { intros fuel. cbn [paginatedLoop]. fold (responseAt get n). fold (pageAt get n).
      unfold shortPage in Hn.
      destruct (Z.ltb_spec (Z.of_nat (length (pageAt get n))) limit); [lia|reflexivity]. }
    split.
    + rewrite Hstep. exact Hrun.
    + intros [|fuel] Hf; [reflexivity|]. rewrite Hstep. apply Hfuel. lia.
Qed.

Lemma paginatedLoop_more_fuel fuel : forall n items offset r,
  paginatedLoop get limit fuel n items offset = Some r ->
  paginatedLoop get limit (S fuel) n items offset = Some r.
Proof.
  induction fuel as [|fuel IH]; intros n items offset r H; [discriminate|].
  cbn [paginatedLoop] in *.
  destruct (_ <? limit); [exact H|]. apply IH. exact H.
Qed.

(** Clip flag after the first [n] pages. *)
Lemma utils_paginatedLoop_run (d : nat) : forall n,
  Utils.stopsAt get limit (n + d) ->
  (forall i, (n <= i < n + d)%nat -> ~ Utils.stopsAt get limit i) ->
  Utils.paginatedLoop get limit (S d) n (pagesUpTo get n) (offsetAt get n)
    (clippedUpTo get n)
  = Some (pagesUpTo get (S (n + d)), clippedUpTo get (S (n + d)))
  /\ forall fuel, (fuel <= d)%nat ->
       Utils.paginatedLoop get limit fuel n (pagesUpTo get n) (offsetAt get n)
         (clippedUpTo get n) = None.
Proof.
  assert (Hclip : forall n,
             (if is_total_count_clipped (get n (offsetAt get n)) then true
              else clippedUpTo get n) = clippedUpTo get (S n)).
  { intros n. cbn [clippedUpTo]. unfold responseAt.
    destruct (is_total_count_clipped _), (clippedUpTo get n); reflexivity. }
  induction d as [|d IH]; intros n Hstop Hgo.
  - rewrite Nat.add_0_r in *. split.
    + cbn [Utils.paginatedLoop]. rewrite Hclip.
      fold (responseAt get n). fold (pageAt get n).
      unfold Utils.stopsAt in Hstop.
      destruct (Z.ltb_spec (Z.of_nat (length (pageAt get n))) limit); [reflexivity|].
      destruct (Z.leb_spec (orNum (total_count (responseAt get n)) 0)
                  (offsetAt get n + Z.of_nat (length (pageAt get n)))); [reflexivity|].
      destruct Hstop; lia.
    + intros fuel Hf. replace fuel with 0%nat by lia. reflexivity.
  - assert (Hn : ~ Utils.stopsAt get limit n) by (apply Hgo; lia).
    replace (n + S d)%nat with (S n + d)%nat in * by lia.
    destruct (IH (S n) Hstop ltac:(intros i Hi; apply Hgo; lia)) as [Hrun Hfuel].
    assert (Hstep : forall fuel,
               Utils.paginatedLoop get limit (S fuel) n (pagesUpTo get n) (offsetAt get n)
                 (clippedUpTo get n)
               = Utils.paginatedLoop get limit fuel (S n) (pagesUpTo get (S n))
                   (offsetAt get (S n)) (clippedUpTo get (S n))).
    { intros fuel. cbn [Utils.paginatedLoop]. rewrite Hclip.
      fold (responseAt get n). fold (pageAt get n).
      unfold Utils.stopsAt in Hn.
      destruct (Z.ltb_spec (Z.of_nat (length (pageAt get n))) limit); [tauto|].
      destruct (Z.leb_spec (orNum (total_count (responseAt get n)) 0)
                  (offsetAt get n + Z.of_nat (length (pageAt get n)))); [tauto|].
      reflexivity. }
    split.
    + rewrite Hstep. exact Hrun.
    + intros [|fuel] Hf; [reflexivity|]. rewrite Hstep. apply Hfuel. lia.
Qed.

(** C7 (amended).  If some page of the response sequence is shorter than
    [limit], both fetchers stop after finitely many requests and return the
    concatenation, in request order, of the pages they requested.  The
    fetcher of the test scripts stops exactly at the first short page [k]
    ([k + 1] requests, no fewer); the fetcher of [utils.js] stops at the
    first page [k'] that is short or at which
    [offset + pageItems.length >= (total_count || 0)], so [k' <= k]; it also
    returns the clip flag of the pages it saw. *)
Theorem paginatedFetch_terminates :
  (exists n, shortPage get limit n) ->
  (exists k,
      shortPage get limit k
      /\ (forall i, (i < k)%nat -> ~ shortPage get limit i)
      /\ paginatedFetch get limit (S k) = Some (pagesUpTo get (S k))
      /\ (forall fuel, (fuel <= k)%nat -> paginatedFetch get limit fuel = None)
      /\ exists k',
          (k' <= k)%nat
          /\ Utils.stopsAt get limit k'
          /\ (forall i, (i < k')%nat -> ~ Utils.stopsAt get limit i)
          /\ Utils.paginatedFetch get limit (S k')
             = Some (pagesUpTo get (S k'), clippedUpTo get (S k'))
          /\ (forall fuel, (fuel <= k')%nat -> Utils.paginatedFetch get limit fuel = None)).
Proof.
  intros Hex.
  destruct (least_index _ shortPage_dec Hex) as (k & Hk & Hmin).
  exists k. split; [exact Hk|]. split; [exact Hmin|].
  destruct (paginatedLoop_run k 0%nat Hk ltac:(intros i Hi; apply Hmin; lia)) as [Hrun Hfuel].
  split; [exact Hrun|]. split; [exact Hfuel|].
  destruct (least_index _ stopsAt_dec (ex_intro _ k (or_introl Hk))) as (k' & Hk' & Hmin').
  exists k'. split.
  { destruct (le_lt_dec k' k) as [|Hlt]; [assumption|].
    exfalso. apply (Hmin' k Hlt). left. exact Hk. }
  split; [exact Hk'|]. split; [exact Hmin'|].
  exact (utils_paginatedLoop_run k' 0%nat Hk' ltac:(intros i Hi; apply Hmin'; lia)).
Qed.
End PaginationFacts.

(** The claim as worded fails for the fetcher of [utils.js]: with page size
    2 and a total capped at 2, it stops after the first page, which is a
    full page, and misses the item of the second, short page. *)
Lemma utils_paginatedFetch_counterexample :
  (exists n, shortPage clippedSource 2 n)
  /\ ~ shortPage clippedSource 2 0
  /\ Utils.paginatedFetch clippedSource 2 1 = Some ([1; 2], true)
  /\ paginatedFetch clippedSource 2 2 = Some [1; 2; 3].
Proof.
  split; [exists 1%nat; unfold shortPage; vm_compute; reflexivity|].
  split; [unfold shortPage; vm_compute; discriminate|].
  split; reflexivity.
Qed.

Lemma paginatedFetch_terminates_witness :
  exists k,
    shortPage clippedSource 2 k
    /\ (forall i, (i < k)%nat -> ~ shortPage clippedSource 2 i)
    /\ paginatedFetch clippedSource 2 (S k) = Some (pagesUpTo clippedSource (S k))
    /\ (forall fuel, (fuel <= k)%nat -> paginatedFetch clippedSource 2 fuel = None)
    /\ exists k',
        (k' <= k)%nat
        /\ Utils.stopsAt clippedSource 2 k'
        /\ (forall i, (i < k')%nat -> ~ Utils.stopsAt clippedSource 2 i)
        /\ Utils.paginatedFetch clippedSource 2 (S k')
           = Some (pagesUpTo clippedSource (S k'), clippedUpTo clippedSource (S k'))
        /\ (forall fuel, (fuel <= k')%nat -> Utils.paginatedFetch clippedSource 2 fuel = None).
Proof.
  apply (paginatedFetch_terminates clippedSource 2).
  exists 1%nat. unfold shortPage. vm_compute. reflexivity.
Defined.

(* ===================================================================== *)
(** * Proofs: share-position reconstructor                                *)
(* ===================================================================== *)

Section ObjFacts.
Context {V : Type}.
Implicit Types (o : list (string * V)) (k : string) (v : V).

Lemma objGet_objSet_eq k v o : objGet k (objSet k v o) = Some v.
Proof.
  induction o as [|[k' v'] o IH]; cbn.
  - rewrite String.eqb_refl. reflexivity.
  - destruct (String.eqb_spec k k') as [->|Hne]; cbn.
    + rewrite String.eqb_refl. reflexivity.
    + destruct (String.eqb_spec k k'); [contradiction|exact IH].
Qed.

Lemma objGet_objSet_ne k k' v o : k <> k' -> objGet k' (objSet k v o) = objGet k' o.
Proof.
  intros Hne. induction o as [|[k1 v1] o IH]; cbn.
  - destruct (String.eqb_spec k' k); [congruence|reflexivity].
  - destruct (String.eqb_spec k k1) as [->|Hk]; cbn.
    + destruct (String.eqb_spec k' k1); [congruence|reflexivity].
    + destruct (String.eqb_spec k' k1); [reflexivity|exact IH].
Qed.

Lemma objSet_fresh k v o : k ∉ o.*1 -> objSet k v o = o ++ [(k, v)].
Proof.
  induction o as [|[k' v'] o IH]; cbn; intros Hk; [reflexivity|].
  apply not_elem_of_cons in Hk as [Hne Hk].
  destruct (String.eqb_spec k k'); [contradiction|]. rewrite IH by exact Hk. reflexivity.
Qed.

Lemma objSet_keys k v o : k ∈ o.*1 -> (objSet k v o).*1 = o.*1.
Proof.
  induction o as [|[k' v'] o IH]; cbn; intros Hk; [inversion Hk|].
  destruct (String.eqb_spec k k') as [->|Hne]; [reflexivity|]. cbn.
  apply elem_of_cons in Hk as [?|Hk]; [contradiction|]. rewrite IH by exact Hk. reflexivity.
Qed.

Lemma objSet_NoDup k v o : NoDup o.*1 -> NoDup (objSet k v o).*1.
Proof.
  intros Hnd. destruct (decide (k ∈ o.*1)) as [Hin|Hout].
  - rewrite objSet_keys by exact Hin. exact Hnd.
  - rewrite objSet_fresh by exact Hout. rewrite fmap_app. cbn.
    apply NoDup_app. split; [exact Hnd|]. split; [|apply NoDup_singleton].
    intros x Hx Hx'. apply list_elem_of_singleton in Hx'. subst. contradiction.
Qed.

(** Copying an object entry by entry gives the same object. *)
Lemma copy_entries o : forall acc,
  NoDup (acc.*1 ++ o.*1) ->
  foldl (fun a '(k, v) => objSet k v a) acc o = acc ++ o.
Proof.
  induction o as [|[k v] o IH]; intros acc Hnd; cbn [foldl].
  - rewrite app_nil_r. reflexivity.
  - cbn in Hnd. rewrite objSet_fresh.
    + rewrite IH; [rewrite <- app_assoc; reflexivity|].
      rewrite fmap_app. cbn. rewrite <- app_assoc. exact Hnd.
    + apply NoDup_app in Hnd as (_ & Hdis & _). intros Hin.
      apply (Hdis k Hin). apply list_elem_of_here.
Qed.
End ObjFacts.

Lemma currentSharesPerValidatorOf_NoDup dels :
  NoDup (currentSharesPerValidatorOf dels).*1.
Proof.
  unfold currentSharesPerValidatorOf.
  assert (H : forall acc, NoDup acc.*1 -> NoDup (foldl recordDelegation acc dels).*1).
  { induction dels as [|d dels IH]; intros acc Hacc; [exact Hacc|].
    cbn [foldl]. apply IH. unfold recordDelegation.
    destruct (del_validator d), (del_shares d); try exact Hacc.
    destruct (String.eqb _ _); [exact Hacc|]. apply objSet_NoDup. exact Hacc. }
  apply H. constructor.
Qed.

#[local] Arguments sharesAt : simpl never.

Lemma sumZ_cons a l : sumZ (a :: l) = a + sumZ l.
Proof. reflexivity. Qed.

Lemma sharesAt_reverseAdd v o ev :
  sharesAt v (reverseAdd o ev)
  = if String.eqb (normalizeAddress (escrow ev)) v
    then Z.max 0 (sharesAt v o - default 0 (new_shares ev))
    else sharesAt v o.
Proof.
  unfold reverseAdd, sharesAt. cbv zeta.
  set (k := normalizeAddress (escrow ev)).
  rewrite objGet_objSet_eq. cbn [default from_option id].
  destruct (String.eqb_spec k v) as [->|Hne].
  - destruct (Z.ltb_spec (default 0 (objGet v o) - default 0 (new_shares ev)) 0).
    + rewrite objGet_objSet_eq. cbn. lia.
    + rewrite objGet_objSet_eq. cbn. lia.
  - destruct (_ <? 0); rewrite ?objGet_objSet_ne by exact Hne; reflexivity.
Qed.

Lemma sharesAt_reverseDebond v o ev :
  sharesAt v (reverseDebond o ev)
  = if String.eqb (normalizeAddress (escrow ev)) v
    then sharesAt v o + default 0 (debonding_shares ev)
    else sharesAt v o.
Proof.
  unfold reverseDebond, sharesAt. cbv zeta.
  set (k := normalizeAddress (escrow ev)).
  destruct (String.eqb_spec k v) as [->|Hne].
  - rewrite objGet_objSet_eq. reflexivity.
  - rewrite objGet_objSet_ne by exact Hne. reflexivity.
Qed.

Lemma sharesAt_reverseAdds v adds : forall o,
  sharesAt v (foldl reverseAdd o adds)
  = foldl (fun s a => Z.max 0 (s - a)) (sharesAt v o) (sharesOn new_shares v adds).
Proof.
  unfold sharesOn.
  induction adds as [|ev adds IH]; intros o; [reflexivity|].
  cbn [foldl List.filter]. rewrite IH, sharesAt_reverseAdd.
  destruct (String.eqb _ v); reflexivity.
Qed.

Lemma sharesAt_reverseDebonds v debs : forall o,
  sharesAt v (foldl reverseDebond o debs)
  = sharesAt v o + sumZ (sharesOn debonding_shares v debs).
Proof.
  unfold sharesOn.
  induction debs as [|ev debs IH]; intros o; [unfold sumZ; cbn; lia|].
  cbn [foldl List.filter]. rewrite IH, sharesAt_reverseDebond.
  destruct (String.eqb _ v); cbn [fmap list_fmap]; rewrite ?sumZ_cons; lia.
Qed.

(** What the implementation test script computes, whatever the data. *)
Lemma sharesPerValidatorOf_value v dels adds debs :
  sharesAt v (sharesPerValidatorOf (currentSharesPerValidatorOf dels) adds debs)
  = foldl (fun s a => Z.max 0 (s - a))
      (sharesAt v (currentSharesPerValidatorOf dels)) (sharesOn new_shares v adds)
    + sumZ (sharesOn debonding_shares v debs).
Proof.
  unfold sharesPerValidatorOf. cbv zeta.
  rewrite sharesAt_reverseDebonds, sharesAt_reverseAdds.
  rewrite (copy_entries (currentSharesPerValidatorOf dels) []);
    [reflexivity | apply currentSharesPerValidatorOf_NoDup].
Qed.

Lemma sumZ_nonneg l : Forall (fun a => 0 <= a) l -> 0 <= sumZ l.
Proof. induction 1; rewrite ?sumZ_cons; [reflexivity|lia]. Qed.

Lemma clamped_reversal_exact l : forall c,
  Forall (fun a => 0 <= a) l -> sumZ l <= c ->
  foldl (fun s a => Z.max 0 (s - a)) c l = c - sumZ l.
Proof.
  induction l as [|a l IH]; intros c Hl Hc; [cbn in *; lia|].
  cbn [foldl]. rewrite sumZ_cons in *.
  inversion Hl; subst.
  pose proof (sumZ_nonneg l H2).
  rewrite IH; [lia | assumption | lia].
Qed.

Lemma clamped_reversal_max l : forall c,
  0 <= c -> Forall (fun a => 0 <= a) l ->
  foldl (fun s a => Z.max 0 (s - a)) c l = Z.max 0 (c - sumZ l).
Proof.
  induction l as [|a l IH]; intros c Hc Hl; [cbn in *; lia|].
  cbn [foldl]. rewrite sumZ_cons.
  inversion Hl; subst. pose proof (sumZ_nonneg l H2).
  rewrite IH; [lia | lia | assumption].
Qed.

Lemma sumZ_Permutation l l' : l ≡ₚ l' -> sumZ l = sumZ l'.
Proof. induction 1; rewrite ?sumZ_cons; lia. Qed.

Lemma sharesOn_Permutation field v evs evs' :
  evs ≡ₚ evs' -> sharesOn field v evs ≡ₚ sharesOn field v evs'.
Proof.
  intros H. unfold sharesOn. apply fmap_Permutation.
  induction H; cbn.
  - reflexivity.
  - destruct (String.eqb _ v); [constructor|]; assumption.
  - destruct (String.eqb _ v), (String.eqb _ v); try reflexivity. constructor.
  - etransitivity; eassumption.
Qed.

Lemma monthly_initialShares_value currentShares adds debs :
  MonthlyScript.initialShares currentShares adds debs
  = default 0 currentShares
    - sumZ ((fun ev => default 0 (new_shares ev)) <$> adds)
    + sumZ ((fun ev => default 0 (debonding_shares ev)) <$> debs).
Proof.
  unfold MonthlyScript.initialShares. cbv zeta.
  generalize (default 0 currentShares) as c.
  assert (Ha : forall l c, foldl (fun s ev => s - default 0 (new_shares ev)) c l
                           = c - sumZ ((fun ev => default 0 (new_shares ev)) <$> l)).
  { induction l as [|ev l IH]; intros c; [cbn; lia|].
    cbn [foldl fmap list_fmap]. rewrite IH, sumZ_cons. lia. }
  assert (Hd : forall l c, foldl (fun s ev => s + default 0 (debonding_shares ev)) c l
                           = c + sumZ ((fun ev => default 0 (debonding_shares ev)) <$> l)).
  { induction l as [|ev l IH]; intros c; [cbn; lia|].
    cbn [foldl fmap list_fmap]. rewrite IH, sumZ_cons. lia. }
  intros c. rewrite Hd, Ha. reflexivity.
Qed.

(** C3.  The share reconstruction of the implementation test script clamps
    the running count to zero after each Add, before the Debond shares are
    added back, instead of clamping the result.  A delegator who starts the
    period with nothing, adds 100 shares and debonds 50 of them holds 50
    now: on these data the script reconstructs 50 start shares, where the
    reversal [current - adds + debonds], clamped at zero, is
    [max 0 (50 - 100 + 50) = 0], which is also what the monthly integration
    script computes from the same data. *)
Theorem start_shares_clamp_misplaced :
  sharesAt "v"
    (sharesPerValidatorOf
       (currentSharesPerValidatorOf [ {| del_validator := Some "v"%string; del_shares := Some 50 |} ])
       [addOn "v" 100] [debondOn "v" 50]) = 50
  /\ Z.max 0 (50 - 100 + 50) = 0
  /\ MonthlyScript.initialShares (Some 50) [addOn "v" 100] [debondOn "v" 50] = 0.
Proof. vm_compute. auto. Qed.

(** Where the clamp does not take effect (non-negative [new_shares]
    summing to at most the current share count), the reconstructed count of
    the implementation test script is the current count minus the sum of the
    [new_shares] of the validator's Add events plus the sum of the
    [debonding_shares] of its Debond events, whatever the order of the two
    event lists; the monthly script computes that difference for all
    inputs. *)
Lemma start_shares_reconstruction (dels : list Delegation)
  (adds debs : list EventBody) (v : string) :
  Forall (fun a => 0 <= a) (sharesOn new_shares v adds) ->
  sumZ (sharesOn new_shares v adds) <= sharesAt v (currentSharesPerValidatorOf dels) ->
  sharesAt v (sharesPerValidatorOf (currentSharesPerValidatorOf dels) adds debs)
    = sharesAt v (currentSharesPerValidatorOf dels)
      - sumZ (sharesOn new_shares v adds)
      + sumZ (sharesOn debonding_shares v debs)
  /\ (forall adds' debs', adds' ≡ₚ adds -> debs' ≡ₚ debs ->
        sharesAt v (sharesPerValidatorOf (currentSharesPerValidatorOf dels) adds' debs')
        = sharesAt v (sharesPerValidatorOf (currentSharesPerValidatorOf dels) adds debs))
  /\ (forall currentShares,
        MonthlyScript.initialShares currentShares adds debs
        = default 0 currentShares
          - sumZ ((fun ev => default 0 (new_shares ev)) <$> adds)
          + sumZ ((fun ev => default 0 (debonding_shares ev)) <$> debs))
  /\ (forall currentShares adds' debs', adds' ≡ₚ adds -> debs' ≡ₚ debs ->
        MonthlyScript.initialShares currentShares adds' debs'
        = MonthlyScript.initialShares currentShares adds debs).
Proof.
  intros Hnn Hsum. set (current := currentSharesPerValidatorOf dels).
  assert (Hval : forall adds0 debs0, adds0 ≡ₚ adds -> debs0 ≡ₚ debs ->
             sharesAt v (sharesPerValidatorOf current adds0 debs0)
             = sharesAt v current - sumZ (sharesOn new_shares v adds)
               + sumZ (sharesOn debonding_shares v debs)).
  { intros adds0 debs0 Ha Hd. unfold current.
    rewrite sharesPerValidatorOf_value.
    pose proof (sharesOn_Permutation new_shares v _ _ Ha) as Hpa.
    pose proof (sharesOn_Permutation debonding_shares v _ _ Hd) as Hpd.
    rewrite clamped_reversal_exact.
    - rewrite (sumZ_Permutation _ _ Hpa), (sumZ_Permutation _ _ Hpd). reflexivity.
    - rewrite Hpa. exact Hnn.
    - rewrite (sumZ_Permutation _ _ Hpa). exact Hsum. }
  split; [apply Hval; reflexivity|].
  split; [intros adds' debs' Ha Hd; rewrite (Hval adds' debs' Ha Hd), (Hval adds debs); reflexivity|].
  split; [intros c; apply monthly_initialShares_value|].
  intros c adds' debs' Ha Hd. rewrite !monthly_initialShares_value.
  rewrite (sumZ_Permutation _ _ (fmap_Permutation _ _ _ Ha)).
  rewrite (sumZ_Permutation _ _ (fmap_Permutation _ _ _ Hd)). reflexivity.
Qed.

(* ===================================================================== *)
(** * Proofs: accrual engine, one validator at a time                    *)
(* ===================================================================== *)

Lemma rowsOf_app v rows rows' : rowsOf v (rows ++ rows') = rowsOf v rows ++ rowsOf v rows'.
Proof. unfold rowsOf. apply List.filter_app. Qed.

Lemma emitFor_row startEpoch startTs epoch timestamp validator0 history state row state' :
  emitFor startEpoch startTs epoch timestamp validator0 history state = Some (row, state') ->
  validator row = validator0
  /\ end_epoch row = epoch
  /\ end_timestamp row = timestamp
  /\ start_epoch row = startEpoch
  /\ start_timestamp row = orEmpty startTs
  /\ (exists historyEntry,
        findHistoryEntryForEpoch history epoch = Some historyEntry
        /\ rewards row
           = Format.toRose
               (calculateTotalValue (shares state) (Some historyEntry)
                - prevTotalValue state - periodDelegationValue state
                + periodUndelegationValue state) 0
        /\ state' = {| shares := shares state;
                       prevTotalValue := calculateTotalValue (shares state) (Some historyEntry);
                       periodDelegationValue := 0;
                       periodUndelegationValue := 0 |})
  /\ ((shares state =? 0) && (prevTotalValue state =? 0) = false).
Proof.
  unfold emitFor. destruct ((shares state =? 0) && (prevTotalValue state =? 0)); [discriminate|].
  destruct (findHistoryEntryForEpoch history epoch) as [h|]; [|discriminate].
  intros [= <- <-]. cbn. repeat split; eauto.
Qed.

Section EngineFacts.
Variable startEpoch : Z.
Variable validators : list string.
Variable validatorHistories : gmap string (list HistoryEntry).
Variable eventsByEpoch : gmap Z (list Event).
Variable epochTimestamps : gmap Z (option string).

Abbreviation applyEvent' := (applyEvent validatorHistories).
Abbreviation applyEvents' := (applyEvents validatorHistories eventsByEpoch).
Abbreviation outputRow' := (outputRow startEpoch validatorHistories epochTimestamps).
Abbreviation processEpoch' :=
  (processEpoch startEpoch validators validatorHistories eventsByEpoch epochTimestamps).
Abbreviation processEpochs' :=
  (processEpochs startEpoch validators validatorHistories eventsByEpoch epochTimestamps).
Abbreviation localEvent' := (localEvent validatorHistories).
Abbreviation localEpoch' := (localEpoch validatorHistories eventsByEpoch).
Abbreviation localEvents' := (localEvents validatorHistories eventsByEpoch).
Abbreviation localEmit' := (localEmit startEpoch validators validatorHistories epochTimestamps).
Abbreviation localStep' :=
  (localStep startEpoch validators validatorHistories eventsByEpoch epochTimestamps).

(** *** Applying events touches only the state of the event's validator. *)

Lemma applyEvent_local v e st ev :
  applyEvent' e st ev !! v = localEvent' v e (st !! v) ev.
Proof.
  unfold applyEvent, localEvent.
  destruct (String.eqb_spec (ev_validator ev) v) as [->|Hne].
  - destruct (st !! v) as [state|] eqn:Hst; [|rewrite Hst; reflexivity].
    rewrite lookup_insert_eq. reflexivity.
  - destruct (st !! ev_validator ev); [|reflexivity].
    rewrite lookup_insert_ne by exact Hne. reflexivity.
Qed.

Lemma applyEpoch_local v st e :
  applyEpoch validatorHistories eventsByEpoch st e !! v = localEpoch' v (st !! v) e.
Proof.
  unfold applyEpoch, localEpoch.
  generalize (default [] (eventsByEpoch !! e)) as evs.
  intros evs. revert st. induction evs as [|ev evs IH]; intros st; [reflexivity|].
  cbn [foldl]. rewrite IH, applyEvent_local. reflexivity.
Qed.

Lemma applyEvents_local v a b st :
  applyEvents' a b st !! v = localEvents' v a b (st !! v).
Proof.
  unfold applyEvents, localEvents.
  generalize (seqZ (a + 1) (b - a)) as es.
  intros es. revert st. induction es as [|e es IH]; intros st; [reflexivity|].
  cbn [foldl]. rewrite IH, applyEpoch_local. reflexivity.
Qed.

Lemma localEvents_compose v a b c o :
  a <= b -> b <= c ->
  localEvents' v b c (localEvents' v a b o) = localEvents' v a c o.
Proof.
  intros Hab Hbc. unfold localEvents.
  replace (c - a) with ((b - a) + (c - b)) by lia.
  rewrite seqZ_app, foldl_app by lia.
  replace (a + 1 + (b - a)) with (b + 1) by lia. reflexivity.
Qed.

(** *** The output loop, seen from one validator. *)

Lemma outputRow_other v epoch timestamp st results v' :
  v' <> v ->
  (outputRow' epoch timestamp (st, results) v').1 !! v = st !! v
  /\ rowsOf v (outputRow' epoch timestamp (st, results) v').2 = rowsOf v results.
Proof.
  intros Hne. unfold outputRow.
  destruct (st !! v') as [state|]; [|split; reflexivity].
  destruct (emitFor _ _ _ _ _ _ _) as [[row state']|] eqn:He; [|split; reflexivity].
  cbn [fst snd]. split; [apply lookup_insert_ne; exact Hne|].
  rewrite rowsOf_app. apply emitFor_row in He as (Hv & _).
  unfold rowsOf at 2. cbn [List.filter]. rewrite Hv.
  destruct (String.eqb_spec v' v); [contradiction|]. apply app_nil_r.
Qed.

Lemma outputRows_absent v epoch timestamp vs : forall st results,
  v ∉ vs ->
  (foldl (outputRow' epoch timestamp) (st, results) vs).1 !! v = st !! v
  /\ rowsOf v (foldl (outputRow' epoch timestamp) (st, results) vs).2 = rowsOf v results.
Proof.
  induction vs as [|v' vs IH]; intros st results Hv; [split; reflexivity|].
  apply not_elem_of_cons in Hv as [Hne Hv]. cbn [foldl].
  destruct (outputRow' epoch timestamp (st, results) v') as [st1 results1] eqn:Hstep.
  destruct (IH st1 results1 Hv) as [H1 H2].
  destruct (outputRow_other v epoch timestamp st results v' ltac:(congruence)) as [H3 H4].
  rewrite Hstep in H3, H4. cbn [fst snd] in H3, H4.
  rewrite H1, H2, H3, H4. split; reflexivity.
Qed.

Lemma outputRow_self v epoch timestamp st results :
  v ∈ validators ->
  (outputRow' epoch timestamp (st, results) v).1 !! v
    = (localEmit' v epoch timestamp (st !! v)).1
  /\ rowsOf v (outputRow' epoch timestamp (st, results) v).2
     = rowsOf v results ++ (localEmit' v epoch timestamp (st !! v)).2.
Proof.
  intros Hin. unfold outputRow, localEmit.
  rewrite bool_decide_eq_true_2 by exact Hin.
  destruct (st !! v) as [state|] eqn:Hst; [|cbn; rewrite Hst, app_nil_r; split; reflexivity].
  destruct (emitFor _ _ _ _ _ _ _) as [[row state']|] eqn:He.
  - cbn [fst snd]. split; [apply lookup_insert_eq|].
    rewrite rowsOf_app. apply emitFor_row in He as (Hv & _).
    unfold rowsOf at 2. cbn [List.filter]. rewrite Hv, String.eqb_refl. reflexivity.
  - cbn [fst snd]. rewrite Hst, app_nil_r. split; reflexivity.
Qed.

Lemma outputRows_local v epoch timestamp vs : forall st results,
  NoDup vs -> (forall x, x ∈ vs -> x ∈ validators) ->
  (foldl (outputRow' epoch timestamp) (st, results) vs).1 !! v
    = (if bool_decide (v ∈ vs) then (localEmit' v epoch timestamp (st !! v)).1 else st !! v)
  /\ rowsOf v (foldl (outputRow' epoch timestamp) (st, results) vs).2
     = rowsOf v results
       ++ (if bool_decide (v ∈ vs) then (localEmit' v epoch timestamp (st !! v)).2 else []).
Proof.
  induction vs as [|v' vs IH]; intros st results Hnd Hsub.
  - cbn. rewrite app_nil_r. split; reflexivity.
  - apply NoDup_cons in Hnd as [Hv' Hnd]. cbn [foldl].
    destruct (outputRow' epoch timestamp (st, results) v') as [st1 results1] eqn:Hstep.
    destruct (decide (v' = v)) as [->|Hne].
    + rewrite bool_decide_eq_true_2 by apply list_elem_of_here.
      destruct (outputRows_absent v epoch timestamp vs st1 results1 Hv') as [H1 H2].
      destruct (outputRow_self v epoch timestamp st results
                  ltac:(apply Hsub, list_elem_of_here)) as [H3 H4].
      rewrite Hstep in H3, H4. cbn [fst snd] in H3, H4.
      rewrite H1, H2, H3, H4. split; reflexivity.
    + destruct (IH st1 results1 Hnd ltac:(intros x Hx; apply Hsub; right; exact Hx)) as [H1 H2].
      destruct (outputRow_other v epoch timestamp st results v' Hne) as [H3 H4].
      rewrite Hstep in H3, H4. cbn [fst snd] in H3, H4.
      rewrite H1, H2, H3, H4.
      destruct (decide (v ∈ vs)) as [Hin|Hout].
      * rewrite !bool_decide_eq_true_2; [split; reflexivity | right; exact Hin | exact Hin].
      * rewrite !bool_decide_eq_false_2; [split; reflexivity | | exact Hout].
        intros Hc. apply elem_of_cons in Hc as [?|?]; congruence.
Qed.

(** *** A sample step and a whole run, seen from one validator. *)

Lemma processEpoch_local v s epoch :
  NoDup validators ->
  localView v (processEpoch' s epoch) = localStep' v (localView v s) epoch.
Proof.
  intros Hnd. unfold processEpoch, localStep, localView.
  destruct (truthy (tsLookup epochTimestamps epoch)); cbn [negb]; [|reflexivity].
  destruct (outputRows_local v epoch (default ""%string (tsLookup epochTimestamps epoch))
              validators (applyEvents' (lastProcessedEpoch s) epoch (validatorState s))
              (results s) Hnd ltac:(auto)) as [H1 H2].
  rewrite applyEvents_local in H1, H2.
  destruct (foldl _ _ validators) as [st2 results2].
  cbn [fst snd validatorState lastProcessedEpoch results] in *.
  rewrite H1, H2. clear H1 H2.
  destruct (decide (v ∈ validators)) as [Hin|Hout].
  - rewrite !bool_decide_eq_true_2 by exact Hin.
    destruct (localEmit' v epoch _ _) as [o2 new]. reflexivity.
  - rewrite !bool_decide_eq_false_2 by exact Hout.
    unfold localEmit. rewrite bool_decide_eq_false_2 by exact Hout.
    rewrite app_nil_r. reflexivity.
Qed.

Lemma processEpochs_local v epochs : forall s,
  NoDup validators ->
  localView v (processEpochs' s epochs) = foldl (localStep' v) (localView v s) epochs.
Proof.
  unfold processEpochs.
  induction epochs as [|epoch epochs IH]; intros s Hnd; [reflexivity|].
  cbn [foldl]. rewrite IH by exact Hnd. rewrite processEpoch_local by exact Hnd. reflexivity.
Qed.
End EngineFacts.

(* ===================================================================== *)
(** * Proofs: event application and the emit step                        *)
(* ===================================================================== *)

Lemma applyToState_shares_nonneg state ev historyEntry :
  0 <= shares state ->
  (ev_type ev = EvAdd -> 0 <= ev_shares ev) ->
  0 <= shares (applyToState state ev historyEntry).
Proof.
  intros Hs Hadd. unfold applyToState.
  destruct (ev_type ev); cbn [shares].
  - specialize (Hadd eq_refl). lia.
  - destruct (Z.ltb_spec (shares state - ev_shares ev) 0); lia.
Qed.

Lemma applyToState_debond_clamps state ev historyEntry :
  ev_type ev = EvDebond -> shares state < ev_shares ev ->
  shares (applyToState state ev historyEntry) = 0
  /\ prevTotalValue (applyToState state ev historyEntry) = prevTotalValue state
  /\ periodDelegationValue (applyToState state ev historyEntry) = periodDelegationValue state
  /\ periodUndelegationValue (applyToState state ev historyEntry)
     = periodUndelegationValue state + calculateTotalValue (ev_shares ev) historyEntry.
Proof.
  intros Ht Hlt. unfold applyToState. rewrite Ht. cbn.
  destruct (Z.ltb_spec (shares state - ev_shares ev) 0); [auto|lia].
Qed.

Lemma emitFor_shares startEpoch startTs epoch timestamp v history state row state' :
  emitFor startEpoch startTs epoch timestamp v history state = Some (row, state') ->
  shares state' = shares state.
Proof.
  intros H. apply emitFor_row in H as (_ & _ & _ & _ & _ & (h & _ & _ & ->) & _). reflexivity.
Qed.

Section ZeroFloor.
Variable startEpoch : Z.
Variable validators : list string.
Variable validatorHistories : gmap string (list HistoryEntry).
Variable eventsByEpoch : gmap Z (list Event).
Variable epochTimestamps : gmap Z (option string).
Hypothesis Hadds : addsNonneg eventsByEpoch.

Lemma applyEvents_nonneg a b st :
  nonnegShares st ->
  nonnegShares (applyEvents validatorHistories eventsByEpoch a b st).
Proof.
  unfold applyEvents. generalize (seqZ (a + 1) (b - a)) as es.
  intros es. revert st. induction es as [|e es IH]; intros st Hst; [exact Hst|].
  cbn [foldl]. apply IH. unfold applyEpoch.
  destruct (eventsByEpoch !! e) as [evs|] eqn:Hevs; [|exact Hst].
  cbn [default from_option id].
  assert (Hin : forall ev, ev ∈ evs -> ev_type ev = EvAdd -> 0 <= ev_shares ev)
    by (intros ev Hev; exact (Hadds e evs ev Hevs Hev)).
  clear Hevs. revert st Hst. induction evs as [|ev evs IHevs]; intros st Hst; [exact Hst|].
  cbn [foldl]. apply IHevs; [intros ev' Hev'; apply Hin; right; exact Hev'|].
  unfold applyEvent. destruct (st !! ev_validator ev) as [state|] eqn:Hstate; [|exact Hst].
  intros v s Hv. destruct (decide (ev_validator ev = v)) as [<-|Hne].
  - rewrite lookup_insert_eq in Hv. injection Hv as <-.
    apply applyToState_shares_nonneg; [exact (Hst _ _ Hstate)|].
    apply Hin. apply list_elem_of_here.
  - rewrite lookup_insert_ne in Hv by exact Hne. exact (Hst _ _ Hv).
Qed.

Lemma outputRows_nonneg epoch timestamp vs : forall st results,
  nonnegShares st ->
  nonnegShares
    (foldl (outputRow startEpoch validatorHistories epochTimestamps epoch timestamp)
       (st, results) vs).1.
Proof.
  induction vs as [|v vs IH]; intros st results Hst; [exact Hst|].
  cbn [foldl]. unfold outputRow at 2.
  destruct (st !! v) as [state|] eqn:Hstate; [|apply IH; exact Hst].
  destruct (emitFor _ _ _ _ _ _ _) as [[row state']|] eqn:He; [|apply IH; exact Hst].
  apply IH. intros v' s Hv'. destruct (decide (v = v')) as [<-|Hne].
  - rewrite lookup_insert_eq in Hv'. injection Hv' as <-.
    rewrite (emitFor_shares _ _ _ _ _ _ _ _ _ He). exact (Hst _ _ Hstate).
  - rewrite lookup_insert_ne in Hv' by exact Hne. exact (Hst _ _ Hv').
Qed.

Lemma processEpochs_nonneg epochs : forall s,
  nonnegShares (validatorState s) ->
  nonnegShares
    (validatorState
       (processEpochs startEpoch validators validatorHistories eventsByEpoch
          epochTimestamps s epochs)).
Proof.
  unfold processEpochs.
  induction epochs as [|epoch epochs IH]; intros s Hs; [exact Hs|].
  cbn [foldl]. apply IH. unfold processEpoch.
  destruct (truthy _); cbn [negb]; [|exact Hs].
  pose proof (outputRows_nonneg epoch (default ""%string (tsLookup epochTimestamps epoch))
                validators _ (results s)
                (applyEvents_nonneg (lastProcessedEpoch s) epoch _ Hs)) as H.
  destruct (foldl _ _ validators) as [st2 results2]. exact H.
Qed.
End ZeroFloor.

(** The claim as worded fails when an Add event carries a negative
    [new_shares] (amounts are signed): the share count follows it below
    zero, since only the Debond branch clamps. *)
Lemma negative_add_counterexample :
  0 <= shares (holding 0)
  /\ shares (applyToState (holding 0) (addEventOf (addOn "v" (-5))) None) = -5.
Proof. vm_compute. split; [discriminate|reflexivity]. Qed.

(** C5 (amended).  Zero-floor invariant: if every Add event carries a
    non-negative share amount and every tracked share count is non-negative,
    then after the engine has processed any list of sample epochs (any
    sequence of Add and Debond applications, and the emit steps) every
    tracked share count is still non-negative; a Debond whose shares exceed
    the current count sets the count to zero. *)
Theorem shares_zero_floor (startEpoch : Z) (validators : list string)
  (validatorHistories : gmap string (list HistoryEntry))
  (eventsByEpoch : gmap Z (list Event)) (epochTimestamps : gmap Z (option string))
  (s : Engine) (epochsToProcess : list Z) :
  addsNonneg eventsByEpoch ->
  nonnegShares (validatorState s) ->
  nonnegShares
    (validatorState
       (processEpochs startEpoch validators validatorHistories eventsByEpoch
          epochTimestamps s epochsToProcess))
  /\ (forall a b,
        nonnegShares (applyEvents validatorHistories eventsByEpoch a b (validatorState s)))
  /\ (forall state ev historyEntry,
        ev_type ev = EvDebond -> shares state < ev_shares ev ->
        shares (applyToState state ev historyEntry) = 0).
Proof.
  intros Hadds Hs. split; [|split].
  - apply processEpochs_nonneg; assumption.
  - intros a b. apply applyEvents_nonneg; assumption.
  - intros state ev h Ht Hlt. apply (applyToState_debond_clamps state ev h Ht Hlt).
Qed.

Lemma exampleEvents_addsNonneg : addsNonneg exampleEvents.
Proof.
  intros e evs ev H Hin Ht. unfold exampleEvents in H.
  apply lookup_singleton_Some in H as [_ <-].
  apply elem_of_cons in Hin as [->|Hin]; [vm_compute; discriminate|].
  apply list_elem_of_singleton in Hin as ->. discriminate Ht.
Qed.

Lemma shares_zero_floor_witness :
  nonnegShares
    (validatorState
       (processEpochs 0 ["v"%string] exampleHistories exampleEvents exampleTimestamps
          exampleEngine [20]))
  /\ (forall a b,
        nonnegShares (applyEvents exampleHistories exampleEvents a b
                        (validatorState exampleEngine)))
  /\ (forall state ev historyEntry,
        ev_type ev = EvDebond -> shares state < ev_shares ev ->
        shares (applyToState state ev historyEntry) = 0).
Proof.
  apply (shares_zero_floor 0 ["v"%string] exampleHistories exampleEvents exampleTimestamps
           exampleEngine [20]).
  - intros e evs ev H Hin Ht. unfold exampleEvents in H.
    apply lookup_singleton_Some in H as [_ <-].
    apply elem_of_cons in Hin as [->|Hin]; [vm_compute; discriminate|].
    apply list_elem_of_singleton in Hin as ->. discriminate Ht.
  - intros v s H. cbn [validatorState exampleEngine] in H.
    apply lookup_singleton_Some in H as [_ <-]. vm_compute. discriminate.
Defined.

Example exampleEngine_run :
  (fun r => (end_epoch r, row_shares r, delegation_value r, rewards r))
    <$> results (processEpochs 0 ["v"%string] exampleHistories exampleEvents
                   exampleTimestamps exampleEngine [20])
  = [(20, "0", "0", "0.00000037")]%string.
Proof. vm_compute. reflexivity. Qed.

(** C9.  A Debond whose shares exceed the tracked share count of its
    validator sets the count to zero, yet [periodUndelegationValue] grows by
    the snapshot-priced value of the full [shares] of the event; the other
    two fields are untouched.  At a snapshot whose balance equals its share
    total (price one) the accumulator therefore grows by the full amount,
    which is more than the number of shares actually removed. *)
Theorem overdrawn_debond_accumulates_full_value
  (validatorHistories : gmap string (list HistoryEntry)) (e : Z)
  (validatorState : gmap string ValidatorState) (ev : Event)
  (state : ValidatorState) :
  validatorState !! ev_validator ev = Some state ->
  ev_type ev = EvDebond ->
  shares state < ev_shares ev ->
  exists state',
    applyEvent validatorHistories e validatorState ev !! ev_validator ev = Some state'
    /\ shares state' = 0
    /\ prevTotalValue state' = prevTotalValue state
    /\ periodDelegationValue state' = periodDelegationValue state
    /\ periodUndelegationValue state'
       = periodUndelegationValue state
         + calculateTotalValue (ev_shares ev)
             (findHistoryEntryForEpoch
                (default [] (validatorHistories !! ev_validator ev)) e)
    /\ (forall h b,
          findHistoryEntryForEpoch (default [] (validatorHistories !! ev_validator ev)) e
            = Some h ->
          active_balance h = Some b -> active_shares h = Some b -> b <> 0 ->
          periodUndelegationValue state' - periodUndelegationValue state = ev_shares ev
          /\ shares state - shares state' < ev_shares ev).
Proof.
  intros Hst Ht Hlt. unfold applyEvent. rewrite Hst, lookup_insert_eq.
  eexists. split; [reflexivity|].
  destruct (applyToState_debond_clamps state ev
              (findHistoryEntryForEpoch (default [] (validatorHistories !! ev_validator ev)) e)
              Ht Hlt) as (H1 & H2 & H3 & H4).
  repeat (split; [assumption|]).
  intros h b Hh Hb Hs Hb0. rewrite H4, H1, Hh.
  unfold calculateTotalValue. rewrite Hb, Hs. cbn [default from_option id].
  destruct (Z.eqb_spec b 0); [contradiction|].
  rewrite Z.quot_mul by exact Hb0. split; lia.
Qed.

Lemma overdrawn_debond_accumulates_full_value_witness :
  exists state',
    applyEvent exampleHistories 12 {[ "v"%string := holding 100 ]}
      (debondEventOf (debondOn "v" 500)) !! "v"%string = Some state'
    /\ shares state' = 0
    /\ prevTotalValue state' = 100
    /\ periodDelegationValue state' = 0
    /\ periodUndelegationValue state'
       = 0 + calculateTotalValue 500
               (findHistoryEntryForEpoch (default [] (exampleHistories !! "v"%string)) 12)
    /\ (forall h b,
          findHistoryEntryForEpoch (default [] (exampleHistories !! "v"%string)) 12 = Some h ->
          active_balance h = Some b -> active_shares h = Some b -> b <> 0 ->
          periodUndelegationValue state' - 0 = 500
          /\ 100 - shares state' < 500).
Proof.
  apply (overdrawn_debond_accumulates_full_value exampleHistories 12
           {[ "v"%string := holding 100 ]} (debondEventOf (debondOn "v" 500)) (holding 100)).
  - reflexivity.
  - reflexivity.
  - vm_compute. reflexivity.
Defined.

(** C8.  When no snapshot is located for a validator at a sample epoch,
    the output step for that validator changes nothing: no row is pushed
    and the state objects are the same.  The output loop goes on with the
    other validators (it gives the same result as the loop without that
    validator), and after the whole sample the validator has no new row,
    its state is the one left by the event application ([prevTotalValue] not
    advanced, both accumulators not reset), and the engine has moved on to
    that sample. *)
Theorem missing_snapshot_skips_sample (startEpoch : Z) (validators : list string)
  (validatorHistories : gmap string (list HistoryEntry))
  (eventsByEpoch : gmap Z (list Event)) (epochTimestamps : gmap Z (option string))
  (v : string) (epoch : Z) :
  findHistoryEntryForEpoch (default [] (validatorHistories !! v)) epoch = None ->
  (forall timestamp acc,
      outputRow startEpoch validatorHistories epochTimestamps epoch timestamp acc v = acc)
  /\ (forall timestamp acc vs,
        foldl (outputRow startEpoch validatorHistories epochTimestamps epoch timestamp) acc vs
        = foldl (outputRow startEpoch validatorHistories epochTimestamps epoch timestamp) acc
            (List.filter (fun x => negb (String.eqb x v)) vs))
  /\ (forall s,
        truthy (tsLookup epochTimestamps epoch) = true ->
        let s' := processEpoch startEpoch validators validatorHistories eventsByEpoch
                    epochTimestamps s epoch in
        rowsOf v (results s') = rowsOf v (results s)
        /\ validatorState s' !! v
           = applyEvents validatorHistories eventsByEpoch (lastProcessedEpoch s) epoch
               (validatorState s) !! v
        /\ lastProcessedEpoch s' = epoch).
Proof.
  intros Hnone.
  assert (Hskip : forall timestamp acc,
             outputRow startEpoch validatorHistories epochTimestamps epoch timestamp acc v = acc).
  { intros timestamp [st results]. unfold outputRow.
    destruct (st !! v) as [state|]; [|reflexivity].
    unfold emitFor. rewrite Hnone.
    destruct ((shares state =? 0) && (prevTotalValue state =? 0)); reflexivity. }
  assert (Hloop : forall timestamp vs acc,
             foldl (outputRow startEpoch validatorHistories epochTimestamps epoch timestamp) acc vs
             = foldl (outputRow startEpoch validatorHistories epochTimestamps epoch timestamp) acc
                 (List.filter (fun x => negb (String.eqb x v)) vs)).
  { intros timestamp vs. induction vs as [|x vs IH]; intros acc; [reflexivity|].
    cbn [foldl List.filter]. destruct (String.eqb_spec x v) as [->|Hne]; cbn [negb].
    - rewrite Hskip. apply IH.
    - cbn [foldl]. apply IH. }
  split; [exact Hskip|]. split; [intros; apply Hloop|].
  intros s Hts s'. subst s'. unfold processEpoch. rewrite Hts. cbn [negb].
  rewrite Hloop.
  destruct (outputRows_absent startEpoch validatorHistories epochTimestamps v epoch
              (default ""%string (tsLookup epochTimestamps epoch))
              (List.filter (fun x => negb (String.eqb x v)) validators)
              (applyEvents validatorHistories eventsByEpoch (lastProcessedEpoch s) epoch
                 (validatorState s))
              (results s)) as [H1 H2].
  { intros Hin. apply list_elem_of_In, List.filter_In in Hin as [_ Hin].
    rewrite String.eqb_refl in Hin. discriminate. }
  destruct (foldl _ _ _) as [st2 results2]. cbn [fst snd] in H1, H2.
  cbn [results validatorState lastProcessedEpoch]. auto.
Qed.

Lemma missing_snapshot_skips_sample_witness :
  (forall timestamp acc,
      outputRow 0 exampleHistories exampleTimestamps 5 timestamp acc "v" = acc)
  /\ (forall timestamp acc vs,
        foldl (outputRow 0 exampleHistories exampleTimestamps 5 timestamp) acc vs
        = foldl (outputRow 0 exampleHistories exampleTimestamps 5 timestamp) acc
            (List.filter (fun x => negb (String.eqb x "v")) vs))
  /\ (forall s,
        truthy (tsLookup exampleTimestamps 5) = true ->
        let s' := processEpoch 0 ["v"%string] exampleHistories exampleEvents
                    exampleTimestamps s 5 in
        rowsOf "v" (results s') = rowsOf "v" (results s)
        /\ validatorState s' !! "v"%string
           = applyEvents exampleHistories exampleEvents (lastProcessedEpoch s) 5
               (validatorState s) !! "v"%string
        /\ lastProcessedEpoch s' = 5).
Proof.
  apply (missing_snapshot_skips_sample 0 ["v"%string] exampleHistories exampleEvents
           exampleTimestamps "v" 5).
  vm_compute. reflexivity.
Defined.

(* ===================================================================== *)
(** * Proofs: whole runs                                                  *)
(* ===================================================================== *)

Lemma setAdd_NoDup x s : NoDup s -> NoDup (setAdd x s).
Proof.
  intros Hnd. unfold setAdd. case_bool_decide as Hin; [exact Hnd|].
  apply NoDup_app. split; [exact Hnd|]. split; [|apply NoDup_singleton].
  intros y Hy Hy'. apply list_elem_of_singleton in Hy'. subst. contradiction.
Qed.

Lemma validatorsOf_NoDup sharesPerValidator currentSharesPerValidator :
  NoDup (validatorsOf sharesPerValidator currentSharesPerValidator).
Proof.
  unfold validatorsOf. cbv zeta.
  apply NoDup_ListNoDup, List.NoDup_filter, NoDup_ListNoDup.
  assert (H2 : forall l s, NoDup s -> NoDup (foldl (fun s validator => setAdd validator s) s l)).
  { induction l as [|x l IH]; intros s Hs; [exact Hs|]. cbn [foldl]. apply IH, setAdd_NoDup, Hs. }
  apply H2.
  assert (H1 : forall (l : list (string * Z)) s, NoDup s ->
             NoDup (foldl (fun s '(validator, shares) =>
                             if 0 <? shares then setAdd validator s else s) s l)).
  { induction l as [|[x n] l IH]; intros s Hs; [exact Hs|]. cbn [foldl]. apply IH.
    destruct (0 <? n); [apply setAdd_NoDup|]; exact Hs. }
  apply H1. constructor.
Qed.

Lemma validators_NoDup f address startEpoch endEpoch :
  NoDup (validators f address startEpoch endEpoch).
Proof. apply validatorsOf_NoDup. Qed.

(** [epochTimestamps[k]] after the timestamp loop. *)
Lemma epochTimestamps_lookup f startEpoch epochs k :
  tsLookup (epochTimestamps f startEpoch epochs) k
  = if bool_decide (k ∈ epochs) then fetchEpochTimestamp f k
    else if bool_decide (k = startEpoch) then startTimestamp f else None.
Proof.
  unfold epochTimestamps, tsLookup.
  assert (H : forall l (m : gmap Z (option string)),
             foldl (fun m epoch => <[epoch := fetchEpochTimestamp f epoch]> m) m l !! k
             = if bool_decide (k ∈ l) then Some (fetchEpochTimestamp f k) else m !! k).
  { induction l as [|x l IH]; intros m; [reflexivity|].
    cbn [foldl]. rewrite IH. destruct (decide (k ∈ l)) as [Hin|Hout].
    - rewrite !bool_decide_eq_true_2; [reflexivity | right; exact Hin | exact Hin].
    - rewrite (bool_decide_eq_false_2 _ Hout).
      destruct (decide (k = x)) as [->|Hne].
      + rewrite lookup_insert_eq, bool_decide_eq_true_2 by apply list_elem_of_here. reflexivity.
      + rewrite lookup_insert_ne by congruence.
        rewrite bool_decide_eq_false_2; [reflexivity|].
        intros Hc. apply elem_of_cons in Hc as [?|?]; congruence. }
  rewrite H. case_bool_decide; [reflexivity|].
  case_bool_decide as Hk.
  - subst k. rewrite lookup_insert_eq. reflexivity.
  - rewrite lookup_insert_ne by congruence. rewrite lookup_empty. reflexivity.
Qed.

Lemma sample_in_epochsToProcessOf granularity startEpoch endEpoch :
  endEpoch ∈ epochsToProcessOf granularity startEpoch endEpoch.
Proof.
  destruct (epochsToProcessOf_shape granularity startEpoch endEpoch) as (init & -> & _).
  apply elem_of_app. right. apply list_elem_of_here.
Qed.

Lemma startEpoch_sample_iff granularity startEpoch endEpoch :
  startEpoch ∈ epochsToProcessOf granularity startEpoch endEpoch <-> startEpoch = endEpoch.
Proof.
  destruct (epochsToProcessOf_shape granularity startEpoch endEpoch) as (init & -> & _ & Hb).
  rewrite elem_of_app, list_elem_of_singleton. split; [|auto].
  intros [Hin|?]; [|assumption].
  rewrite Forall_forall in Hb. specialize (Hb _ Hin). cbn in Hb. lia.
Qed.

Lemma start_timestamp_lookup f granularity startEpoch endEpoch :
  tsLookup (epochTimestamps f startEpoch (epochsToProcessOf granularity startEpoch endEpoch))
    startEpoch
  = startTimestampOf f startEpoch endEpoch.
Proof.
  rewrite epochTimestamps_lookup. unfold startTimestampOf.
  destruct (Z.eqb_spec startEpoch endEpoch) as [Heq|Hne].
  - rewrite bool_decide_eq_true_2; [reflexivity|]. apply startEpoch_sample_iff, Heq.
  - rewrite bool_decide_eq_false_2 by (rewrite startEpoch_sample_iff; exact Hne).
    rewrite bool_decide_eq_true_2 by reflexivity. reflexivity.
Qed.

(** *** Strictly ascending lists. *)

Lemma strictlyAscending_cons x l :
  strictlyAscending (x :: l) <-> Forall (fun y => x < y) l /\ strictlyAscending l.
Proof.
  split.
  - intros H. split.
    + apply Forall_lookup. intros i y Hy. apply (H 0%nat (S i) x y); [reflexivity|exact Hy|lia].
    + intros i j a b Ha Hb Hij. apply (H (S i) (S j) a b); [exact Ha|exact Hb|lia].
  - intros [Hall Hs] i j a b Ha Hb Hij.
    destruct j as [|j]; [lia|]. cbn in Hb.
    destruct i as [|i]; cbn in Ha.
    + injection Ha as <-. exact (proj1 (Forall_lookup _ _) Hall j b Hb).
    + apply (Hs i j a b Ha Hb). lia.
Qed.

Lemma strictlyAscending_sublist l l' :
  l' `sublist_of` l -> strictlyAscending l -> strictlyAscending l'.
Proof.
  induction 1 as [|x l1 l2 Hsub IH|x l1 l2 Hsub IH]; intros Hs.
  - exact Hs.
  - apply strictlyAscending_cons in Hs as [Hall Hs].
    apply strictlyAscending_cons. split; [|apply IH, Hs].
    apply Forall_forall. intros y Hy. rewrite Forall_forall in Hall.
    apply Hall. eapply elem_of_sublist; eassumption.
  - apply strictlyAscending_cons in Hs as [_ Hs]. apply IH, Hs.
Qed.

Lemma strictlyAscending_app_inv l1 l2 :
  strictlyAscending (l1 ++ l2) -> strictlyAscending l1.
Proof. apply strictlyAscending_sublist, sublist_inserts_r. reflexivity. Qed.

Lemma sumZ_app l l' : sumZ (l ++ l') = sumZ l + sumZ l'.
Proof. induction l as [|a l IH]; [reflexivity|]. cbn [app]. rewrite !sumZ_cons, IH. lia. Qed.

Lemma rewardOf_toRose r earned :
  rewards r = Format.toRose earned 0 -> rewardOf r = earned.
Proof.
  intros H. unfold rewardOf. rewrite H.
  change Format.ROSE_DECIMALS with (Format.ROSE_DECIMALS + 0).
  rewrite parseRose_toRose by lia. reflexivity.
Qed.

Lemma rowsOf_all v rows : Forall (fun r => validator r = v) rows -> rowsOf v rows = rows.
Proof.
  induction 1 as [|r rows Hr _ IH]; [reflexivity|].
  unfold rowsOf. cbn [List.filter]. rewrite Hr, String.eqb_refl. f_equal. exact IH.
Qed.

Lemma rowsOf_elem v rows r : r ∈ rowsOf v rows <-> r ∈ rows /\ validator r = v.
Proof.
  unfold rowsOf. rewrite !list_elem_of_In, List.filter_In.
  destruct (String.eqb_spec (validator r) v); intuition congruence.
Qed.

Section LocalRun.
Variable startEpoch : Z.
Variable validators : list string.
Variable validatorHistories : gmap string (list HistoryEntry).
Variable eventsByEpoch : gmap Z (list Event).
Variable epochTimestamps : gmap Z (option string).
Variable v : string.

Abbreviation localEvents1 := (localEvents validatorHistories eventsByEpoch v).
Abbreviation localEmit1 :=
  (localEmit startEpoch validators validatorHistories epochTimestamps v).
Abbreviation localStep1 :=
  (localStep startEpoch validators validatorHistories eventsByEpoch epochTimestamps v).
Abbreviation historyOfV := (default [] (validatorHistories !! v)).

Lemma localEvents_refl a o : localEvents1 a a o = o.
Proof. unfold localEvents. rewrite seqZ_nil by lia. reflexivity. Qed.

(** Events act alike on two states with the same share count, and shift
    both ledgers by the same amount. *)
Lemma localEvent_tracks k e ev o ref :
  tracks k o ref ->
  tracks k (localEvent validatorHistories v e o ev) (localEvent validatorHistories v e ref ev).
Proof.
  unfold localEvent. destruct (String.eqb _ v); [|auto].
  destruct o as [a|], ref as [b|]; cbn; auto.
  intros [Hs Hk]. unfold applyToState, ledger in *.
  destruct (ev_type ev); cbn; rewrite Hs; split; try reflexivity; lia.
Qed.

Lemma localEvents_tracks k a b o ref :
  tracks k o ref -> tracks k (localEvents1 a b o) (localEvents1 a b ref).
Proof.
  unfold localEvents. generalize (seqZ (a + 1) (b - a)) as es.
  intros es. revert o ref. induction es as [|e es IH]; intros o ref H; [exact H|].
  cbn [foldl]. apply IH. unfold localEpoch.
  generalize (default [] (eventsByEpoch !! e)) as evs.
  intros evs. revert o ref H. induction evs as [|ev evs IHevs]; intros o ref H; [exact H|].
  cbn [foldl]. apply IHevs, localEvent_tracks, H.
Qed.

(** Events do not touch [prevTotalValue]. *)
Lemma localEvents_prev a b o :
  prevTotalValue <$> localEvents1 a b o = prevTotalValue <$> o.
Proof.
  unfold localEvents. generalize (seqZ (a + 1) (b - a)) as es.
  intros es. revert o. induction es as [|e es IH]; intros o; [reflexivity|].
  cbn [foldl]. rewrite IH. unfold localEpoch.
  generalize (default [] (eventsByEpoch !! e)) as evs.
  intros evs. revert o. induction evs as [|ev evs IHevs]; intros o; [reflexivity|].
  cbn [foldl]. rewrite IHevs. unfold localEvent.
  destruct (String.eqb _ v); [|reflexivity].
  destruct o as [s|]; [|reflexivity]. cbn. unfold applyToState.
  destruct (ev_type ev); reflexivity.
Qed.

(** Without events on [v] the event loops leave its state alone. *)
Lemma localEvents_noEvents a b o :
  noEventsOn eventsByEpoch v -> localEvents1 a b o = o.
Proof.
  intros Hno. unfold localEvents. generalize (seqZ (a + 1) (b - a)) as es.
  intros es. revert o. induction es as [|e es IH]; intros o; [reflexivity|].
  cbn [foldl]. rewrite <- (IH o) at 2. f_equal. unfold localEpoch.
  destruct (eventsByEpoch !! e) as [evs|] eqn:Hevs; [|reflexivity].
  cbn [default from_option id].
  assert (Hin : forall ev, ev ∈ evs -> ev_validator ev <> v)
    by (intros ev Hev; exact (Hno e evs ev Hevs Hev)).
  clear Hevs. revert o. induction evs as [|ev evs IHevs]; intros o; [reflexivity|].
  cbn [foldl]. rewrite IHevs by (intros ev' Hev'; apply Hin; right; exact Hev').
  unfold localEvent. destruct (String.eqb_spec (ev_validator ev) v) as [Heq|]; [|reflexivity].
  exfalso. apply (Hin ev); [apply list_elem_of_here | exact Heq].
Qed.

(** What the emit step does for [v]: nothing, or one row whose reward is
    the value at the sample plus the ledger of the state. *)
Lemma localEmit_cases epoch timestamp o :
  localEmit1 epoch timestamp o = (o, [])
  \/ exists state historyEntry row,
       o = Some state
       /\ v ∈ validators
       /\ findHistoryEntryForEpoch historyOfV epoch = Some historyEntry
       /\ localEmit1 epoch timestamp o
          = (Some {| shares := shares state;
                     prevTotalValue := calculateTotalValue (shares state) (Some historyEntry);
                     periodDelegationValue := 0;
                     periodUndelegationValue := 0 |}, [row])
       /\ validator row = v /\ end_epoch row = epoch
       /\ rewardOf row
          = calculateTotalValue (shares state) (Some historyEntry) + ledger state.
Proof.
  unfold localEmit. case_bool_decide as Hin; [|left; reflexivity].
  destruct o as [state|]; [|left; reflexivity].
  destruct (emitFor _ _ _ _ _ _ _) as [[row state']|] eqn:He; [|left; reflexivity].
  right. apply emitFor_row in He as (Hv & He & _ & _ & _ & (h & Hh & Hr & ->) & _).
  exists state, h, row. repeat (split; [first [reflexivity | assumption]|]).
  rewrite (rewardOf_toRose _ _ Hr). unfold ledger. lia.
Qed.

Lemma localEmit_tracks k epoch timestamp o ref :
  tracks k o ref ->
  tracks (k + sumZ (rewardOf <$> (localEmit1 epoch timestamp o).2))
    (localEmit1 epoch timestamp o).1 ref.
Proof.
  intros H.
  destruct (localEmit_cases epoch timestamp o)
    as [->|(state & h & row & -> & _ & _ & -> & _ & _ & Hr)].
  - cbn. replace (k + 0) with k by lia. exact H.
  - cbn [fst snd fmap list_fmap]. rewrite sumZ_cons, Hr.
    destruct ref as [b|]; [|exact H]. cbn in *. destruct H as [Hs Hk].
    split; [exact Hs|]. unfold ledger in *. cbn. unfold sumZ. cbn. lia.
Qed.

(** The rows of [v] produced by a run over the samples [l]: at most one
    per sample, in the order of the samples. *)
Lemma localRun_rows l : forall o last rows,
  exists o' last' new,
    foldl localStep1 (o, last, rows) l = (o', last', rows ++ new)
    /\ (end_epoch <$> new) `sublist_of` l
    /\ Forall (fun r => validator r = v) new.
Proof.
  induction l as [|x l IH]; intros o last rows.
  - exists o, last, []. rewrite app_nil_r. repeat split; constructor.
  - cbn [foldl]. unfold localStep at 2.
    destruct (truthy (tsLookup epochTimestamps x)); cbn [negb].
    + destruct (localEmit_cases x (default ""%string (tsLookup epochTimestamps x))
                  (localEvents1 last x o))
        as [->|(state & h & row & _ & _ & _ & -> & Hv & He & _)].
      * destruct (IH (localEvents1 last x o) x (rows ++ [])) as (o' & last' & new & Hf & Hs & Hall).
        exists o', last', new. rewrite Hf, app_nil_r.
        split; [reflexivity|]. split; [constructor; exact Hs|exact Hall].
      * match goal with |- context [foldl localStep1 (?o2, x, rows ++ [row]) l] =>
          destruct (IH o2 x (rows ++ [row])) as (o' & last' & new & Hf & Hs & Hall) end.
        exists o', last', (row :: new). rewrite Hf, <- app_assoc.
        split; [reflexivity|]. split; [|constructor; assumption].
        cbn [fmap list_fmap]. rewrite He. constructor. exact Hs.
    + destruct (IH o last rows) as (o' & last' & new & Hf & Hs & Hall).
      exists o', last', new. split; [exact Hf|]. split; [constructor; exact Hs|exact Hall].
Qed.

(** The run over ascending samples keeps track of the run that applies the
    same events and emits nothing. *)
Lemma localRun_tracks l : forall o last rows ref,
  strictlyAscending (last :: l) ->
  tracks (sumZ (rewardOf <$> rows)) o ref ->
  exists o' last' rows',
    foldl localStep1 (o, last, rows) l = (o', last', rows')
    /\ tracks (sumZ (rewardOf <$> rows')) o' (localEvents1 last last' ref)
    /\ (last' = last \/ last' ∈ l).
Proof.
  induction l as [|x l IH]; intros o last rows ref Hasc Htr.
  - exists o, last, rows. rewrite localEvents_refl. auto.
  - apply strictlyAscending_cons in Hasc as [Hlast Hasc].
    pose proof Hasc as Hasc'. apply strictlyAscending_cons in Hasc' as [Hx Hl].
    inversion Hlast as [|? ? Hlx Hlast']; subst.
    cbn [foldl]. unfold localStep at 2.
    destruct (truthy (tsLookup epochTimestamps x)); cbn [negb].
    + pose proof (localEmit_tracks _ x (default ""%string (tsLookup epochTimestamps x)) _ _
                    (localEvents_tracks _ last x _ _ Htr)) as Htr1.
      destruct (localEmit1 x _ (localEvents1 last x o)) as [o2 new] eqn:Hemit.
      cbn [fst snd] in Htr1. rewrite <- sumZ_app, <- fmap_app in Htr1.
      destruct (IH o2 x (rows ++ new) (localEvents1 last x ref) Hasc Htr1)
        as (o' & last' & rows' & Hf & Htr' & Hlast2).
      exists o', last', rows'. split; [exact Hf|]. split.
      * rewrite localEvents_compose in Htr'; [exact Htr' | lia |].
        destruct Hlast2 as [->|Hin]; [lia|].
        rewrite Forall_forall in Hx. specialize (Hx _ Hin). cbn in Hx. lia.
      * right. destruct Hlast2 as [->|Hin]; [apply list_elem_of_here | right; exact Hin].
    + destruct (IH o last rows ref) as (o' & last' & rows' & Hf & Htr' & Hlast2).
      { apply strictlyAscending_cons. split; assumption. }
      { exact Htr. }
      exists o', last', rows'. split; [exact Hf|]. split; [exact Htr'|].
      destruct Hlast2 as [->|Hin]; [left; reflexivity | right; right; exact Hin].
Qed.

Lemma tracks_refl o : tracks 0 o o.
Proof. destruct o; cbn; auto. Qed.

(** The step at the closing sample, when it emits a row for [v]: the
    rewards of [v] then sum to the value at that sample plus the ledger of
    the state that has seen the same events and emitted nothing. *)
Lemma localStep_closing o last rows ref epoch :
  tracks (sumZ (rewardOf <$> rows)) (localEvents1 last epoch o) ref ->
  Forall (fun r => end_epoch r <> epoch) rows ->
  (exists r, r ∈ (localStep1 (o, last, rows) epoch).2 /\ end_epoch r = epoch) ->
  exists b h,
    ref = Some b
    /\ findHistoryEntryForEpoch historyOfV epoch = Some h
    /\ v ∈ validators
    /\ sumZ (rewardOf <$> (localStep1 (o, last, rows) epoch).2)
       = calculateTotalValue (shares b) (Some h) + ledger b.
Proof.
  intros Htr Hold (r & Hr & He). unfold localStep in *.
  destruct (truthy (tsLookup epochTimestamps epoch)); cbn [negb] in *.
  - destruct (localEmit_cases epoch (default ""%string (tsLookup epochTimestamps epoch))
                (localEvents1 last epoch o))
      as [Hnone|(state & h & row & Ho & Hin & Hh & Hemit & _ & _ & Hrew)].
    + rewrite Hnone in Hr. cbn [snd] in Hr. rewrite app_nil_r in Hr.
      rewrite Forall_forall in Hold. exfalso. exact (Hold r Hr He).
    + rewrite Hemit. cbn [snd]. rewrite Ho in Htr.
      destruct ref as [b|]; [|contradiction]. cbn in Htr. destruct Htr as [Hs Hk].
      exists b, h. repeat (split; [first [reflexivity | assumption]|]).
      rewrite fmap_app, sumZ_app. cbn [fmap list_fmap]. rewrite sumZ_cons, Hrew.
      unfold calculateTotalValue. rewrite Hs. unfold sumZ at 2. cbn [foldr]. lia.
  - cbn [snd] in Hr. rewrite Forall_forall in Hold. exfalso. exact (Hold r Hr He).
Qed.
End LocalRun.

(** *** From the engine to the rows of [fetchStakingRewardsTest]. *)

Lemma initialValidatorState_lookup f address startEpoch endEpoch v :
  initialValidatorState f address startEpoch endEpoch !! v
  = if bool_decide (v ∈ validators f address startEpoch endEpoch)
    then Some (initialState f address startEpoch endEpoch v) else None.
Proof.
  unfold initialValidatorState.
  generalize (validators f address startEpoch endEpoch) as vs.
  assert (H : forall vs (m : gmap string ValidatorState),
             foldl (fun m validator =>
                      <[validator := initialState f address startEpoch endEpoch validator]> m)
               m vs !! v
             = if bool_decide (v ∈ vs)
               then Some (initialState f address startEpoch endEpoch v) else m !! v).
  { induction vs as [|x vs IH]; intros m; [reflexivity|].
    cbn [foldl]. rewrite IH. destruct (decide (v ∈ vs)) as [Hin|Hout].
    - rewrite !bool_decide_eq_true_2; [reflexivity | right; exact Hin | exact Hin].
    - rewrite (bool_decide_eq_false_2 _ Hout).
      destruct (decide (v = x)) as [->|Hne].
      + rewrite lookup_insert_eq, bool_decide_eq_true_2 by apply list_elem_of_here. reflexivity.
      + rewrite lookup_insert_ne by congruence.
        rewrite bool_decide_eq_false_2; [reflexivity|].
        intros Hc. apply elem_of_cons in Hc as [?|?]; congruence. }
  intros vs. rewrite H. rewrite lookup_empty. reflexivity.
Qed.

(** The rows of a validator are those of its local run. *)
Lemma fetchStakingRewardsTest_local f address startEpoch endEpoch granularity v :
  rowsOf v (fetchStakingRewardsTest f address startEpoch endEpoch granularity)
  = (foldl
       (localStep startEpoch (validators f address startEpoch endEpoch)
          (validatorHistories f address startEpoch endEpoch)
          (eventsByEpoch f address startEpoch endEpoch)
          (epochTimestamps f startEpoch
             (epochsToProcessOf granularity startEpoch endEpoch)) v)
       (initialValidatorState f address startEpoch endEpoch !! v, startEpoch, [])
       (epochsToProcessOf granularity startEpoch endEpoch)).2.
Proof.
  unfold fetchStakingRewardsTest. cbv zeta.
  pose proof (processEpochs_local startEpoch (validators f address startEpoch endEpoch)
                (validatorHistories f address startEpoch endEpoch)
                (eventsByEpoch f address startEpoch endEpoch)
                (epochTimestamps f startEpoch (epochsToProcessOf granularity startEpoch endEpoch))
                v (epochsToProcessOf granularity startEpoch endEpoch)
                {| validatorState := initialValidatorState f address startEpoch endEpoch;
                   lastProcessedEpoch := startEpoch;
                   results := [] |}
                (validators_NoDup f address startEpoch endEpoch)) as H.
  unfold localView at 2 in H.
  cbn [validatorState lastProcessedEpoch results rowsOf List.filter] in H.
  rewrite <- H. reflexivity.
Qed.

Lemma emittedAt_rowsOf v epoch rows :
  emittedAt v epoch rows <-> exists r, r ∈ rowsOf v rows /\ end_epoch r = epoch.
Proof.
  unfold emittedAt. split.
  - intros (r & Hr & Hv & He). exists r. split; [apply rowsOf_elem; auto | exact He].
  - intros (r & Hr & He). apply rowsOf_elem in Hr as [Hr Hv]. exists r. auto.
Qed.

(** Every row carries the period's start epoch and start timestamp. *)
Lemma processEpochs_start_fields startEpoch validators validatorHistories eventsByEpoch
  epochTimestamps epochs : forall s,
  Forall (fun r => start_epoch r = startEpoch
                   /\ start_timestamp r = orEmpty (tsLookup epochTimestamps startEpoch))
    (results s) ->
  Forall (fun r => start_epoch r = startEpoch
                   /\ start_timestamp r = orEmpty (tsLookup epochTimestamps startEpoch))
    (results (processEpochs startEpoch validators validatorHistories eventsByEpoch
                epochTimestamps s epochs)).
Proof.
  unfold processEpochs.
  induction epochs as [|epoch epochs IH]; intros s Hs; [exact Hs|].
  cbn [foldl]. apply IH. unfold processEpoch.
  destruct (truthy _); cbn [negb]; [|exact Hs].
  generalize (applyEvents validatorHistories eventsByEpoch (lastProcessedEpoch s) epoch
                (validatorState s)) as st.
  generalize (results s) Hs. generalize validators as vs.
  induction vs as [|x vs IHvs]; intros rows Hrows st.
  - exact Hrows.
  - cbn [foldl]. unfold outputRow at 2.
    destruct (st !! x) as [state|]; [|apply IHvs; exact Hrows].
    destruct (emitFor _ _ _ _ _ _ _) as [[row state']|] eqn:He; [|apply IHvs; exact Hrows].
    apply IHvs. apply Forall_app. split; [exact Hrows|]. constructor; [|constructor].
    apply emitFor_row in He as (_ & _ & _ & H1 & H2 & _). auto.
Qed.

(** C10.  Every row of a run carries [start_epoch = startEpoch] and the
    timestamp of [startEpoch] as [start_timestamp] (the value stored at
    [epochTimestamps[startEpoch]], or the empty string when it is missing):
    not the epoch or timestamp of the preceding sample.  For a fixed
    validator the rows appear in strictly ascending [end_epoch] order; and
    when [startEpoch < endEpoch] the common [start_epoch] is smaller than the
    [end_epoch] of every row. *)
Theorem rows_start_fields_and_order (f : Fetched) (address : string)
  (startEpoch endEpoch : Z) (granularity v : string) :
  Forall (fun r => start_epoch r = startEpoch
                   /\ start_timestamp r
                      = orEmpty (startTimestampOf f startEpoch endEpoch))
    (fetchStakingRewardsTest f address startEpoch endEpoch granularity)
  /\ strictlyAscending
       (end_epoch <$> rowsOf v (fetchStakingRewardsTest f address startEpoch endEpoch granularity))
  /\ (startEpoch < endEpoch ->
      forall r r',
        r ∈ fetchStakingRewardsTest f address startEpoch endEpoch granularity ->
        r' ∈ fetchStakingRewardsTest f address startEpoch endEpoch granularity ->
        start_epoch r' < end_epoch r).
Proof.
  assert (Hfields :
            Forall (fun r => start_epoch r = startEpoch
                             /\ start_timestamp r
                                = orEmpty (startTimestampOf f startEpoch endEpoch))
              (fetchStakingRewardsTest f address startEpoch endEpoch granularity)).
  { unfold fetchStakingRewardsTest. cbv zeta.
    rewrite <- (start_timestamp_lookup f granularity startEpoch endEpoch).
    apply processEpochs_start_fields. constructor. }
  assert (Hsub : forall w,
             (end_epoch <$> rowsOf w (fetchStakingRewardsTest f address startEpoch endEpoch granularity))
             `sublist_of` epochsToProcessOf granularity startEpoch endEpoch).
  { intros w. rewrite fetchStakingRewardsTest_local.
    destruct (localRun_rows startEpoch (validators f address startEpoch endEpoch)
                (validatorHistories f address startEpoch endEpoch)
                (eventsByEpoch f address startEpoch endEpoch)
                (epochTimestamps f startEpoch (epochsToProcessOf granularity startEpoch endEpoch))
                w (epochsToProcessOf granularity startEpoch endEpoch)
                (initialValidatorState f address startEpoch endEpoch !! w) startEpoch [])
      as (o' & last' & new & -> & Hs & _).
    exact Hs. }
  destruct (epochsToProcessOf_shape granularity startEpoch endEpoch) as (init & Hshape & Hasc & Hb).
  split; [exact Hfields|]. split.
  - eapply strictlyAscending_sublist; [apply Hsub|]. rewrite Hshape. exact Hasc.
  - intros Hlt r r' Hr Hr'.
    rewrite Forall_forall in Hfields. rewrite (proj1 (Hfields r' Hr')).
    assert (Hin : end_epoch r ∈ epochsToProcessOf granularity startEpoch endEpoch).
    { eapply elem_of_sublist; [|apply (Hsub (validator r))].
      apply list_elem_of_fmap. exists r. split; [reflexivity|].
      apply rowsOf_elem. auto. }
    rewrite Hshape in Hin. apply elem_of_app in Hin as [Hin|Hin].
    + rewrite Forall_forall in Hb. specialize (Hb _ Hin). cbn in Hb. lia.
    + apply list_elem_of_singleton in Hin. lia.
Qed.

(** When a run emits a row for [v] at [endEpoch], the rewards of [v] sum
    to the value at [endEpoch] plus the ledger of the reference state,
    whatever the samples in between. *)
Lemma closing_row_sum f address startEpoch endEpoch granularity v :
  emittedAt v endEpoch (fetchStakingRewardsTest f address startEpoch endEpoch granularity) ->
  exists final h,
    referenceState f address startEpoch endEpoch v = Some final
    /\ findHistoryEntryForEpoch
         (default [] (validatorHistories f address startEpoch endEpoch !! v)) endEpoch = Some h
    /\ v ∈ validators f address startEpoch endEpoch
    /\ sumRewards v (fetchStakingRewardsTest f address startEpoch endEpoch granularity)
       = calculateTotalValue (shares final) (Some h) + ledger final.
Proof.
  intros Hem. apply emittedAt_rowsOf in Hem. unfold sumRewards.
  rewrite fetchStakingRewardsTest_local in *.
  set (ts := epochTimestamps f startEpoch (epochsToProcessOf granularity startEpoch endEpoch)) in *.
  set (vs := validators f address startEpoch endEpoch) in *.
  set (hist := validatorHistories f address startEpoch endEpoch) in *.
  set (evs := eventsByEpoch f address startEpoch endEpoch) in *.
  set (o0 := initialValidatorState f address startEpoch endEpoch !! v) in *.
  destruct (epochsToProcessOf_shape granularity startEpoch endEpoch) as (init & Hshape & Hasc & Hb).
  rewrite Hshape, foldl_app in *. cbn [foldl] in *.
  destruct (localRun_tracks startEpoch vs hist evs ts v init o0 startEpoch [] o0)
    as (o' & last' & rows' & Hf & Htr & Hlast).
  { apply strictlyAscending_cons. split.
    - eapply Forall_impl; [exact Hb|]. cbn. intros; lia.
    - eapply strictlyAscending_app_inv, Hasc. }
  { apply tracks_refl. }
  destruct (localRun_rows startEpoch vs hist evs ts v init o0 startEpoch [])
    as (o'' & last'' & new & Hf' & Hsub & _).
  rewrite Hf in Hf'. injection Hf' as _ _ Hrows. cbn [app] in Hrows.
  rewrite Hf in *.
  assert (Hold : Forall (fun r => end_epoch r <> endEpoch) rows').
  { apply Forall_forall. intros r Hr He.
    assert (Hin : end_epoch r ∈ init).
    { eapply elem_of_sublist; [|exact Hsub]. apply list_elem_of_fmap.
      exists r. split; [reflexivity|]. rewrite <- Hrows. exact Hr. }
    rewrite Forall_forall in Hb. specialize (Hb _ Hin). cbn in Hb. lia. }
  assert (Href : localEvents hist evs v last' endEpoch (localEvents hist evs v startEpoch last' o0)
                 = referenceState f address startEpoch endEpoch v).
  { unfold referenceState. fold hist evs o0.
    destruct Hlast as [->|Hin].
    - rewrite localEvents_refl. reflexivity.
    - rewrite Forall_forall in Hb. specialize (Hb _ Hin). cbn in Hb.
      apply localEvents_compose; lia. }
  destruct (localStep_closing startEpoch vs hist evs ts v o' last' rows'
              (referenceState f address startEpoch endEpoch v) endEpoch)
    as (b & h & Hb1 & Hh & Hv & Hsum).
  { rewrite <- Href. apply localEvents_tracks. exact Htr. }
  { exact Hold. }
  { exact Hem. }
  exists b, h. auto.
Qed.

Lemma emittedAt_check v epoch rows :
  existsb (fun r => String.eqb (validator r) v && (end_epoch r =? epoch)) rows = true ->
  emittedAt v epoch rows.
Proof.
  intros H. apply existsb_exists in H as (r & Hr & Hc).
  apply andb_true_iff in Hc as [Hv He].
  exists r. split; [apply list_elem_of_In; exact Hr|].
  split; [apply String.eqb_eq; exact Hv | apply Z.eqb_eq; exact He].
Qed.

Example exampleFetched_rewards :
  (fun r => (end_epoch r, row_shares r, rewards r))
    <$> fetchStakingRewardsTest exampleFetched "addr" 0 24 "month"
  = [(2, "440", "0"); (4, "440", "0"); (6, "540", "0.000000005");
     (8, "540", "0"); (10, "540", "0"); (12, "540", "0.000000005");
     (14, "540", "0"); (16, "500", "0"); (18, "500", "0.000000005");
     (20, "500", "0"); (22, "500", "0"); (24, "500", "0.000000005")]%string
  /\ (fun r => (end_epoch r, row_shares r, rewards r))
       <$> fetchStakingRewardsTest exampleFetched "addr" 0 24 "year"
     = [(24, "500", "0.00000002")]%string.
Proof. vm_compute. auto. Qed.

(** The claim as worded fails in two ways.  With events in the period the
    yearly reward is not [finalTotalValue - initialTotalValue]: for
    [exampleFetched] it is 20 while the value goes from 440 to 520.  And the
    monthly rewards need not sum to the yearly reward: for [zeroedFetched]
    the month run emits -100 at epoch 2 and then skips the validator for
    good (no shares, no previous value), leaving the undelegation value
    unreported, while the year run emits 0. *)
Lemma reconciliation_counterexample :
  sumRewards "v" (fetchStakingRewardsTest exampleFetched "addr" 0 24 "year")
    <> finalTotalValueOf exampleFetched "addr" 0 24 "v"
       - initialTotalValueOf exampleFetched "addr" 0 24 "v"
  /\ sumRewards "v" (fetchStakingRewardsTest zeroedFetched "addr" 0 24 "month")
     <> sumRewards "v" (fetchStakingRewardsTest zeroedFetched "addr" 0 24 "year").
Proof. vm_compute. split; discriminate. Qed.

Example reconciliation_counterexample_values :
  sumRewards "v" (fetchStakingRewardsTest exampleFetched "addr" 0 24 "year") = 20
  /\ finalTotalValueOf exampleFetched "addr" 0 24 "v" = 520
  /\ initialTotalValueOf exampleFetched "addr" 0 24 "v" = 440
  /\ sumRewards "v" (fetchStakingRewardsTest zeroedFetched "addr" 0 24 "month") = -100
  /\ sumRewards "v" (fetchStakingRewardsTest zeroedFetched "addr" 0 24 "year") = 0.
Proof. vm_compute. auto 10. Qed.

(* ===================================================================== *)
(** * Further properties: sorting and locating snapshots                 *)
(* ===================================================================== *)

Lemma ascending_cons x l :
  ascending (x :: l) <-> Forall (fun y => epoch x <= epoch y) l /\ ascending l.
Proof.
  split.
  - intros H. split.
    + apply Forall_lookup. intros i y Hy. apply (H 0%nat (S i) x y); [reflexivity|exact Hy|lia].
    + intros i j a b Ha Hb Hij. apply (H (S i) (S j) a b); [exact Ha|exact Hb|lia].
  - intros [Hall Hs] i j a b Ha Hb Hij.
    destruct j as [|j]; [lia|]. cbn in Hb.
    destruct i as [|i]; cbn in Ha.
    + injection Ha as <-. exact (proj1 (Forall_lookup _ _) Hall j b Hb).
    + apply (Hs i j a b Ha Hb). lia.
Qed.

Lemma insertByEpoch_Permutation x l : insertByEpoch x l ≡ₚ x :: l.
Proof.
  induction l as [|y l IH]; cbn; [reflexivity|].
  destruct (epoch x <=? epoch y); [reflexivity|].
  rewrite IH. apply Permutation_swap.
Qed.

Lemma sortByEpoch_Permutation l : sortByEpoch l ≡ₚ l.
Proof.
  induction l as [|x l IH]; [reflexivity|].
  cbn [sortByEpoch foldr]. fold (sortByEpoch l).
  rewrite insertByEpoch_Permutation, IH. reflexivity.
Qed.

Lemma insertByEpoch_ascending x l : ascending l -> ascending (insertByEpoch x l).
Proof.
  induction l as [|y l IH]; intros Hl; cbn.
  - apply ascending_cons. split; [constructor|exact Hl].
  - destruct (Z.leb_spec (epoch x) (epoch y)) as [Hxy|Hxy].
    + apply ascending_cons. split; [|exact Hl].
      apply ascending_cons in Hl as [Hall _]. constructor; [exact Hxy|].
      eapply Forall_impl; [exact Hall|]. cbn. intros; lia.
    + apply ascending_cons in Hl as [Hall Hl]. apply ascending_cons. split; [|apply IH, Hl].
      rewrite insertByEpoch_Permutation. constructor; [lia|exact Hall].
Qed.

Lemma sortByEpoch_ascending l : ascending (sortByEpoch l).
Proof.
  induction l as [|x l IH].
  - intros i j a b Ha. change (sortByEpoch []) with (@nil HistoryEntry) in Ha.
    rewrite lookup_nil in Ha. discriminate.
  - cbn [sortByEpoch foldr]. apply insertByEpoch_ascending, IH.
Qed.

Lemma entriesAt_insertByEpoch e x l :
  ascending l ->
  entriesAt e (insertByEpoch x l)
  = if epoch x =? e then x :: entriesAt e l else entriesAt e l.
Proof.
  unfold entriesAt. induction l as [|y l IH]; intros Hl; cbn [insertByEpoch List.filter].
  - reflexivity.
  - destruct (Z.leb_spec (epoch x) (epoch y)) as [Hxy|Hxy]; cbn [List.filter]; [reflexivity|].
    apply ascending_cons in Hl as [_ Hl]. rewrite (IH Hl).
    destruct (Z.eqb_spec (epoch x) e), (Z.eqb_spec (epoch y) e); try reflexivity. lia.
Qed.

(** X1.  [history.sort((a, b) => a.epoch - b.epoch)] leaves the history in
    ascending epoch order (the precondition of the locator), keeps exactly
    the same entries, and is stable: entries of the same epoch keep their
    order. *)
Theorem sortByEpoch_sorts (history : list HistoryEntry) :
  ascending (sortByEpoch history)
  /\ sortByEpoch history ≡ₚ history
  /\ (forall e, entriesAt e (sortByEpoch history) = entriesAt e history).
Proof.
  split; [apply sortByEpoch_ascending|]. split; [apply sortByEpoch_Permutation|].
  intros e. induction history as [|x l IH]; [reflexivity|].
  cbn [sortByEpoch foldr]. fold (sortByEpoch l).
  rewrite entriesAt_insertByEpoch by apply sortByEpoch_ascending.
  rewrite IH. unfold entriesAt. cbn [List.filter]. reflexivity.
Qed.

(** What the locator returns on any ascending history (duplicates
    allowed). *)
Lemma findHistoryEntryForEpoch_greatest history targetEpoch :
  ascending history ->
  (forall e, findHistoryEntryForEpoch history targetEpoch = Some e ->
             e ∈ history /\ epoch e <= targetEpoch
             /\ forall e', e' ∈ history -> epoch e' <= targetEpoch -> epoch e' <= epoch e)
  /\ (findHistoryEntryForEpoch history targetEpoch = None
      <-> forall e', e' ∈ history -> targetEpoch < epoch e').
Proof.
  intros Hsorted.
  destruct (findHistoryEntryForEpoch_boundary history targetEpoch Hsorted)
    as (b & (Hb & Hleft & Hright) & Hfind).
  rewrite Hfind. split.
  - intros e He.
    assert (0 < b) by (unfold entryBefore in He; destruct (Z.eqb_spec b 0); [discriminate|lia]).
    apply entryBefore_Some in He; [|assumption].
    split; [apply list_elem_of_lookup; eauto|].
    split; [apply (Hleft (Z.to_nat (b - 1)) e); [lia|exact He]|].
    intros e' He' Hle. apply list_elem_of_lookup in He' as [i Hi].
    destruct (Z_lt_le_dec (Z.of_nat i) b) as [Hlt|Hge].
    + destruct (decide (i = Z.to_nat (b - 1))) as [->|Hne]; [replace e' with e by congruence; lia|].
      pose proof (Hsorted i (Z.to_nat (b - 1)) e' e Hi He ltac:(lia)). lia.
    + pose proof (Hright i e' Hge Hi). lia.
  - unfold entryBefore. split.
    + intros Hn e' He'. apply list_elem_of_lookup in He' as [i Hi].
      destruct (Z.eqb_spec b 0) as [->|Hne].
      * apply (Hright i e'); [lia|exact Hi].
      * apply lookup_ge_None in Hn. lia.
    + intros Hall. destruct (Z.eqb_spec b 0) as [->|Hne]; [reflexivity|].
      destruct (history !! Z.to_nat (b - 1)) as [e|] eqn:He; [|reflexivity].
      pose proof (Hleft (Z.to_nat (b - 1)) e ltac:(lia) He).
      pose proof (Hall e ltac:(apply list_elem_of_lookup; eauto)). lia.
Qed.

(** X2.  [fetchHistoryAtEpoch]: whatever the order in which the window
    request returns the snapshots, as long as their epochs are pairwise
    distinct the result is exactly the snapshot of the response with the
    greatest epoch at or before the target, and none exactly when every
    snapshot of the response is later (in particular for an empty
    response). *)
Theorem fetchHistoryAtEpoch_correct (f : Fetched) (validator : string) (targetEpoch : Z) :
  distinctEpochs (historyWindow f validator targetEpoch) ->
  (forall e,
      fetchHistoryAtEpoch f validator targetEpoch = Some e
      <-> (e ∈ historyWindow f validator targetEpoch /\ epoch e <= targetEpoch
           /\ forall e', e' ∈ historyWindow f validator targetEpoch ->
                         epoch e' <= targetEpoch -> epoch e' <= epoch e))
  /\ (fetchHistoryAtEpoch f validator targetEpoch = None
      <-> forall e', e' ∈ historyWindow f validator targetEpoch -> targetEpoch < epoch e').
Proof.
  intros Hnd. unfold fetchHistoryAtEpoch.
  set (w := historyWindow f validator targetEpoch) in *.
  pose proof (sortByEpoch_Permutation w) as Hperm.
  destruct (findHistoryEntryForEpoch_greatest (sortByEpoch w) targetEpoch
              (sortByEpoch_ascending w)) as [HSome HNone].
  assert (Hmem : forall e, e ∈ sortByEpoch w <-> e ∈ w) by (intros e; rewrite Hperm; reflexivity).
  split.
  - intros e. split.
    + intros He. destruct (HSome e He) as (Hin & Hle & Hmax).
      split; [apply Hmem, Hin|]. split; [exact Hle|].
      intros e' He'. apply Hmax, Hmem, He'.
    + intros (Hin & Hle & Hmax).
      destruct (findHistoryEntryForEpoch (sortByEpoch w) targetEpoch) as [e0|] eqn:Hf.
      * destruct (HSome e0 eq_refl) as (Hin0 & Hle0 & Hmax0).
        apply Hmem in Hin0.
        assert (Heq : epoch e0 = epoch e).
        { pose proof (Hmax e0 Hin0 Hle0). pose proof (Hmax0 e (proj2 (Hmem e) Hin) Hle). lia. }
        f_equal. unfold distinctEpochs in Hnd.
        apply list_elem_of_lookup in Hin as [i Hi], Hin0 as [j Hj].
        assert (i = j).
        { eapply NoDup_lookup; [exact Hnd | |];
            rewrite list_lookup_fmap; [rewrite Hi | rewrite Hj]; cbn; [reflexivity|].
          f_equal. exact Heq. }
        subst. congruence.
      * exfalso. pose proof (proj1 HNone eq_refl e (proj2 (Hmem e) Hin)). lia.
  - rewrite HNone. split; intros H e' He'; apply H, Hmem, He'.
Qed.

Lemma fetchHistoryAtEpoch_correct_witness :
  (forall e,
      fetchHistoryAtEpoch exampleFetched "v" 13 = Some e
      <-> (e ∈ historyWindow exampleFetched "v" 13 /\ epoch e <= 13
           /\ forall e', e' ∈ historyWindow exampleFetched "v" 13 ->
                         epoch e' <= 13 -> epoch e' <= epoch e))
  /\ (fetchHistoryAtEpoch exampleFetched "v" 13 = None
      <-> forall e', e' ∈ historyWindow exampleFetched "v" 13 -> 13 < epoch e').
Proof.
  apply (fetchHistoryAtEpoch_correct exampleFetched "v" 13).
  unfold distinctEpochs. apply NoDup_ListNoDup. vm_compute.
  repeat constructor; cbn; intuition discriminate.
Defined.

Lemma boundary_mono history t1 t2 b1 b2 :
  t1 <= t2 -> boundary history t1 b1 -> boundary history t2 b2 -> b1 <= b2.
Proof.
  intros Ht (Hb1 & Hl1 & Hr1) (Hb2 & Hl2 & Hr2).
  destruct (Z_le_gt_dec b1 b2) as [|Hgt]; [assumption|exfalso].
  destruct (history !! Z.to_nat b2) as [e|] eqn:He.
  - pose proof (Hl1 (Z.to_nat b2) e ltac:(lia) He).
    pose proof (Hr2 (Z.to_nat b2) e ltac:(lia) He). lia.
  - apply lookup_ge_None in He. lia.
Qed.

(** X3.  The locator is monotone: on an ascending history, if a snapshot
    is found for an epoch, one is found for every later epoch, and its epoch
    is not smaller. *)
Theorem findHistoryEntryForEpoch_monotone (history : list HistoryEntry)
  (epoch1 epoch2 : Z) (entry1 : HistoryEntry) :
  ascending history ->
  epoch1 <= epoch2 ->
  findHistoryEntryForEpoch history epoch1 = Some entry1 ->
  exists entry2,
    findHistoryEntryForEpoch history epoch2 = Some entry2
    /\ epoch entry1 <= epoch entry2.
Proof.
  intros Hs Ht H1.
  destruct (findHistoryEntryForEpoch_boundary history epoch1 Hs) as (b1 & Hb1 & Hf1).
  destruct (findHistoryEntryForEpoch_boundary history epoch2 Hs) as (b2 & Hb2 & Hf2).
  pose proof (boundary_mono _ _ _ _ _ Ht Hb1 Hb2) as Hle.
  rewrite Hf1 in H1. rewrite Hf2.
  pose proof (proj1 Hb1) as Hrange1.
  assert (0 < b1) by (unfold entryBefore in H1; destruct (Z.eqb_spec b1 0); [discriminate|lia]).
  apply entryBefore_Some in H1; [|assumption].
  unfold entryBefore. destruct (Z.eqb_spec b2 0); [lia|].
  destruct Hb2 as (Hb2 & _ & _).
  destruct (history !! Z.to_nat (b2 - 1)) as [e2|] eqn:He2;
    [|apply lookup_ge_None in He2; lia].
  exists e2. split; [reflexivity|].
  destruct (decide (Z.to_nat (b1 - 1) = Z.to_nat (b2 - 1))) as [Heq|Hne].
  - rewrite Heq in H1. replace e2 with entry1 by congruence. lia.
  - exact (Hs _ _ _ _ H1 He2 ltac:(lia)).
Qed.

Lemma sampleHistory_ascending : ascending sampleHistory.
Proof.
  intros i j a b Ha Hb Hij.
  destruct i as [|[|[|i]]]; destruct j as [|[|[|j]]]; cbn in Ha, Hb;
    try discriminate; try lia; inversion Ha; inversion Hb; subst; cbn; lia.
Qed.

Lemma findHistoryEntryForEpoch_monotone_witness :
  exists entry2,
    findHistoryEntryForEpoch sampleHistory 34 = Some entry2
    /\ epoch (snapshot 10 100 100) <= epoch entry2.
Proof.
  apply (findHistoryEntryForEpoch_monotone sampleHistory 12 34 (snapshot 10 100 100)).
  - intros i j a b Ha Hb Hij.
    destruct i as [|[|[|i]]]; destruct j as [|[|[|j]]]; cbn in Ha, Hb;
      try discriminate; try lia; inversion Ha; inversion Hb; subst; cbn; lia.
  - lia.
  - vm_compute. reflexivity.
Defined.

(** X4.  On an ascending history with unique epochs, an epoch that has a
    snapshot is answered by that very snapshot, and looking up the epoch of
    any returned snapshot returns it again. *)
Theorem findHistoryEntryForEpoch_exact (history : list HistoryEntry) :
  ascendingUnique history ->
  (forall entry, entry ∈ history ->
     findHistoryEntryForEpoch history (epoch entry) = Some entry)
  /\ (forall targetEpoch entry,
        findHistoryEntryForEpoch history targetEpoch = Some entry ->
        findHistoryEntryForEpoch history (epoch entry) = Some entry).
Proof.
  intros Huniq.
  assert (Hsorted : ascending history).
  { intros i j a b Ha Hb Hij. pose proof (Huniq i j a b Ha Hb Hij). lia. }
  assert (Hexact : forall entry, entry ∈ history ->
            findHistoryEntryForEpoch history (epoch entry) = Some entry).
  { intros entry Hin.
    destruct (findHistoryEntryForEpoch_greatest history (epoch entry) Hsorted) as [HSome HNone].
    destruct (findHistoryEntryForEpoch history (epoch entry)) as [e0|] eqn:Hf.
    - destruct (HSome e0 eq_refl) as (Hin0 & Hle0 & Hmax0).
      pose proof (Hmax0 entry Hin ltac:(lia)) as Hge.
      f_equal. apply list_elem_of_lookup in Hin as [i Hi], Hin0 as [j Hj].
      destruct (lt_eq_lt_dec i j) as [[Hlt| ->]|Hlt].
      + pose proof (Huniq i j _ _ Hi Hj Hlt). lia.
      + congruence.
      + pose proof (Huniq j i _ _ Hj Hi Hlt). lia.
    - pose proof (proj1 HNone eq_refl entry Hin). lia. }
  split; [exact Hexact|].
  intros t entry Hf. apply Hexact.
  destruct (findHistoryEntryForEpoch_greatest history t Hsorted) as [HSome _].
  exact (proj1 (HSome entry Hf)).
Qed.

Lemma findHistoryEntryForEpoch_exact_witness :
  (forall entry, entry ∈ sampleHistory ->
     findHistoryEntryForEpoch sampleHistory (epoch entry) = Some entry)
  /\ (forall targetEpoch entry,
        findHistoryEntryForEpoch sampleHistory targetEpoch = Some entry ->
        findHistoryEntryForEpoch sampleHistory (epoch entry) = Some entry).
Proof.
  apply (findHistoryEntryForEpoch_exact sampleHistory).
  intros i j a b Ha Hb Hij.
  destruct i as [|[|[|i]]]; destruct j as [|[|[|j]]]; cbn in Ha, Hb;
    try discriminate; try lia; inversion Ha; inversion Hb; subst; cbn; lia.
Defined.

(* ===================================================================== *)
(** * Further properties: position value and formatting                  *)
(* ===================================================================== *)

Lemma quot_superadditive a b B s :
  0 <= a -> 0 <= b -> 0 <= B -> 0 < s ->
  Z.quot (a * B) s + Z.quot (b * B) s <= Z.quot ((a + b) * B) s
  /\ Z.quot ((a + b) * B) s <= Z.quot (a * B) s + Z.quot (b * B) s + 1.
Proof.
  intros Ha Hb HB Hs.
  rewrite !Z.quot_div_nonneg by nia.
  pose proof (Z.div_mod (a * B) s ltac:(lia)) as H1.
  pose proof (Z.mod_pos_bound (a * B) s Hs) as H1'.
  pose proof (Z.div_mod (b * B) s ltac:(lia)) as H2.
  pose proof (Z.mod_pos_bound (b * B) s Hs) as H2'.
  pose proof (Z.div_mod ((a + b) * B) s ltac:(lia)) as H3.
  pose proof (Z.mod_pos_bound ((a + b) * B) s Hs) as H3'.
  set (q1 := a * B / s) in *. set (q2 := b * B / s) in *. set (q3 := (a + b) * B / s) in *.
  set (r1 := (a * B) mod s) in *. set (r2 := (b * B) mod s) in *.
  set (r3 := ((a + b) * B) mod s) in *.
  assert (Heq : s * q3 + r3 = s * (q1 + q2) + (r1 + r2)) by lia.
  split; nia.
Qed.

(** X5.  [calculateTotalValue] on non-negative data: the value is
    non-negative and monotone in the share count, and, because the division
    truncates, valuing two positions separately never gives more than valuing
    them together and loses at most one base unit. *)
Theorem calculateTotalValue_truncation (a b : Z) (historyEntry : option HistoryEntry) :
  0 <= a -> 0 <= b ->
  (forall h, historyEntry = Some h ->
             0 <= default 0 (active_balance h) /\ 0 <= default 1 (active_shares h)) ->
  0 <= calculateTotalValue a historyEntry
  /\ (a <= b -> calculateTotalValue a historyEntry <= calculateTotalValue b historyEntry)
  /\ calculateTotalValue a historyEntry + calculateTotalValue b historyEntry
     <= calculateTotalValue (a + b) historyEntry
  /\ calculateTotalValue (a + b) historyEntry
     <= calculateTotalValue a historyEntry + calculateTotalValue b historyEntry + 1.
Proof.
  intros Ha Hb Hh. unfold calculateTotalValue.
  destruct historyEntry as [h|]; [|repeat split; lia].
  destruct (Hh h eq_refl) as [HB Hs].
  set (B := default 0 (active_balance h)) in *.
  set (s := default 1 (active_shares h)) in *.
  destruct (Z.eqb_spec s 0); [repeat split; lia|].
  assert (Hs' : 0 < s) by lia.
  destruct (quot_superadditive a b B s Ha Hb HB Hs') as [H1 H2].
  split; [apply Z.quot_pos; nia|].
  split; [|split; assumption].
  intros Hab. rewrite !Z.quot_div_nonneg by nia.
  apply Z.div_le_mono; nia.
Qed.

Lemma calculateTotalValue_truncation_witness :
  0 <= calculateTotalValue 7 (Some (snapshot 12 1020 1000))
  /\ (7 <= 8 -> calculateTotalValue 7 (Some (snapshot 12 1020 1000))
                <= calculateTotalValue 8 (Some (snapshot 12 1020 1000)))
  /\ calculateTotalValue 7 (Some (snapshot 12 1020 1000))
     + calculateTotalValue 8 (Some (snapshot 12 1020 1000))
     <= calculateTotalValue (7 + 8) (Some (snapshot 12 1020 1000))
  /\ calculateTotalValue (7 + 8) (Some (snapshot 12 1020 1000))
     <= calculateTotalValue 7 (Some (snapshot 12 1020 1000))
        + calculateTotalValue 8 (Some (snapshot 12 1020 1000)) + 1.
Proof.
  apply (calculateTotalValue_truncation 7 8 (Some (snapshot 12 1020 1000))).
  - lia.
  - lia.
  - intros h [= <-]. vm_compute. split; discriminate.
Defined.

Lemma digitsValue_bound s :
  forallb isDigit s = true -> 0 <= digitsValue s < 10 ^ Z.of_nat (length s).
Proof.
  induction s as [|c s IH] using rev_ind; intros H; [cbn; lia|].
  rewrite forallb_app in H. apply andb_true_iff in H as [Hs Hc].
  specialize (IH Hs). rewrite digitsValue_app, length_app. cbn [length].
  replace (Z.of_nat (length s + 1)) with (Z.of_nat (length s) + 1) by lia.
  rewrite Z.pow_add_r by lia. change (10 ^ Z.of_nat 1) with 10. change (10 ^ 1) with 10.
  assert (Hd : 0 <= digitsValue [c] <= 9).
  { cbn in Hc. apply andb_true_iff in Hc as [Hc _]. unfold isDigit in Hc.
    unfold digitsValue, digitsValueFrom. cbn [fold_left].
    unfold digitVal in *.
    destruct ((48 <=? Z.of_nat (nat_of_ascii c)) && (Z.of_nat (nat_of_ascii c) <=? 57)) eqn:E;
      [|discriminate].
    apply andb_true_iff in E as [E1 E2]. cbn [default from_option id]. lia. }
  nia.
Qed.

Lemma digits_zero_value s :
  forallb isDigit s = true -> digitsValue s = 0 -> s = replicate (length s) "0"%char.
Proof.
  induction s as [|c s IH]; intros H Hv; [reflexivity|].
  cbn [forallb] in H. apply andb_true_iff in H as [Hc Hs].
  change (c :: s) with ([c] ++ s) in Hv. rewrite digitsValue_app in Hv.
  pose proof (digitsValue_bound s Hs) as Hb.
  assert (Hd : 0 <= digitsValue [c] /\ (digitsValue [c] = 0 -> c = "0"%char)).
  { unfold isDigit in Hc. unfold digitsValue, digitsValueFrom. cbn [fold_left].
    unfold digitVal in *.
    destruct ((48 <=? Z.of_nat (nat_of_ascii c)) && (Z.of_nat (nat_of_ascii c) <=? 57)) eqn:E;
      [|discriminate].
    apply andb_true_iff in E as [E1 E2]. cbn [default from_option id]. split; [lia|].
    intros H0. assert (Hn : nat_of_ascii c = 48%nat) by lia.
    rewrite <- (ascii_nat_embedding c), Hn. reflexivity. }
  destruct Hd as [Hd0 Hd].
  assert (digitsValue [c] = 0 /\ digitsValue s = 0) as [Hc0 Hs0] by nia.
  cbn [length replicate]. rewrite (Hd Hc0). f_equal. apply IH; assumption.
Qed.

Lemma stripTrailingZeros_zeros n : stripTrailingZeros (replicate n "0"%char) = [].
Proof.
  unfold stripTrailingZeros. rewrite reverse_replicate.
  induction n as [|n IH]; [reflexivity|]. cbn. exact IH.
Qed.

(** X6.  [toRose] prints a decimal point exactly when the amount is not a
    multiple of [10^(ROSE_DECIMALS + extraDecimals)]: whole amounts are
    printed as plain integers. *)
Theorem toRose_point_iff_fraction (amount extraDecimals : Z) :
  0 <= extraDecimals ->
  ("."%char ∈ list_ascii_of_string (toRose amount extraDecimals)
   <-> amount mod 10 ^ (ROSE_DECIMALS + extraDecimals) <> 0).
Proof.
  intros Hx. rewrite toRose_chars by exact Hx.
  set (t := ROSE_DECIMALS + extraDecimals).
  assert (Ht : 0 < t) by (unfold t, ROSE_DECIMALS; lia).
  destruct (parts_value amount t Ht) as (k & Hk & Hlen & Hval).
  destruct (fractionOf_facts amount t Ht) as (Hfd & _ & _).
  pose proof (intPartOf_digits amount t) as Hid.
  assert (Hpoint : "."%char ∈ renderedAs amount (intPartOf amount t) (fractionOf amount t)
                   <-> fractionOf amount t <> []).
  { unfold renderedAs. split.
    - intros Hin Hnil. rewrite Hnil, app_nil_r in Hin.
      apply elem_of_app in Hin as [Hin|Hin].
      + destruct (amount <? 0); [|inversion Hin].
        apply list_elem_of_singleton in Hin. discriminate.
      + apply list_elem_of_In in Hin. rewrite forallb_forall in Hid.
        specialize (Hid _ Hin). discriminate.
    - intros Hne. destruct (fractionOf amount t) as [|c r]; [congruence|].
      apply elem_of_app. right. apply elem_of_app. right. apply list_elem_of_here. }
  rewrite Hpoint.
  rewrite !digitsValue_app, digitsValue_zeros, length_app, length_replicate in Hval.
  replace (Z.of_nat (length (fractionOf amount t) + k)) with t in Hval by lia.
  pose proof (digitsValue_bound _ Hfd) as Hfb.
  set (F := digitsValue (fractionOf amount t)) in *.
  set (I := digitsValue (intPartOf amount t)) in *.
  assert (Hpow : 10 ^ t = 10 ^ Z.of_nat (length (fractionOf amount t)) * 10 ^ Z.of_nat k).
  { rewrite <- Z.pow_add_r by lia. f_equal. lia. }
  assert (Hpk : 0 < 10 ^ Z.of_nat k) by (apply Z.pow_pos_nonneg; lia).
  assert (Hmod : Z.abs amount mod 10 ^ t = F * 10 ^ Z.of_nat k).
  { symmetry. apply (Z.mod_unique_pos _ _ I); [nia | lia]. }
  assert (Habs : amount mod 10 ^ t = 0 <-> Z.abs amount mod 10 ^ t = 0).
  { assert (Hp : 0 < 10 ^ t) by (apply Z.pow_pos_nonneg; lia).
    rewrite !Z.mod_divide by lia. symmetry. apply Z.divide_abs_r. }
  split.
  - intros Hne Hz. apply Habs in Hz. rewrite Hmod in Hz.
    assert (F = 0) by nia.
    pose proof (digits_zero_value _ Hfd H) as Hzeros.
    destruct (fractionOf_facts amount t Ht) as (_ & _ & Hlast).
    rewrite Hzeros in Hlast. destruct (length (fractionOf amount t)) as [|n] eqn:Hl.
    + apply Hne. destruct (fractionOf amount t); [reflexivity|discriminate].
    + apply Hlast. clear. induction n as [|n IH]; [reflexivity|].
      change (replicate (S (S n)) "0"%char) with ("0"%char :: replicate (S n) "0"%char).
      rewrite last_cons, IH. reflexivity.
  - intros Hnz Hnil. apply Hnz, Habs. rewrite Hmod.
    unfold F. rewrite Hnil. reflexivity.
Qed.

Lemma toRose_point_iff_fraction_witness :
  "."%char ∈ list_ascii_of_string (toRose 50000000000 0)
  <-> 50000000000 mod 10 ^ (ROSE_DECIMALS + 0) <> 0.
Proof. apply (toRose_point_iff_fraction 50000000000 0). lia. Defined.

(** X7.  [toRose] is lossless: at a fixed [extraDecimals >= 0] two
    different amounts are never printed alike. *)
Theorem toRose_injective (amount1 amount2 extraDecimals : Z) :
  0 <= extraDecimals ->
  toRose amount1 extraDecimals = toRose amount2 extraDecimals ->
  amount1 = amount2.
Proof.
  intros Hx Heq.
  pose proof (parseRose_toRose amount1 extraDecimals Hx) as H1.
  pose proof (parseRose_toRose amount2 extraDecimals Hx) as H2.
  rewrite Heq in H1. congruence.
Qed.

Lemma toRose_injective_witness : 1500000000 = 1500000000.
Proof.
  apply (toRose_injective 1500000000 1500000000 18); [lia | reflexivity].
Defined.

(* ===================================================================== *)
(** * Further properties: pagination                                      *)
(* ===================================================================== *)

Section PaginationMore.
Context {A : Type}.
Variable get : nat -> Z -> Response A.
Variable limit : Z.

Lemma offsetAt_length n : offsetAt get n = Z.of_nat (length (pagesUpTo get n)).
Proof.
  induction n as [|n IH]; [reflexivity|].
  cbn [offsetAt pagesUpTo]. rewrite length_app, IH. unfold pageAt, responseAt.
  rewrite IH. lia.
Qed.

(** A run of the script loop that returns has met a short page. *)
Lemma paginatedLoop_returns fuel : forall n items,
  paginatedLoop get limit fuel n (pagesUpTo get n) (offsetAt get n) = Some items ->
  exists k, (n <= k < n + fuel)%nat
            /\ shortPage get limit k
            /\ (forall i, (n <= i < k)%nat -> ~ shortPage get limit i)
            /\ items = pagesUpTo get (S k).
Proof.
  induction fuel as [|fuel IH]; intros n items H; [discriminate|].
  cbn [paginatedLoop] in H. fold (responseAt get n) in H. fold (pageAt get n) in H.
  destruct (Z.ltb_spec (Z.of_nat (length (pageAt get n))) limit) as [Hlt|Hge].
  - exists n. split; [lia|]. split; [exact Hlt|]. split; [intros i Hi; lia|].
    injection H as <-. reflexivity.
  - destruct (IH (S n) items H) as (k & Hk & Hs & Hmin & ->).
    exists k. split; [lia|]. split; [exact Hs|]. split; [|reflexivity].
    intros i Hi. destruct (decide (i = n)) as [->|Hne].
    + unfold shortPage. lia.
    + apply Hmin. lia.
Qed.

Lemma utils_paginatedLoop_returns fuel : forall n items c,
  Utils.paginatedLoop get limit fuel n (pagesUpTo get n) (offsetAt get n)
    (clippedUpTo get n) = Some (items, c) ->
  exists k, (n <= k < n + fuel)%nat
            /\ Utils.stopsAt get limit k
            /\ (forall i, (n <= i < k)%nat -> ~ Utils.stopsAt get limit i)
            /\ items = pagesUpTo get (S k)
            /\ c = clippedUpTo get (S k).
Proof.
  assert (Hclip : forall n,
             (if is_total_count_clipped (get n (offsetAt get n)) then true
              else clippedUpTo get n) = clippedUpTo get (S n)).
  { intros n. cbn [clippedUpTo]. unfold responseAt.
    destruct (is_total_count_clipped _), (clippedUpTo get n); reflexivity. }
  induction fuel as [|fuel IH]; intros n items c H; [discriminate|].
  cbn [Utils.paginatedLoop] in H. rewrite Hclip in H.
  fold (responseAt get n) in H. fold (pageAt get n) in H.
  destruct (Z.ltb_spec (Z.of_nat (length (pageAt get n))) limit) as [Hlt|Hge].
  { exists n. split; [lia|]. split; [left; exact Hlt|]. split; [intros i Hi; lia|].
    cbn [orb] in H. injection H as <- <-. split; reflexivity. }
  destruct (Z.leb_spec (orNum (total_count (responseAt get n)) 0)
              (offsetAt get n + Z.of_nat (length (pageAt get n)))) as [Hle|Hgt].
  { exists n. split; [lia|]. split; [right; exact Hle|]. split; [intros i Hi; lia|].
    cbn [orb] in H. injection H as <- <-. split; reflexivity. }
  cbn [orb] in H.
  destruct (IH (S n) items c H) as (k & Hk & Hs & Hmin & -> & ->).
  exists k. split; [lia|]. split; [exact Hs|]. split; [|split; reflexivity].
  intros i Hi. destruct (decide (i = n)) as [->|Hne].
  - unfold Utils.stopsAt. lia.
  - apply Hmin. lia.
Qed.

Lemma pagesUpTo_prefix n m : (n <= m)%nat -> pagesUpTo get n `prefix_of` pagesUpTo get m.
Proof.
  induction 1 as [|m Hle IH]; [reflexivity|].
  cbn [pagesUpTo]. etransitivity; [exact IH|]. apply prefix_app_r. reflexivity.
Qed.

Lemma clippedUpTo_true_iff m :
  clippedUpTo get m = true
  <-> exists i, (i < m)%nat /\ is_total_count_clipped (responseAt get i) = true.
Proof.
  induction m as [|m IH]; cbn [clippedUpTo].
  - split; [discriminate|]. intros (i & Hi & _). lia.
  - rewrite orb_true_iff, IH. split.
    + intros [Hm|(i & Hi & Hc)]; [exists m; split; [lia|exact Hm]|exists i; split; [lia|exact Hc]].
    + intros (i & Hi & Hc). destruct (decide (i = m)) as [->|Hne]; [left; exact Hc|].
      right. exists i. split; [lia|exact Hc].
Qed.

(** X8.  Whenever the fetcher of the test scripts returns, it has met a short
    page: the page size is positive, the last page [k] it requested is the
    first short one, the result is the concatenation of pages [0..k], and the
    offset of every request is the number of items received before it.  With
    [limit <= 0], or against a server that never sends a short page, it never
    returns. *)
Theorem paginatedFetch_returns_only_at_short_page (fuel : nat) (items : list A) :
  paginatedFetch get limit fuel = Some items ->
  0 < limit
  /\ exists k, (k < fuel)%nat
       /\ shortPage get limit k
       /\ (forall i, (i < k)%nat -> ~ shortPage get limit i)
       /\ items = pagesUpTo get (S k)
       /\ (forall i, (i <= k)%nat -> offsetAt get i = Z.of_nat (length (pagesUpTo get i))).
Proof.
  intros H. destruct (paginatedLoop_returns fuel 0%nat items H) as (k & Hk & Hs & Hmin & ->).
  split; [unfold shortPage in Hs; lia|].
  exists k. split; [lia|]. split; [exact Hs|]. split; [intros i Hi; apply Hmin; lia|].
  split; [reflexivity|]. intros i _. apply offsetAt_length.
Qed.

(** X9.  On the same response sequence the fetcher of [utils.js] never
    requests more pages than the fetcher of the test scripts: what it returns
    is a prefix of what the latter returns, and its clip flag is set exactly
    when one of the pages it requested was flagged. *)
Theorem utils_paginatedFetch_prefix (fuel fuel' : nat) (items items' : list A) (wasClipped : bool) :
  paginatedFetch get limit fuel = Some items ->
  Utils.paginatedFetch get limit fuel' = Some (items', wasClipped) ->
  items' `prefix_of` items
  /\ exists k', (k' < fuel')%nat
       /\ items' = pagesUpTo get (S k')
       /\ (wasClipped = true
           <-> exists i, (i <= k')%nat /\ is_total_count_clipped (responseAt get i) = true).
Proof.
  intros H H'.
  destruct (paginatedLoop_returns fuel 0%nat items H) as (k & Hk & Hs & Hmin & ->).
  destruct (utils_paginatedLoop_returns fuel' 0%nat items' wasClipped H')
    as (k' & Hk' & Hs' & Hmin' & -> & ->).
  assert (Hle : (k' <= k)%nat).
  { destruct (le_lt_dec k' k) as [|Hlt]; [assumption|].
    exfalso. apply (Hmin' k); [lia|]. left. exact Hs. }
  split; [apply pagesUpTo_prefix; lia|].
  exists k'. split; [lia|]. split; [reflexivity|].
  rewrite clippedUpTo_true_iff. split; intros (i & Hi & Hc); exists i; (split; [lia|exact Hc]).
Qed.
End PaginationMore.

Lemma paginatedFetch_returns_only_at_short_page_witness :
  0 < 2
  /\ exists k, (k < 2)%nat
       /\ shortPage clippedSource 2 k
       /\ (forall i, (i < k)%nat -> ~ shortPage clippedSource 2 i)
       /\ [1; 2; 3] = pagesUpTo clippedSource (S k)
       /\ (forall i, (i <= k)%nat ->
             offsetAt clippedSource i = Z.of_nat (length (pagesUpTo clippedSource i))).
Proof.
  apply (paginatedFetch_returns_only_at_short_page clippedSource 2 2 [1; 2; 3]).
  reflexivity.
Defined.

Lemma utils_paginatedFetch_prefix_witness :
  [1; 2] `prefix_of` [1; 2; 3]
  /\ exists k', (k' < 1)%nat
       /\ [1; 2] = pagesUpTo clippedSource (S k')
       /\ (true = true
           <-> exists i, (i <= k')%nat
                         /\ is_total_count_clipped (responseAt clippedSource i) = true).
Proof.
  apply (utils_paginatedFetch_prefix clippedSource 2 2 1 [1; 2; 3] [1; 2] true);
    reflexivity.
Defined.

Section PagedServer.
Context {A : Type}.
Variable all : list A.
Variable limit : Z.
Hypothesis limit_pos : 0 < limit.

Lemma pagedServer_page n offset :
  0 <= offset <= Z.of_nat (length all) ->
  let page := default [] (data_items (pagedServer all limit n offset)) in
  Z.of_nat (length page) = Z.min limit (Z.of_nat (length all) - offset)
  /\ take (Z.to_nat offset) all ++ page
     = take (Z.to_nat (offset + Z.of_nat (length page))) all.
Proof.
  intros Ho.
  change (default [] (data_items (pagedServer all limit n offset)))
    with (take (Z.to_nat limit) (drop (Z.to_nat offset) all)).
  cbn zeta. rewrite length_take, length_drop. split; [lia|].
  rewrite take_take_drop.
  destruct (Z_le_dec limit (Z.of_nat (length all) - offset)).
  - f_equal. lia.
  - rewrite !take_ge by lia. reflexivity.
Qed.

Lemma pagedServer_loop fuel : forall n offset,
  0 <= offset <= Z.of_nat (length all) ->
  Z.of_nat (length all) - offset < Z.of_nat fuel * limit ->
  paginatedLoop (pagedServer all limit) limit fuel n (take (Z.to_nat offset) all) offset
  = Some all.
Proof.
  induction fuel as [|fuel IH]; intros n offset Ho Hf; [lia|].
  cbn [paginatedLoop].
  destruct (pagedServer_page n offset Ho) as [Hlen Happ]. cbn zeta in Hlen, Happ.
  rewrite Happ.
  destruct (Z.ltb_spec (Z.of_nat (length (default [] (data_items (pagedServer all limit n offset))))) limit)
    as [Hlt|Hge].
  - f_equal. apply take_ge. lia.
  - apply IH; lia.
Qed.

Lemma pagedServer_utils_loop fuel : forall n offset,
  0 <= offset <= Z.of_nat (length all) ->
  Z.of_nat (length all) - offset < Z.of_nat fuel * limit ->
  Utils.paginatedLoop (pagedServer all limit) limit fuel n (take (Z.to_nat offset) all)
    offset false
  = Some (all, false).
Proof.
  induction fuel as [|fuel IH]; intros n offset Ho Hf; [lia|].
  cbn [Utils.paginatedLoop].
  destruct (pagedServer_page n offset Ho) as [Hlen Happ]. cbn zeta in Hlen, Happ.
  rewrite Happ.
  change (is_total_count_clipped (pagedServer all limit n offset)) with false.
  change (total_count (pagedServer all limit n offset)) with (Some (Z.of_nat (length all))).
  assert (Hor : orNum (Some (Z.of_nat (length all))) 0 = Z.of_nat (length all)).
  { unfold orNum. destruct (Z.of_nat (length all)); reflexivity. }
  rewrite Hor.
  destruct (Z.ltb_spec (Z.of_nat (length (default [] (data_items (pagedServer all limit n offset))))) limit)
    as [Hlt|Hge].
  { cbn [orb]. do 2 f_equal. apply take_ge. lia. }
  destruct (Z.leb_spec (Z.of_nat (length all))
              (offset + Z.of_nat (length (default [] (data_items (pagedServer all limit n offset))))))
    as [Hle|Hgt].
  { cbn [orb]. do 2 f_equal. apply take_ge. lia. }
  cbn [orb]. apply IH; lia.
Qed.

(** X10.  Against a server that holds the list [all], honours [limit] and
    [offset] and reports the true total, both fetchers return exactly [all],
    in order and without duplicates or gaps, within
    [length all / limit + 1] requests; the fetcher of [utils.js] reports no
    clipping. *)
Theorem paginatedFetch_complete (fuel : nat) :
  Z.of_nat (length all) / limit < Z.of_nat fuel ->
  paginatedFetch (pagedServer all limit) limit fuel = Some all
  /\ Utils.paginatedFetch (pagedServer all limit) limit fuel = Some (all, false).
Proof.
  intros Hf.
  assert (Hfuel : Z.of_nat (length all) - 0 < Z.of_nat fuel * limit).
  { pose proof (Z.div_mod (Z.of_nat (length all)) limit ltac:(lia)) as Hdm.
    pose proof (Z.mod_pos_bound (Z.of_nat (length all)) limit limit_pos) as Hm.
    nia. }
  split.
  - exact (pagedServer_loop fuel 0%nat 0 ltac:(lia) Hfuel).
  - exact (pagedServer_utils_loop fuel 0%nat 0 ltac:(lia) Hfuel).
Qed.
End PagedServer.

Lemma paginatedFetch_complete_witness :
  paginatedFetch (pagedServer [10; 20; 30; 40; 50] 2) 2 3 = Some [10; 20; 30; 40; 50]
  /\ Utils.paginatedFetch (pagedServer [10; 20; 30; 40; 50] 2) 2 3
     = Some ([10; 20; 30; 40; 50], false).
Proof.
  apply (paginatedFetch_complete [10; 20; 30; 40; 50] 2); [lia | reflexivity].
Defined.

(* ===================================================================== *)
(** * Further properties: address and encoding helpers of [utils.js]      *)
(* ===================================================================== *)

Lemma lowerChar_idemp c : lowerChar (lowerChar c) = lowerChar c.
Proof. destruct c as [[] [] [] [] [] [] [] []]; reflexivity. Qed.

Lemma toLowerCase_idemp s : toLowerCase (toLowerCase s) = toLowerCase s.
Proof.
  unfold toLowerCase. rewrite list_ascii_of_string_of_list_ascii, map_map.
  f_equal. apply map_ext. intros c. apply lowerChar_idemp.
Qed.

Lemma normalizeAddress_idemp a :
  normalizeAddress (Some (normalizeAddress a)) = normalizeAddress a.
Proof. destruct a as [a|]; [apply toLowerCase_idemp | reflexivity]. Qed.

Lemma setAdd_elem x y set : y ∈ setAdd x set <-> y = x \/ y ∈ set.
Proof.
  unfold setAdd. destruct (bool_decide_reflect (x ∈ set)) as [Hin|Hnin].
  - split; [tauto|]. intros [->|H]; assumption.
  - rewrite elem_of_app, list_elem_of_singleton. tauto.
Qed.

Lemma foldl_setAdd_elem y (xs : list string) : forall set,
  y ∈ foldl (fun set addr => setAdd addr set) set xs <-> y ∈ set \/ y ∈ xs.
Proof.
  induction xs as [|x xs IH]; intros set; cbn [foldl].
  - split; [tauto|]. intros [H|H]; [exact H|inversion H].
  - rewrite IH, setAdd_elem, elem_of_cons. tauto.
Qed.

Lemma foldl_setAdd_NoDup (xs : list string) : forall set,
  NoDup set -> NoDup (foldl (fun set addr => setAdd addr set) set xs).
Proof.
  induction xs as [|x xs IH]; intros set Hnd; cbn [foldl]; [exact Hnd|].
  apply IH. unfold setAdd. destruct (bool_decide_reflect (x ∈ set)) as [Hin|Hnin]; [exact Hnd|].
  apply NoDup_app. split; [exact Hnd|]. split; [|apply NoDup_singleton].
  intros z Hz Hz'. apply list_elem_of_singleton in Hz'. subst. contradiction.
Qed.

(** X11.  [createAddressSet]: the set holds each address once, in
    normalised form, and looking up the normalised form of an address
    succeeds exactly when the input holds an address that differs from it at
    most in letter case (an absent address counts as the empty text).
    Normalising is idempotent, so addresses taken from the set can be
    normalised again without harm. *)
Theorem createAddressSet_has (addresses : list (option string)) (address : option string) :
  NoDup (createAddressSet addresses)
  /\ (setHas (normalizeAddress address) (createAddressSet addresses) = true
      <-> exists addr, addr ∈ addresses /\ normalizeAddress addr = normalizeAddress address)
  /\ (forall x, x ∈ createAddressSet addresses -> normalizeAddress (Some x) = x).
Proof.
  unfold createAddressSet, setHas. split; [apply foldl_setAdd_NoDup; constructor|].
  split.
  - rewrite bool_decide_eq_true, foldl_setAdd_elem, list_elem_of_fmap.
    split.
    + intros [H|(addr & Heq & Hin)]; [inversion H|]. exists addr. split; [exact Hin|]. symmetry. exact Heq.
    + intros (addr & Hin & Heq). right. exists addr. split; [symmetry; exact Heq|exact Hin].
  - intros x Hx. apply foldl_setAdd_elem in Hx as [Hx|Hx]; [inversion Hx|].
    apply list_elem_of_fmap in Hx as (addr & -> & _). apply normalizeAddress_idemp.
Qed.

Lemma hex_byte_roundtrip c :
  exists hi lo,
    Format.padStart (toString16 (N_of_ascii c)) 2 "0" = [hi; lo]
    /\ hexVal hi <> None /\ hexVal lo <> None
    /\ hexToBytes [hi; lo] = Some [c].
Proof.
  destruct c as [[] [] [] [] [] [] [] []];
    (eexists; eexists; split; [vm_compute; reflexivity|];
     split; [vm_compute; discriminate|]; split; [vm_compute; discriminate|];
     vm_compute; reflexivity).
Qed.

Lemma hexToBytes_cons2 hi lo r bytes c :
  hexToBytes [hi; lo] = Some [c] -> hexToBytes r = Some bytes ->
  hexToBytes (hi :: lo :: r) = Some (c :: bytes).
Proof.
  cbn [hexToBytes]. intros H Hr. rewrite Hr.
  destruct (hexVal hi), (hexVal lo); try discriminate. congruence.
Qed.

Lemma hex_bytes_roundtrip (binaryStr : list ascii) :
  let hex := concat (map (fun char => Format.padStart (toString16 (N_of_ascii char)) 2 "0")
                         binaryStr) in
  length hex = (2 * length binaryStr)%nat
  /\ Forall (fun c => hexVal c <> None) hex
  /\ hexToBytes hex = Some binaryStr.
Proof.
  induction binaryStr as [|c r IH]; [repeat split; constructor|].
  cbn zeta in *. cbn [map concat]. destruct IH as (Hlen & Hall & Hdec).
  destruct (hex_byte_roundtrip c) as (hi & lo & -> & Hhi & Hlo & Hpair).
  cbn [app length]. split; [lia|]. split.
  - repeat constructor; assumption.
  - apply hexToBytes_cons2; assumption.
Qed.

Section Base64Facts.
Variable atob : string -> option (list ascii).

(** X12.  [b64ToHex]: an absent or empty input, and an input that the
    decoder rejects, give the empty text; otherwise the result is the decoded
    bytes in lowercase hexadecimal, exactly two digits per byte, and reading
    it back recovers the bytes. *)
Theorem b64ToHex_hex (b64 : string) (binaryStr : list ascii) :
  b64 <> "" ->
  atob b64 = Some binaryStr ->
  (let hex := list_ascii_of_string (b64ToHex atob (Some b64)) in
   length hex = (2 * length binaryStr)%nat
   /\ Forall (fun c => hexVal c <> None) hex
   /\ hexToBytes hex = Some binaryStr)
  /\ b64ToHex atob None = ""
  /\ b64ToHex atob (Some "") = ""
  /\ (forall rejected, atob rejected = None -> b64ToHex atob (Some rejected) = "").
Proof.
  intros Hne Hdec. split; [|split; [reflexivity|split; [reflexivity|]]].
  - destruct b64 as [|c s]; [congruence|].
    cbn [b64ToHex]. rewrite Hdec. cbn zeta.
    rewrite list_ascii_of_string_of_list_ascii. apply hex_bytes_roundtrip.
  - intros s Hs. destruct s as [|c s]; [reflexivity|]. cbn [b64ToHex]. rewrite Hs. reflexivity.
Qed.
End Base64Facts.

Lemma b64ToHex_hex_witness :
  (let hex := list_ascii_of_string (b64ToHex exampleAtob (Some "TWE=")) in
   length hex = (2 * length ["M"; "a"]%char)%nat
   /\ Forall (fun c => hexVal c <> None) hex
   /\ hexToBytes hex = Some ["M"; "a"]%char)
  /\ b64ToHex exampleAtob None = ""
  /\ b64ToHex exampleAtob (Some "") = ""
  /\ (forall rejected, exampleAtob rejected = None -> b64ToHex exampleAtob (Some rejected) = "").
Proof.
  apply (b64ToHex_hex exampleAtob "TWE=" ["M"; "a"]%char); [discriminate | reflexivity].
Defined.

(* ===================================================================== *)
(** * Further properties: set-up phase and event application              *)
(* ===================================================================== *)

Lemma foldl_ext_elem {A B : Type} (g g' : A -> B -> A) (l : list B) : forall a,
  (forall a x, x ∈ l -> g a x = g' a x) -> foldl g a l = foldl g' a l.
Proof.
  induction l as [|x l IH]; intros a H; [reflexivity|].
  cbn [foldl]. rewrite H by apply list_elem_of_here.
  apply IH. intros a' y Hy. apply H. right. exact Hy.
Qed.

(** X13.  The "Apply events" loop composes: applying the events of epochs
    [a+1 .. b] and then those of [b+1 .. c] is applying those of [a+1 .. c],
    so a finer sampling applies every event exactly once and in the same
    order.  Only the events filed under the epochs [a+1 .. c] matter. *)
Theorem applyEvents_compose (validatorHistories : gmap string (list HistoryEntry))
  (eventsByEpoch : gmap Z (list Event)) (a b c : Z)
  (validatorState : gmap string ValidatorState) :
  a <= b -> b <= c ->
  applyEvents validatorHistories eventsByEpoch b c
    (applyEvents validatorHistories eventsByEpoch a b validatorState)
  = applyEvents validatorHistories eventsByEpoch a c validatorState
  /\ (forall eventsByEpoch' : gmap Z (list Event),
        (forall e, a < e <= c -> eventsByEpoch' !! e = eventsByEpoch !! e) ->
        applyEvents validatorHistories eventsByEpoch' a c validatorState
        = applyEvents validatorHistories eventsByEpoch a c validatorState).
Proof.
  intros Hab Hbc. split.
  - unfold applyEvents.
    replace (c - a) with ((b - a) + (c - b)) by lia.
    rewrite seqZ_app, foldl_app by lia.
    replace (a + 1 + (b - a)) with (b + 1) by lia. reflexivity.
  - intros ev' Hagree. unfold applyEvents. apply foldl_ext_elem.
    intros st e He. apply elem_of_seqZ in He. unfold applyEpoch.
    rewrite Hagree by lia. reflexivity.
Qed.

Lemma applyEvents_compose_witness :
  applyEvents exampleHistories exampleEvents 12 20
    (applyEvents exampleHistories exampleEvents 0 12 (validatorState exampleEngine))
  = applyEvents exampleHistories exampleEvents 0 20 (validatorState exampleEngine)
  /\ (forall eventsByEpoch' : gmap Z (list Event),
        (forall e, 0 < e <= 20 -> eventsByEpoch' !! e = exampleEvents !! e) ->
        applyEvents exampleHistories eventsByEpoch' 0 20 (validatorState exampleEngine)
        = applyEvents exampleHistories exampleEvents 0 20 (validatorState exampleEngine)).
Proof.
  apply (applyEvents_compose exampleHistories exampleEvents 0 12 20); lia.
Defined.

(** ** Where rows come from *)

Section RowsProvenance.
Variable startEpoch : Z.
Variable validators : list string.
Variable validatorHistories : gmap string (list HistoryEntry).
Variable eventsByEpoch : gmap Z (list Event).
Variable epochTimestamps : gmap Z (option string).

Abbreviation pushedAt' := (pushedAt startEpoch validatorHistories epochTimestamps).

Lemma outputRows_new epoch timestamp vs : forall st results,
  exists new,
    (foldl (outputRow startEpoch validatorHistories epochTimestamps epoch timestamp)
       (st, results) vs).2 = results ++ new
    /\ Forall (fun r => exists v, v ∈ vs /\ pushedAt' v epoch timestamp r) new.
Proof.
  induction vs as [|x vs IH]; intros st results.
  - exists []. cbn. rewrite app_nil_r. split; [reflexivity|constructor].
  - cbn [foldl].
    assert (Hstep : exists st1 new1,
               outputRow startEpoch validatorHistories epochTimestamps epoch timestamp
                 (st, results) x = (st1, results ++ new1)
               /\ Forall (pushedAt' x epoch timestamp) new1).
    { unfold outputRow. destruct (st !! x) as [state|].
      - destruct (emitFor _ _ _ _ _ _ _) as [[row state']|] eqn:He.
        + exists (<[x := state']> st), [row]. split; [reflexivity|].
          repeat constructor. exists state, state'. exact He.
        + exists st, []. rewrite app_nil_r. split; [reflexivity|constructor].
      - exists st, []. rewrite app_nil_r. split; [reflexivity|constructor]. }
    destruct Hstep as (st1 & new1 & -> & Hnew1).
    destruct (IH st1 (results ++ new1)) as (new & -> & Hnew).
    exists (new1 ++ new). rewrite app_assoc. split; [reflexivity|].
    apply Forall_app. split.
    + eapply Forall_impl; [exact Hnew1|]. cbn. intros r Hr.
      exists x. split; [apply list_elem_of_here|exact Hr].
    + eapply Forall_impl; [exact Hnew|]. cbn. intros r (v & Hv & Hr).
      exists v. split; [right; exact Hv|exact Hr].
Qed.

Lemma truthy_Some t : truthy t = true -> exists s, t = Some s /\ s <> ""%string.
Proof.
  destruct t as [s|]; [|discriminate]. cbn. intros H. exists s. split; [reflexivity|].
  intros ->. discriminate.
Qed.

Lemma processEpochs_new epochs : forall s,
  exists new,
    results (processEpochs startEpoch validators validatorHistories eventsByEpoch
               epochTimestamps s epochs) = results s ++ new
    /\ Forall (fun r => exists v epoch timestamp,
                          v ∈ validators /\ epoch ∈ epochs
                          /\ tsLookup epochTimestamps epoch = Some timestamp
                          /\ timestamp <> ""%string
                          /\ pushedAt' v epoch timestamp r) new.
Proof.
  unfold processEpochs. induction epochs as [|epoch epochs IH]; intros s.
  - exists []. cbn. rewrite app_nil_r. split; [reflexivity|constructor].
  - cbn [foldl].
    assert (Hstep : exists new1,
               results (processEpoch startEpoch validators validatorHistories eventsByEpoch
                          epochTimestamps s epoch) = results s ++ new1
               /\ Forall (fun r => exists v timestamp,
                                     v ∈ validators
                                     /\ tsLookup epochTimestamps epoch = Some timestamp
                                     /\ timestamp <> ""%string
                                     /\ pushedAt' v epoch timestamp r) new1).
    { unfold processEpoch. destruct (truthy (tsLookup epochTimestamps epoch)) eqn:Ht; cbn [negb].
      - destruct (truthy_Some _ Ht) as (t & Hts & Hne). rewrite Hts. cbn [default from_option id].
        destruct (outputRows_new epoch t validators
                    (applyEvents validatorHistories eventsByEpoch (lastProcessedEpoch s) epoch
                       (validatorState s)) (results s)) as (new1 & Hnew1 & Hall).
        destruct (foldl _ _ validators) as [st2 results2]. cbn [snd] in Hnew1. subst results2.
        exists new1. split; [reflexivity|].
        eapply Forall_impl; [exact Hall|]. cbn. intros r (v & Hv & Hr).
        exists v, t. repeat split; assumption.
      - exists []. rewrite app_nil_r. split; [reflexivity|constructor]. }
    destruct Hstep as (new1 & Hr1 & Hnew1).
    destruct (IH (processEpoch startEpoch validators validatorHistories eventsByEpoch
                    epochTimestamps s epoch)) as (new & -> & Hnew).
    exists (new1 ++ new). rewrite Hr1, app_assoc. split; [reflexivity|].
    apply Forall_app. split.
    + eapply Forall_impl; [exact Hnew1|]. cbn. intros r (v & t & ? & ? & ? & ?).
      exists v, epoch, t. split; [assumption|]. split; [apply list_elem_of_here|].
      repeat split; assumption.
    + eapply Forall_impl; [exact Hnew|]. cbn. intros r (v & ep & t & ? & ? & ? & ? & ?).
      exists v, ep, t. split; [assumption|]. split; [right; assumption|].
      repeat split; assumption.
Qed.
End RowsProvenance.

Lemma validatorsOf_nonempty spv cspv v : v ∈ validatorsOf spv cspv -> v <> ""%string.
Proof.
  unfold validatorsOf. cbn zeta. intros H. apply list_elem_of_In, filter_In in H as [_ H].
  intros ->. discriminate.
Qed.

(** Every row of a run is pushed by the "Output rows" loop for one of the
    validators at a sample whose timestamp is known. *)
Lemma fetchStakingRewardsTest_rows f address startEpoch endEpoch granularity :
  Forall (fun r => exists v epoch timestamp,
            v ∈ validators f address startEpoch endEpoch
            /\ epoch ∈ epochsToProcessOf granularity startEpoch endEpoch
            /\ fetchEpochTimestamp f epoch = Some timestamp
            /\ timestamp <> ""%string
            /\ pushedAt startEpoch (validatorHistories f address startEpoch endEpoch)
                 (epochTimestamps f startEpoch
                    (epochsToProcessOf granularity startEpoch endEpoch))
                 v epoch timestamp r)
    (fetchStakingRewardsTest f address startEpoch endEpoch granularity).
Proof.
  unfold fetchStakingRewardsTest. cbn zeta.
  destruct (processEpochs_new startEpoch (validators f address startEpoch endEpoch)
              (validatorHistories f address startEpoch endEpoch)
              (eventsByEpoch f address startEpoch endEpoch)
              (epochTimestamps f startEpoch (epochsToProcessOf granularity startEpoch endEpoch))
              (epochsToProcessOf granularity startEpoch endEpoch)
              {| validatorState := initialValidatorState f address startEpoch endEpoch;
                 lastProcessedEpoch := startEpoch; results := [] |}) as (new & -> & Hnew).
  cbn [results app]. eapply Forall_impl; [exact Hnew|]. cbn.
  intros r (v & epoch & t & Hv & He & Hts & Hne & Hp).
  exists v, epoch, t. split; [exact Hv|]. split; [exact He|]. split; [|split; assumption].
  rewrite epochTimestamps_lookup, bool_decide_eq_true_2 in Hts by exact He. exact Hts.
Qed.

Lemma rows_provenance_aux f address startEpoch endEpoch granularity :
  Forall (fun r => validator r ∈ validators f address startEpoch endEpoch)
    (fetchStakingRewardsTest f address startEpoch endEpoch granularity).
Proof.
  eapply Forall_impl; [apply fetchStakingRewardsTest_rows|]. cbn.
  intros r (v & epoch & t & Hv & _ & _ & _ & state & state' & He).
  apply emitFor_row in He as (-> & _). exact Hv.
Qed.

(** X14.  Every row of a run belongs to one of the [validators] (never the
    empty address) and closes at one of the samples; that sample's timestamp
    request succeeded with a non-empty timestamp, which the row carries as
    [end_timestamp].  A sample whose timestamp could not be fetched gives no
    rows. *)
Theorem rows_provenance (f : Fetched) (address : string) (startEpoch endEpoch : Z)
  (granularity : string) :
  Forall (fun r =>
            validator r ∈ validators f address startEpoch endEpoch
            /\ validator r <> ""%string
            /\ end_epoch r ∈ epochsToProcessOf granularity startEpoch endEpoch
            /\ fetchEpochTimestamp f (end_epoch r) = Some (end_timestamp r)
            /\ end_timestamp r <> ""%string)
    (fetchStakingRewardsTest f address startEpoch endEpoch granularity).
Proof.
  eapply Forall_impl; [apply fetchStakingRewardsTest_rows|]. cbn.
  intros r (v & epoch & t & Hv & Hep & Hts & Hne & state & state' & He).
  apply emitFor_row in He as (-> & -> & -> & _).
  split; [exact Hv|]. split; [eapply validatorsOf_nonempty; exact Hv|].
  split; [exact Hep|]. split; assumption.
Qed.

(** ** The list of validators *)

Lemma objGet_elem {V : Type} (k : string) (x : V) (o : list (string * V)) :
  NoDup o.*1 -> (objGet k o = Some x <-> (k, x) ∈ o).
Proof.
  induction o as [|[k' v'] o IH]; intros Hnd.
  - cbn. split; [discriminate|]. intros H. inversion H.
  - cbn [fmap list_fmap fst] in Hnd. apply NoDup_cons in Hnd as [Hk' Hnd].
    cbn [objGet]. destruct (String.eqb_spec k k') as [->|Hne].
    + split.
      * intros [= ->]. apply list_elem_of_here.
      * intros H. apply elem_of_cons in H as [[= ->]|H]; [reflexivity|].
        exfalso. apply Hk'. apply list_elem_of_fmap. exists (k', x). split; [reflexivity|exact H].
    + rewrite IH by exact Hnd. split.
      * intros H. right. exact H.
      * intros H. apply elem_of_cons in H as [[= -> ->]|H]; [congruence|exact H].
Qed.

Lemma objGet_is_Some {V : Type} (k : string) (o : list (string * V)) :
  is_Some (objGet k o) <-> k ∈ o.*1.
Proof.
  induction o as [|[k' v'] o IH].
  - cbn. split; [intros [x H]; discriminate|]. intros H. inversion H.
  - cbn [objGet fmap list_fmap fst]. destruct (String.eqb_spec k k') as [->|Hne].
    + split; [intros _; apply list_elem_of_here|]. intros _. eexists. reflexivity.
    + rewrite IH. split; [intros H; right; exact H|].
      intros H. apply elem_of_cons in H as [?|H]; [congruence|exact H].
Qed.

Lemma positive_entries_elem (y : string) (o : list (string * Z)) : forall s0,
  y ∈ foldl (fun s '(validator, shares) => if 0 <? shares then setAdd validator s else s) s0 o
  <-> y ∈ s0 \/ exists shares, (y, shares) ∈ o /\ 0 < shares.
Proof.
  induction o as [|[k x] o IH]; intros s0; cbn [foldl].
  - split; [tauto|]. intros [H|(x & H & _)]; [exact H|inversion H].
  - rewrite IH. destruct (Z.ltb_spec 0 x) as [Hpos|Hnp].
    + rewrite setAdd_elem. split.
      * intros [[->|H]|(x' & H & Hp)].
        -- right. exists x. split; [apply list_elem_of_here|exact Hpos].
        -- left. exact H.
        -- right. exists x'. split; [right; exact H|exact Hp].
      * intros [H|(x' & H & Hp)]; [left; right; exact H|].
        apply elem_of_cons in H as [[= -> ->]|H]; [left; left; reflexivity|].
        right. exists x'. split; assumption.
    + split.
      * intros [H|(x' & H & Hp)]; [left; exact H|].
        right. exists x'. split; [right; exact H|exact Hp].
      * intros [H|(x' & H & Hp)]; [left; exact H|].
        apply elem_of_cons in H as [[= -> ->]|H]; [lia|].
        right. exists x'. split; assumption.
Qed.

Lemma validatorsOf_elem spv cspv v :
  NoDup spv.*1 ->
  v ∈ validatorsOf spv cspv
  <-> v <> ""%string /\ (0 < sharesAt v spv \/ is_Some (objGet v cspv)).
Proof.
  intros Hnd. unfold validatorsOf. cbn zeta.
  rewrite list_elem_of_In, filter_In, <- list_elem_of_In.
  rewrite foldl_setAdd_elem, positive_entries_elem.
  rewrite objGet_is_Some.
  assert (Hne : negb (v =? "")%string = true <-> v <> ""%string).
  { destruct (String.eqb_spec v ""); cbn; split; congruence. }
  rewrite Hne.
  assert (Hpos : (exists shares, (v, shares) ∈ spv /\ 0 < shares) <-> 0 < sharesAt v spv).
  { unfold sharesAt. split.
    - intros (x & Hx & Hp). apply objGet_elem in Hx; [|exact Hnd]. rewrite Hx. exact Hp.
    - intros Hp. destruct (objGet v spv) as [x|] eqn:Hg; [|cbn in Hp; lia].
      exists x. split; [apply objGet_elem; assumption|exact Hp]. }
  rewrite <- Hpos. split.
  - intros [[[H|H]|H] Hv]; [inversion H| |]; tauto.
  - intros [Hv [H|H]]; tauto.
Qed.

Lemma sharesPerValidatorOf_NoDup cspv adds debs :
  NoDup (sharesPerValidatorOf cspv adds debs).*1.
Proof.
  unfold sharesPerValidatorOf. cbn zeta.
  assert (Hcopy : forall (o acc : list (string * Z)), NoDup acc.*1 ->
            NoDup (foldl (fun o '(validator, shares) => objSet validator shares o) acc o).*1).
  { induction o as [|[k x] o IH]; intros acc Hacc; [exact Hacc|].
    cbn [foldl]. apply IH, objSet_NoDup, Hacc. }
  assert (Hadd : forall evs (o : list (string * Z)),
            NoDup o.*1 -> NoDup (foldl reverseAdd o evs).*1).
  { induction evs as [|ev evs IH]; intros o Ho; [exact Ho|].
    cbn [foldl]. apply IH. unfold reverseAdd. cbn zeta.
    destruct (_ <? 0); [apply objSet_NoDup|]; apply objSet_NoDup, Ho. }
  assert (Hdeb : forall evs (o : list (string * Z)),
            NoDup o.*1 -> NoDup (foldl reverseDebond o evs).*1).
  { induction evs as [|ev evs IH]; intros o Ho; [exact Ho|].
    cbn [foldl]. apply IH. unfold reverseDebond. cbn zeta. apply objSet_NoDup, Ho. }
  apply Hdeb, Hadd, Hcopy. constructor.
Qed.

(** X15.  The validators a run processes: an address is in the list exactly
    when it is not empty and either its reconstructed share count at
    [startEpoch] is positive or it has a current delegation; no address is
    listed twice.  A validator that meets neither condition is not processed
    (its events are ignored and it gets no row). *)
Theorem validators_membership (f : Fetched) (address : string) (startEpoch endEpoch : Z)
  (v : string) :
  (v ∈ validators f address startEpoch endEpoch
   <-> v <> ""%string
       /\ (0 < sharesAt v (sharesPerValidator f address startEpoch endEpoch)
           \/ is_Some (objGet v (currentSharesPerValidator f))))
  /\ NoDup (validators f address startEpoch endEpoch)
  /\ (v ∉ validators f address startEpoch endEpoch ->
      forall granularity,
        rowsOf v (fetchStakingRewardsTest f address startEpoch endEpoch granularity) = []).
Proof.
  split; [|split].
  - unfold validators. apply validatorsOf_elem. apply sharesPerValidatorOf_NoDup.
  - apply validators_NoDup.
  - intros Hv g.
    pose proof (rows_provenance_aux f address startEpoch endEpoch g) as Hall.
    unfold rowsOf. induction Hall as [|r rows Hr _ IH]; [reflexivity|].
    cbn [List.filter]. destruct (String.eqb_spec (validator r) v) as [<-|_]; [|exact IH].
    contradiction.
Qed.

(** ** Events by epoch *)

Lemma pushEvent_lookup startEpoch mk m ev e :
  pushEvent startEpoch mk m ev !! e
  = if bool_decide (orNum (body_epoch ev) startEpoch = e)
    then Some (default [] (m !! e) ++ [mk ev]) else m !! e.
Proof.
  unfold pushEvent. cbn zeta. case_bool_decide as Hk.
  - subst e. rewrite lookup_insert_eq. reflexivity.
  - rewrite lookup_insert_ne by exact Hk. reflexivity.
Qed.

Lemma pushEvents_lookup startEpoch mk evs : forall m e,
  default [] (foldl (pushEvent startEpoch mk) m evs !! e)
  = default [] (m !! e)
    ++ (mk <$> List.filter (fun ev => orNum (body_epoch ev) startEpoch =? e) evs).
Proof.
  induction evs as [|ev evs IH]; intros m e; cbn [foldl List.filter].
  - cbn. rewrite app_nil_r. reflexivity.
  - rewrite IH, pushEvent_lookup.
    destruct (Z.eqb_spec (orNum (body_epoch ev) startEpoch) e) as [He|He].
    + rewrite bool_decide_eq_true_2 by exact He. cbn [default from_option id fmap list_fmap].
      rewrite <- app_assoc. reflexivity.
    + rewrite bool_decide_eq_false_2 by exact He. reflexivity.
Qed.

Lemma pushEvents_is_Some startEpoch mk evs : forall m e,
  is_Some (foldl (pushEvent startEpoch mk) m evs !! e)
  -> is_Some (m !! e) \/ exists ev, ev ∈ evs /\ orNum (body_epoch ev) startEpoch = e.
Proof.
  induction evs as [|ev evs IH]; intros m e; cbn [foldl]; [tauto|].
  intros H. apply IH in H as [H|(ev' & Hin & Hk)].
  - rewrite pushEvent_lookup in H. case_bool_decide as Hk.
    + right. exists ev. split; [apply list_elem_of_here|exact Hk].
    + left. exact H.
  - right. exists ev'. split; [right; exact Hin|exact Hk].
Qed.

Lemma relevant_epoch normalizedAddress startEpoch endEpoch ev :
  0 <= startEpoch ->
  relevant normalizedAddress startEpoch endEpoch ev = true ->
  exists z, body_epoch ev = Some z /\ startEpoch < z <= endEpoch
            /\ orNum (body_epoch ev) startEpoch = z
            /\ normalizeAddress (owner ev) = normalizedAddress.
Proof.
  intros Hs. unfold relevant.
  destruct (String.eqb_spec (normalizeAddress (owner ev)) normalizedAddress) as [Ho|Ho];
    cbn [negb]; [|discriminate].
  cbn zeta. intros H. apply andb_true_iff in H as [H1 H2].
  apply Z.ltb_lt in H1. apply Z.leb_le in H2.
  destruct (body_epoch ev) as [z|]; [|cbn in H1; lia].
  exists z. destruct z; cbn in *; try lia; repeat split; try lia; try reflexivity; exact Ho.
Qed.

Lemma filter_relevant_by_epoch normalizedAddress startEpoch endEpoch evs e :
  0 <= startEpoch ->
  List.filter (fun ev => orNum (body_epoch ev) startEpoch =? e)
    (List.filter (relevant normalizedAddress startEpoch endEpoch) evs)
  = List.filter (fun ev => bool_decide (body_epoch ev = Some e))
      (List.filter (relevant normalizedAddress startEpoch endEpoch) evs).
Proof.
  intros Hs. apply filter_ext_in. intros ev Hin. apply filter_In in Hin as [_ Hrel].
  destruct (relevant_epoch _ _ _ _ Hs Hrel) as (z & Hz & _ & Hor & _).
  rewrite Hor, Hz. destruct (Z.eqb_spec z e) as [->|Hne].
  - rewrite bool_decide_eq_true_2; reflexivity.
  - rewrite bool_decide_eq_false_2; [reflexivity|]. congruence.
Qed.

(** X16.  [eventsByEpoch] for [startEpoch >= 0]: under an epoch are filed
    exactly the relevant events of that epoch, all Adds before all Debonds
    and otherwise in the order of the fetched lists; nothing is lost or
    filed twice; the relevant events are those of the account with an epoch
    in [(startEpoch, endEpoch]], so every key lies in that range and is
    reached by the "Apply events" loop of a run that ends at [endEpoch]. *)
Theorem eventsByEpoch_grouping (f : Fetched) (address : string) (startEpoch endEpoch : Z) :
  0 <= startEpoch ->
  (forall e,
      default [] (eventsByEpoch f address startEpoch endEpoch !! e)
      = (addEventOf <$> List.filter (fun ev => bool_decide (body_epoch ev = Some e))
                          (relevantAddEvents f address startEpoch endEpoch))
        ++ (debondEventOf <$> List.filter (fun ev => bool_decide (body_epoch ev = Some e))
                                (relevantDebondEvents f address startEpoch endEpoch)))
  /\ (forall e, is_Some (eventsByEpoch f address startEpoch endEpoch !! e) ->
                startEpoch < e <= endEpoch)
  /\ (forall ev,
        ev ∈ relevantAddEvents f address startEpoch endEpoch ++
             relevantDebondEvents f address startEpoch endEpoch
        <-> ev ∈ addEscrowEvents f ++ debondingEvents f
            /\ normalizeAddress (owner ev) = normalizeAddress (Some address)
            /\ exists z, body_epoch ev = Some z /\ startEpoch < z <= endEpoch).
Proof.
  intros Hs. split; [|split].
  - intros e. unfold eventsByEpoch, eventsByEpochOf.
    rewrite !pushEvents_lookup, lookup_empty. cbn [default from_option id app].
    unfold relevantAddEvents, relevantDebondEvents.
    rewrite !filter_relevant_by_epoch by exact Hs. reflexivity.
  - intros e H. unfold eventsByEpoch, eventsByEpochOf in H.
    apply pushEvents_is_Some in H as [H|(ev & Hin & Hk)].
    + apply pushEvents_is_Some in H as [H|(ev & Hin & Hk)].
      * rewrite lookup_empty in H. destruct H as [? H]. discriminate.
      * apply list_elem_of_In, filter_In in Hin as [_ Hrel].
        destruct (relevant_epoch _ _ _ _ Hs Hrel) as (z & _ & Hz & Hor & _). lia.
    + apply list_elem_of_In, filter_In in Hin as [_ Hrel].
      destruct (relevant_epoch _ _ _ _ Hs Hrel) as (z & _ & Hz & Hor & _). lia.
  - intros ev. unfold relevantAddEvents, relevantDebondEvents.
    rewrite !elem_of_app, !list_elem_of_In, !filter_In.
    assert (Hrel : relevant (normalizeAddress (Some address)) startEpoch endEpoch ev = true
                   <-> normalizeAddress (owner ev) = normalizeAddress (Some address)
                       /\ exists z, body_epoch ev = Some z /\ startEpoch < z <= endEpoch).
    { split.
      - intros H. destruct (relevant_epoch _ _ _ _ Hs H) as (z & Hz & Hr & _ & Ho).
        split; [exact Ho|]. exists z. split; assumption.
      - intros (Ho & z & Hz & Hr). unfold relevant. rewrite Ho, String.eqb_refl, Hz.
        cbn [negb]. cbn zeta.
        assert (Hor : orNum (Some z) 0 = z) by (destruct z; reflexivity).
        rewrite Hor. apply andb_true_iff. split; [apply Z.ltb_lt|apply Z.leb_le]; lia. }
    rewrite Hrel. tauto.
Qed.

Lemma eventsByEpoch_grouping_witness :
  (forall e,
      default [] (eventsByEpoch exampleFetched "addr" 0 24 !! e)
      = (addEventOf <$> List.filter (fun ev => bool_decide (body_epoch ev = Some e))
                          (relevantAddEvents exampleFetched "addr" 0 24))
        ++ (debondEventOf <$> List.filter (fun ev => bool_decide (body_epoch ev = Some e))
                                (relevantDebondEvents exampleFetched "addr" 0 24)))
  /\ (forall e, is_Some (eventsByEpoch exampleFetched "addr" 0 24 !! e) -> 0 < e <= 24)
  /\ (forall ev,
        ev ∈ relevantAddEvents exampleFetched "addr" 0 24 ++
             relevantDebondEvents exampleFetched "addr" 0 24
        <-> ev ∈ addEscrowEvents exampleFetched ++ debondingEvents exampleFetched
            /\ normalizeAddress (owner ev) = normalizeAddress (Some "addr"%string)
            /\ exists z, body_epoch ev = Some z /\ 0 < z <= 24).
Proof. apply (eventsByEpoch_grouping exampleFetched "addr" 0 24). lia. Defined.

(* ===================================================================== *)
(** * Further properties: the rows of a run                                *)
(* ===================================================================== *)

Lemma emitFor_fields startEpoch startTs epoch timestamp v history state row state' :
  emitFor startEpoch startTs epoch timestamp v history state = Some (row, state') ->
  exists historyEntry,
    findHistoryEntryForEpoch history epoch = Some historyEntry
    /\ _prevTotalValue row = prevTotalValue state
    /\ _totalValue row = calculateTotalValue (shares state) (Some historyEntry)
    /\ _periodDelegationValue row = periodDelegationValue state
    /\ _periodUndelegationValue row = periodUndelegationValue state
    /\ row_shares row = Format.toString (shares state)
    /\ share_price row = Format.toRose (calculateShareValue historyEntry) 18
    /\ delegation_value row = Format.toRose (_totalValue row) 0
    /\ rewards row
       = Format.toRose (_totalValue row - _prevTotalValue row - _periodDelegationValue row
                        + _periodUndelegationValue row) 0
    /\ prevTotalValue state' = _totalValue row.
Proof.
  unfold emitFor. destruct ((shares state =? 0) && (prevTotalValue state =? 0)); [discriminate|].
  destruct (findHistoryEntryForEpoch history epoch) as [h|]; [|discriminate].
  cbn zeta. intros [= <- <-]. exists h. cbn. repeat split; reflexivity.
Qed.

Lemma validatorHistories_lookup f address startEpoch endEpoch v :
  validatorHistories f address startEpoch endEpoch !! v
  = if bool_decide (v ∈ validators f address startEpoch endEpoch)
    then Some (sortByEpoch (fetchedHistory f v)) else None.
Proof.
  unfold validatorHistories.
  generalize (validators f address startEpoch endEpoch) as vs.
  assert (H : forall vs (m : gmap string (list HistoryEntry)),
             foldl (fun m validator => <[validator := sortByEpoch (fetchedHistory f validator)]> m)
               m vs !! v
             = if bool_decide (v ∈ vs)
               then Some (sortByEpoch (fetchedHistory f v)) else m !! v).
  { induction vs as [|x vs IH]; intros m; [reflexivity|].
    cbn [foldl]. rewrite IH. destruct (decide (v ∈ vs)) as [Hin|Hout].
    - rewrite !bool_decide_eq_true_2; [reflexivity | right; exact Hin | exact Hin].
    - rewrite (bool_decide_eq_false_2 _ Hout).
      destruct (decide (v = x)) as [->|Hne].
      + rewrite lookup_insert_eq, bool_decide_eq_true_2 by apply list_elem_of_here. reflexivity.
      + rewrite lookup_insert_ne by congruence.
        rewrite bool_decide_eq_false_2; [reflexivity|].
        intros Hc. apply elem_of_cons in Hc as [?|?]; congruence. }
  intros vs. rewrite H. rewrite lookup_empty. reflexivity.
Qed.

(** X17.  The text columns of every row stand for the integers of its debug
    fields: [rewards] reads back as
    [_totalValue - _prevTotalValue - _periodDelegationValue + _periodUndelegationValue],
    [delegation_value] as [_totalValue], [shares] is the decimal form of a
    share count whose value at the snapshot located at the row's sample (in
    the validator's sorted history) is [_totalValue], and [share_price] reads
    back, at 27 decimals, as that snapshot's share value. *)
Theorem row_columns (f : Fetched) (address : string) (startEpoch endEpoch : Z)
  (granularity : string) :
  Forall (fun r =>
            Format.parseRose Format.ROSE_DECIMALS (rewards r)
            = Some (_totalValue r - _prevTotalValue r - _periodDelegationValue r
                    + _periodUndelegationValue r)
            /\ Format.parseRose Format.ROSE_DECIMALS (delegation_value r)
               = Some (_totalValue r)
            /\ exists historyEntry userShares,
                 findHistoryEntryForEpoch (sortByEpoch (fetchedHistory f (validator r)))
                   (end_epoch r) = Some historyEntry
                 /\ row_shares r = Format.toString userShares
                 /\ _totalValue r = calculateTotalValue userShares (Some historyEntry)
                 /\ Format.parseRose (Format.ROSE_DECIMALS + 18) (share_price r)
                    = Some (calculateShareValue historyEntry))
    (fetchStakingRewardsTest f address startEpoch endEpoch granularity).
Proof.
  eapply Forall_impl; [apply fetchStakingRewardsTest_rows|]. cbn.
  intros r (v & epoch & t & Hv & _ & _ & _ & state & state' & He).
  pose proof (emitFor_row _ _ _ _ _ _ _ _ _ He) as (Hrv & Hre & _).
  apply emitFor_fields in He as (h & Hh & Hp & Ht & Hd & Hu & Hs & Hsp & Hdv & Hrw & _).
  rewrite validatorHistories_lookup, bool_decide_eq_true_2 in Hh by exact Hv.
  cbn [default from_option id] in Hh.
  split; [|split].
  - rewrite Hrw. apply (parseRose_toRose _ 0). lia.
  - rewrite Hdv. apply (parseRose_toRose _ 0). lia.
  - exists h, (shares state). rewrite Hrv, Hre. split; [exact Hh|]. split; [exact Hs|].
    split; [exact Ht|]. rewrite Hsp. apply parseRose_toRose. lia.
Qed.

(** ** The chain of a validator's rows *)

Lemma chained_snoc prev rows r :
  chained prev (rows ++ [r])
  <-> chained prev rows /\ _prevTotalValue r = closingValue prev rows.
Proof.
  revert prev. induction rows as [|x rows IH]; intros prev.
  - cbn. tauto.
  - cbn [app chained]. rewrite IH.
    assert (Hc : closingValue prev (x :: rows) = closingValue (_totalValue x) rows).
    { unfold closingValue. destruct rows as [|y rows]; [reflexivity|].
      rewrite last_cons_cons. destruct (last (y :: rows)) eqn:Hl; [reflexivity|].
      apply last_None in Hl. discriminate. }
    rewrite Hc. tauto.
Qed.

Lemma closingValue_snoc prev rows r : closingValue prev (rows ++ [r]) = _totalValue r.
Proof. unfold closingValue. rewrite last_snoc. reflexivity. Qed.

Lemma totalOf_sumZ rows :
  totalOf rows = sumZ ((fun r => _totalValue r - _prevTotalValue r) <$> rows).
Proof.
  unfold totalOf.
  assert (H : forall acc, foldl (fun total row => total + (_totalValue row - _prevTotalValue row))
                            acc rows
                          = acc + sumZ ((fun r => _totalValue r - _prevTotalValue r) <$> rows)).
  { induction rows as [|r rows IH]; intros acc; cbn [foldl fmap list_fmap].
    - unfold sumZ. cbn. lia.
    - rewrite IH, sumZ_cons. lia. }
  rewrite H. lia.
Qed.

Lemma chained_totalOf rows : forall prev,
  chained prev rows -> totalOf rows = closingValue prev rows - prev.
Proof.
  induction rows as [|r rows IH] using rev_ind; intros prev Hc.
  - unfold totalOf, closingValue. cbn. lia.
  - apply chained_snoc in Hc as [Hc Hp].
    rewrite totalOf_sumZ, fmap_app, sumZ_app, <- totalOf_sumZ, (IH prev Hc).
    rewrite closingValue_snoc. cbn [fmap list_fmap]. rewrite sumZ_cons. unfold sumZ at 1.
    cbn [foldr]. lia.
Qed.

Section LocalChain.
Variable startEpoch : Z.
Variable validators : list string.
Variable validatorHistories : gmap string (list HistoryEntry).
Variable eventsByEpoch : gmap Z (list Event).
Variable epochTimestamps : gmap Z (option string).
Variable v : string.

Lemma localEmit_fields epoch timestamp o :
  localEmit startEpoch validators validatorHistories epochTimestamps v epoch timestamp o = (o, [])
  \/ exists state historyEntry row state',
       o = Some state
       /\ findHistoryEntryForEpoch (default [] (validatorHistories !! v)) epoch = Some historyEntry
       /\ localEmit startEpoch validators validatorHistories epochTimestamps v epoch timestamp o
          = (Some state', [row])
       /\ end_epoch row = epoch
       /\ _prevTotalValue row = prevTotalValue state
       /\ _totalValue row = calculateTotalValue (shares state) (Some historyEntry)
       /\ prevTotalValue state' = _totalValue row.
Proof.
  unfold localEmit. case_bool_decide as Hin; [|left; reflexivity].
  destruct o as [state|]; [|left; reflexivity].
  destruct (emitFor _ _ _ _ _ _ _) as [[row state']|] eqn:He; [|left; reflexivity].
  right. pose proof (emitFor_row _ _ _ _ _ _ _ _ _ He) as (_ & Hee & _).
  apply emitFor_fields in He as (h & Hh & Hp & Ht & _ & _ & _ & _ & _ & _ & Hs').
  exists state, h, row, state'. repeat (split; [first [reflexivity | assumption]|]).
  exact Hs'.
Qed.

Lemma localStep_chain prev s epoch :
  chainInv prev s ->
  chainInv prev
    (localStep startEpoch validators validatorHistories eventsByEpoch epochTimestamps v s epoch).
Proof.
  destruct s as [[o last] rows]. intros [Hc Hp]. cbn [fst snd] in *.
  unfold localStep. destruct (truthy (tsLookup epochTimestamps epoch)); cbn [negb];
    [|split; assumption].
  pose proof (localEvents_prev validatorHistories eventsByEpoch v last epoch o) as Hprev.
  destruct (localEmit_fields epoch (default ""%string (tsLookup epochTimestamps epoch))
              (localEvents validatorHistories eventsByEpoch v last epoch o))
    as [->|(state & h & row & state' & Ho & _ & -> & _ & Hrp & _ & Hs')].
  - split; cbn [fst snd]; rewrite app_nil_r; [exact Hc|].
    intros state Hst. rewrite Hst in Hprev. destruct o as [st0|]; [|discriminate].
    cbn in Hprev. injection Hprev as Hprev. rewrite Hprev. apply Hp. reflexivity.
  - split; cbn [fst snd].
    + apply chained_snoc. split; [exact Hc|]. rewrite Hrp.
      rewrite Ho in Hprev. destruct o as [st0|]; [|discriminate].
      cbn in Hprev. injection Hprev as Hprev. rewrite Hprev. apply Hp. reflexivity.
    + intros st [= <-]. rewrite closingValue_snoc. exact Hs'.
Qed.

Lemma localRun_chain prev l : forall s,
  chainInv prev s ->
  chainInv prev
    (foldl (localStep startEpoch validators validatorHistories eventsByEpoch epochTimestamps v)
       s l).
Proof.
  induction l as [|x l IH]; intros s Hs; [exact Hs|].
  cbn [foldl]. apply IH, localStep_chain, Hs.
Qed.

(** The step at the closing sample, when it emits a row for [v]: the row
    closes at the value of the share count reached by the state that has
    seen the same events and emitted nothing. *)
Lemma localStep_closing_value k o last rows ref epoch :
  tracks k (localEvents validatorHistories eventsByEpoch v last epoch o) ref ->
  Forall (fun r => end_epoch r <> epoch) rows ->
  (exists r,
      r ∈ (localStep startEpoch validators validatorHistories eventsByEpoch epochTimestamps v
             (o, last, rows) epoch).2 /\ end_epoch r = epoch) ->
  exists b h row,
    ref = Some b
    /\ findHistoryEntryForEpoch (default [] (validatorHistories !! v)) epoch = Some h
    /\ (localStep startEpoch validators validatorHistories eventsByEpoch epochTimestamps v
          (o, last, rows) epoch).2 = rows ++ [row]
    /\ _totalValue row = calculateTotalValue (shares b) (Some h).
Proof.
  intros Htr Hold (r & Hr & He). unfold localStep in *.
  destruct (truthy (tsLookup epochTimestamps epoch)); cbn [negb] in *.
  - destruct (localEmit_fields epoch (default ""%string (tsLookup epochTimestamps epoch))
                (localEvents validatorHistories eventsByEpoch v last epoch o))
      as [Hnone|(state & h & row & state' & Ho & Hh & Hemit & _ & _ & Htot & _)].
    + rewrite Hnone in Hr. cbn [snd] in Hr. rewrite app_nil_r in Hr.
      rewrite Forall_forall in Hold. exfalso. exact (Hold r Hr He).
    + rewrite Hemit. cbn [snd]. rewrite Ho in Htr.
      destruct ref as [b|]; [|contradiction]. cbn in Htr. destruct Htr as [Hs Hk].
      exists b, h, row. repeat (split; [first [reflexivity | assumption]|]).
      rewrite Htot. unfold calculateTotalValue. rewrite Hs. reflexivity.
  - cbn [snd] in Hr. rewrite Forall_forall in Hold. exfalso. exact (Hold r Hr He).
Qed.
End LocalChain.

Lemma rowsOf_chained f address startEpoch endEpoch granularity v :
  chained (initialTotalValueOf f address startEpoch endEpoch v)
    (rowsOf v (fetchStakingRewardsTest f address startEpoch endEpoch granularity)).
Proof.
  rewrite fetchStakingRewardsTest_local.
  apply (localRun_chain startEpoch (validators f address startEpoch endEpoch)
           (validatorHistories f address startEpoch endEpoch)
           (eventsByEpoch f address startEpoch endEpoch)
           (epochTimestamps f startEpoch (epochsToProcessOf granularity startEpoch endEpoch))
           v (initialTotalValueOf f address startEpoch endEpoch v)
           (epochsToProcessOf granularity startEpoch endEpoch)).
  split; cbn [fst snd]; [exact I|].
  intros state Hst. rewrite initialValidatorState_lookup in Hst.
  case_bool_decide; [|discriminate]. injection Hst as <-. reflexivity.
Qed.

(** X18.  The rows of a validator form a chain: the first one starts from
    the validator's initial value, every later one starts from the value
    ([_totalValue]) at which the previous one closed.  Hence the value
    changes [_totalValue - _prevTotalValue] of the validator's rows add up to
    the closing value of its last row minus its initial value, whatever the
    number of samples. *)
Theorem rows_chained (f : Fetched) (address : string) (startEpoch endEpoch : Z)
  (granularity v : string) :
  chained (initialTotalValueOf f address startEpoch endEpoch v)
    (rowsOf v (fetchStakingRewardsTest f address startEpoch endEpoch granularity))
  /\ totalOf (rowsOf v (fetchStakingRewardsTest f address startEpoch endEpoch granularity))
     = closingValue (initialTotalValueOf f address startEpoch endEpoch v)
         (rowsOf v (fetchStakingRewardsTest f address startEpoch endEpoch granularity))
       - initialTotalValueOf f address startEpoch endEpoch v.
Proof.
  pose proof (rowsOf_chained f address startEpoch endEpoch granularity v) as Hc.
  split; [exact Hc|]. apply chained_totalOf. exact Hc.
Qed.

(** ** The totals compared by [main] *)

Lemma sumZ_pick (x : string) (a : Z) (F : string -> Z) (vs : list string) :
  NoDup vs ->
  sumZ ((fun v => if String.eqb x v then a + F v else F v) <$> vs)
  = (if bool_decide (x ∈ vs) then a else 0) + sumZ (F <$> vs).
Proof.
  induction vs as [|y vs IH]; intros Hnd.
  - cbn. reflexivity.
  - apply NoDup_cons in Hnd as [Hy Hnd]. cbn [fmap list_fmap]. rewrite !sumZ_cons.
    change (list_fmap _ _ ?g vs) with (g <$> vs). rewrite (IH Hnd).
    destruct (String.eqb_spec x y) as [->|Hne].
    + rewrite (bool_decide_eq_false_2 _ Hy).
      rewrite bool_decide_eq_true_2 by apply list_elem_of_here. lia.
    + destruct (decide (x ∈ vs)) as [Hin|Hout].
      * rewrite !bool_decide_eq_true_2; [lia | right; exact Hin | exact Hin].
      * rewrite !bool_decide_eq_false_2; [lia | | exact Hout].
        intros Hc. apply elem_of_cons in Hc as [?|?]; congruence.
Qed.

Lemma totalOf_by_validator (vs : list string) (rows : list Row) :
  NoDup vs ->
  Forall (fun r => validator r ∈ vs) rows ->
  totalOf rows = sumZ ((fun v => totalOf (rowsOf v rows)) <$> vs).
Proof.
  intros Hnd Hall. induction Hall as [|r rows Hr _ IH].
  - rewrite totalOf_sumZ. cbn [fmap list_fmap]. unfold rowsOf. cbn [List.filter].
    induction vs as [|v vs IHv]; [reflexivity|].
    apply NoDup_cons in Hnd as [_ Hnd]. cbn [fmap list_fmap]. rewrite sumZ_cons, <- (IHv Hnd).
    reflexivity.
  - rewrite totalOf_sumZ. cbn [fmap list_fmap]. rewrite sumZ_cons, <- totalOf_sumZ, IH.
    pose proof (sumZ_pick (validator r) (_totalValue r - _prevTotalValue r)
                  (fun v => totalOf (rowsOf v rows)) vs Hnd) as Hpick.
    rewrite (bool_decide_eq_true_2 _ Hr) in Hpick. rewrite <- Hpick. f_equal.
    apply list_fmap_ext. intros _ v _. unfold rowsOf. cbn [List.filter].
    destruct (String.eqb (validator r) v); [|reflexivity].
    rewrite !totalOf_sumZ. cbn [fmap list_fmap]. rewrite sumZ_cons. reflexivity.
Qed.

(** When a run emits a row for [v] at [endEpoch], that row is the last one
    of [v] and closes at the validator's final value. *)
Lemma closing_row_value f address startEpoch endEpoch granularity v prev :
  emittedAt v endEpoch (fetchStakingRewardsTest f address startEpoch endEpoch granularity) ->
  closingValue prev
    (rowsOf v (fetchStakingRewardsTest f address startEpoch endEpoch granularity))
  = finalTotalValueOf f address startEpoch endEpoch v.
Proof.
  intros Hem. apply emittedAt_rowsOf in Hem.
  rewrite fetchStakingRewardsTest_local in *.
  set (ts := epochTimestamps f startEpoch (epochsToProcessOf granularity startEpoch endEpoch)) in *.
  set (vs := validators f address startEpoch endEpoch) in *.
  set (hist := validatorHistories f address startEpoch endEpoch) in *.
  set (evs := eventsByEpoch f address startEpoch endEpoch) in *.
  set (o0 := initialValidatorState f address startEpoch endEpoch !! v) in *.
  destruct (epochsToProcessOf_shape granularity startEpoch endEpoch) as (init & Hshape & Hasc & Hb).
  rewrite Hshape, foldl_app in *. cbn [foldl] in *.
  destruct (localRun_tracks startEpoch vs hist evs ts v init o0 startEpoch [] o0)
    as (o' & last' & rows' & Hf & Htr & Hlast).
  { apply strictlyAscending_cons. split.
    - eapply Forall_impl; [exact Hb|]. cbn. intros; lia.
    - eapply strictlyAscending_app_inv, Hasc. }
  { apply tracks_refl. }
  destruct (localRun_rows startEpoch vs hist evs ts v init o0 startEpoch [])
    as (o'' & last'' & new & Hf' & Hsub & _).
  rewrite Hf in Hf'. injection Hf' as _ _ Hrows. cbn [app] in Hrows.
  rewrite Hf in *.
  assert (Hold : Forall (fun r => end_epoch r <> endEpoch) rows').
  { apply Forall_forall. intros r Hr He.
    assert (Hin : end_epoch r ∈ init).
    { eapply elem_of_sublist; [|exact Hsub]. apply list_elem_of_fmap.
      exists r. split; [reflexivity|]. rewrite <- Hrows. exact Hr. }
    rewrite Forall_forall in Hb. specialize (Hb _ Hin). cbn in Hb. lia. }
  assert (Href : localEvents hist evs v last' endEpoch (localEvents hist evs v startEpoch last' o0)
                 = referenceState f address startEpoch endEpoch v).
  { unfold referenceState. fold hist evs o0.
    destruct Hlast as [->|Hin].
    - rewrite localEvents_refl. reflexivity.
    - rewrite Forall_forall in Hb. specialize (Hb _ Hin). cbn in Hb.
      apply localEvents_compose; lia. }
  destruct (localStep_closing_value startEpoch vs hist evs ts v (sumZ (rewardOf <$> rows'))
              o' last' rows' (referenceState f address startEpoch endEpoch v) endEpoch)
    as (b & h & row & Hb1 & Hh & Hrows' & Htot).
  { rewrite <- Href. apply localEvents_tracks. exact Htr. }
  { exact Hold. }
  { exact Hem. }
  rewrite Hrows', closingValue_snoc, Htot.
  unfold finalTotalValueOf. rewrite Hb1. fold hist. rewrite Hh. reflexivity.
Qed.

Lemma totalOf_run f address startEpoch endEpoch granularity :
  (forall v, v ∈ validators f address startEpoch endEpoch ->
     emittedAt v endEpoch (fetchStakingRewardsTest f address startEpoch endEpoch granularity)) ->
  totalOf (fetchStakingRewardsTest f address startEpoch endEpoch granularity)
  = sumZ ((fun v => finalTotalValueOf f address startEpoch endEpoch v
                    - initialTotalValueOf f address startEpoch endEpoch v)
            <$> validators f address startEpoch endEpoch).
Proof.
  intros Hem.
  rewrite (totalOf_by_validator (validators f address startEpoch endEpoch));
    [| apply validators_NoDup | apply rows_provenance_aux].
  f_equal. apply Forall_fmap_ext_1. apply Forall_forall. intros v Hv.
  rewrite (chained_totalOf _ _ (rowsOf_chained f address startEpoch endEpoch granularity v)).
  rewrite (closing_row_value _ _ _ _ _ _ _ (Hem v Hv)). reflexivity.
Qed.

(** X19.  The comparison made by [main] of the implementation test script:
    it adds [_totalValue - _prevTotalValue] over all rows of the monthly run
    and of the yearly run.  If each run emits, for every validator, a row at
    [endEpoch], the two totals are equal, and equal to the sum over the
    validators of final value minus initial value. *)
Theorem main_totals_match (f : Fetched) (address : string) (startEpoch endEpoch : Z) :
  (forall v, v ∈ validators f address startEpoch endEpoch ->
     emittedAt v endEpoch (fetchStakingRewardsTest f address startEpoch endEpoch "month")) ->
  (forall v, v ∈ validators f address startEpoch endEpoch ->
     emittedAt v endEpoch (fetchStakingRewardsTest f address startEpoch endEpoch "year")) ->
  totalOf (fetchStakingRewardsTest f address startEpoch endEpoch "month")
  = totalOf (fetchStakingRewardsTest f address startEpoch endEpoch "year")
  /\ totalOf (fetchStakingRewardsTest f address startEpoch endEpoch "year")
     = sumZ ((fun v => finalTotalValueOf f address startEpoch endEpoch v
                       - initialTotalValueOf f address startEpoch endEpoch v)
               <$> validators f address startEpoch endEpoch).
Proof.
  intros Hm Hy. rewrite (totalOf_run _ _ _ _ _ Hm), (totalOf_run _ _ _ _ _ Hy).
  split; reflexivity.
Qed.

Lemma exampleFetched_validators v :
  v ∈ validators exampleFetched "addr" 0 24 -> v = "v"%string.
Proof.
  intros H. assert (Hvs : validators exampleFetched "addr" 0 24 = ["v"%string])
    by (vm_compute; reflexivity).
  rewrite Hvs in H. apply list_elem_of_singleton in H. exact H.
Qed.

Lemma main_totals_match_witness :
  totalOf (fetchStakingRewardsTest exampleFetched "addr" 0 24 "month")
  = totalOf (fetchStakingRewardsTest exampleFetched "addr" 0 24 "year")
  /\ totalOf (fetchStakingRewardsTest exampleFetched "addr" 0 24 "year")
     = sumZ ((fun v => finalTotalValueOf exampleFetched "addr" 0 24 v
                       - initialTotalValueOf exampleFetched "addr" 0 24 v)
               <$> validators exampleFetched "addr" 0 24).
Proof.
  apply (main_totals_match exampleFetched "addr" 0 24).
  - intros v Hv. apply exampleFetched_validators in Hv. subst v.
    apply emittedAt_check. vm_compute. reflexivity.
  - intros v Hv. apply exampleFetched_validators in Hv. subst v.
    apply emittedAt_check. vm_compute. reflexivity.
Defined.

(* ===================================================================== *)
(** * Further properties: [main] of the monthly integration script        *)
(* ===================================================================== *)

Lemma sampleLoop_acc totalEpochs endEpoch (n : nat) : forall e acc,
  (Z.to_nat (endEpoch - e + 1) <= n)%nat ->
  sampleLoop totalEpochs e endEpoch acc = acc ++ sampleLoop totalEpochs e endEpoch [].
Proof.
  pose proof (sampleStep_pos totalEpochs) as Hstep.
  induction n as [|n IH]; intros e acc Hn.
  - rewrite (sampleLoop_step _ e endEpoch acc), (sampleLoop_step _ e endEpoch []).
    destruct (Z_le_gt_dec e endEpoch); [lia|]. rewrite app_nil_r. reflexivity.
  - rewrite (sampleLoop_step _ e endEpoch acc), (sampleLoop_step _ e endEpoch []).
    destruct (Z_le_gt_dec e endEpoch); [|rewrite app_nil_r; reflexivity].
    rewrite (IH _ (acc ++ [e])) by lia. rewrite (IH _ ([] ++ [e])) by lia.
    rewrite <- app_assoc. reflexivity.
Qed.

Lemma monthly_samples START_EPOCH END_EPOCH :
  MonthlyMain.epochsToProcessOf START_EPOCH END_EPOCH
  = if START_EPOCH =? END_EPOCH then [START_EPOCH]
    else START_EPOCH :: epochsToProcessOf "month" START_EPOCH END_EPOCH.
Proof.
  unfold MonthlyMain.epochsToProcessOf. cbn zeta.
  rewrite (sampleLoop_acc _ _ _ _ _ (Nat.le_refl _)), sampleLoop_stepped.
  rewrite (epochsToProcessOf_month "month") by discriminate.
  destruct (steppedSamples START_EPOCH END_EPOCH) as [|x l] eqn:Hs.
  - cbn [app last]. rewrite bool_decide_eq_false_2 by discriminate.
    destruct (Z.eqb_spec START_EPOCH END_EPOCH); reflexivity.
  - change ([START_EPOCH] ++ x :: l) with (START_EPOCH :: x :: l).
    rewrite last_cons_cons.
    assert (Hne : START_EPOCH <> END_EPOCH).
    { intros ->. assert (Hx : x ∈ steppedSamples END_EPOCH END_EPOCH)
        by (rewrite Hs; apply list_elem_of_here).
      apply steppedSamples_elem in Hx as (k & Hk & -> & Hle).
      pose proof (sampleStep_pos (END_EPOCH - END_EPOCH + 1)). unfold sampleStep in *. nia. }
    destruct (Z.eqb_spec START_EPOCH END_EPOCH) as [|_]; [contradiction|].
    destruct (last (x :: l)) as [y|] eqn:Hl.
    + destruct (Z.eqb_spec y END_EPOCH) as [->|Hy].
      * rewrite bool_decide_eq_true_2 by reflexivity. reflexivity.
      * rewrite bool_decide_eq_false_2 by congruence. reflexivity.
    + apply last_None in Hl. discriminate.
Qed.

Lemma monthStep_run f VALIDATOR userShares l : forall prev total,
  foldl (MonthlyMain.monthStep f VALIDATOR userShares) (Some prev, total) l
  = (Some (default prev
             ((fun e => calculateTotalValue userShares (fetchHistoryAtEpoch f VALIDATOR e))
                <$> last l)),
     total
     + (default prev
          ((fun e => calculateTotalValue userShares (fetchHistoryAtEpoch f VALIDATOR e))
             <$> last l))
     - prev).
Proof.
  induction l as [|x l IH]; intros prev total.
  - cbn. f_equal. lia.
  - cbn [foldl MonthlyMain.monthStep]. rewrite IH. destruct l as [|y l].
    + cbn. f_equal. lia.
    + rewrite last_cons_cons. destruct (last (y :: l)) eqn:Hl.
      * cbn. f_equal. lia.
      * apply last_None in Hl. discriminate.
Qed.

(** X20.  [main] of the monthly integration script.  Its sample list is
    [START_EPOCH] followed by the samples of the implementation's month
    sampler (just [START_EPOCH] for a period of one epoch).  Its sum of
    monthly rewards telescopes: whatever the fetched histories and the share
    count, it equals the value at [END_EPOCH] minus the value at
    [START_EPOCH], which is the yearly total of its "Verification" step, the
    history requests being answered alike both times; so the script's check
    cannot fail. *)
Theorem monthly_main_check (f : Fetched) (VALIDATOR : string) (userShares : Z)
  (START_EPOCH END_EPOCH : Z) :
  MonthlyMain.totalRewards f VALIDATOR userShares START_EPOCH END_EPOCH
  = MonthlyMain.yearlyTotal f VALIDATOR userShares START_EPOCH END_EPOCH
  /\ MonthlyMain.epochsToProcessOf START_EPOCH END_EPOCH
     = if START_EPOCH =? END_EPOCH then [START_EPOCH]
       else START_EPOCH :: epochsToProcessOf "month" START_EPOCH END_EPOCH.
Proof.
  split; [|apply monthly_samples].
  unfold MonthlyMain.totalRewards, MonthlyMain.yearlyTotal. cbn zeta.
  rewrite monthly_samples. destruct (Z.eqb_spec START_EPOCH END_EPOCH) as [->|Hne].
  - cbn. lia.
  - destruct (epochsToProcessOf_shape "month" START_EPOCH END_EPOCH) as (init & -> & _).
    cbn [foldl MonthlyMain.monthStep]. rewrite monthStep_run, last_snoc.
    cbn [fmap option_fmap option_map default from_option id snd]. lia.
Qed.

(** ** Number of samples *)

Lemma steppedSamples_length startEpoch endEpoch :
  length (steppedSamples startEpoch endEpoch)
  = Z.to_nat ((endEpoch - startEpoch) / sampleStep (endEpoch - startEpoch + 1)).
Proof. unfold steppedSamples. cbn zeta. rewrite length_fmap, length_seqZ. reflexivity. Qed.

Lemma steppedSamples_last startEpoch endEpoch x :
  last (steppedSamples startEpoch endEpoch) = Some x ->
  x = startEpoch
      + (endEpoch - startEpoch) / sampleStep (endEpoch - startEpoch + 1)
        * sampleStep (endEpoch - startEpoch + 1)
  /\ 1 <= (endEpoch - startEpoch) / sampleStep (endEpoch - startEpoch + 1).
Proof.
  rewrite last_lookup. intros H. pose proof (lookup_lt_Some _ _ _ H) as Hlt.
  apply steppedSamples_lookup in H as [-> _].
  rewrite steppedSamples_length in *. split; [f_equal; f_equal|]; lia.
Qed.

Lemma month_sample_length startEpoch endEpoch :
  startEpoch <= endEpoch ->
  let step := sampleStep (endEpoch - startEpoch + 1) in
  let q := (endEpoch - startEpoch) / step in
  Z.of_nat (length (epochsToProcessOf "month" startEpoch endEpoch))
  = if (1 <=? q) && (startEpoch + q * step =? endEpoch) then q else q + 1.
Proof.
  intros Hse step q.
  pose proof (sampleStep_pos (endEpoch - startEpoch + 1)) as Hstep. fold step in Hstep.
  assert (Hq : 0 <= q) by (apply Z.div_pos; lia).
  rewrite (epochsToProcessOf_month "month") by discriminate.
  pose proof (steppedSamples_length startEpoch endEpoch) as Hlen. fold step q in Hlen.
  destruct (last (steppedSamples startEpoch endEpoch)) as [x|] eqn:Hl.
  - destruct (steppedSamples_last _ _ _ Hl) as [Hx Hq1]. fold step q in Hx, Hq1.
    destruct (Z.leb_spec 1 q); [|lia]. cbn [andb].
    destruct (Z.eqb_spec (startEpoch + q * step) endEpoch) as [He|He].
    + rewrite bool_decide_eq_true_2 by congruence. lia.
    + rewrite bool_decide_eq_false_2 by congruence. rewrite length_app. cbn [length]. lia.
  - rewrite bool_decide_eq_false_2 by discriminate.
    apply last_None in Hl. rewrite Hl in *. cbn [length] in *.
    destruct (Z.leb_spec 1 q); [lia|]. cbn [andb app length]. lia.
Qed.

(** X21.  Number of samples at month granularity, for
    [startEpoch <= endEpoch]: there is at least one sample and there are
    never more than 22; for a period of at least 144 epochs (twelve steps of
    at least twelve epochs) there are 12 or 13. *)
Theorem month_sample_count (startEpoch endEpoch : Z) :
  startEpoch <= endEpoch ->
  (1 <= length (epochsToProcessOf "month" startEpoch endEpoch) <= 22)%nat
  /\ (144 <= endEpoch - startEpoch + 1 ->
      (12 <= length (epochsToProcessOf "month" startEpoch endEpoch) <= 13)%nat).
Proof.
  intros Hse. pose proof (month_sample_length startEpoch endEpoch Hse) as Hlen.
  cbn zeta in Hlen. unfold sampleStep in Hlen.
  set (total := endEpoch - startEpoch + 1) in *.
  replace (endEpoch - startEpoch) with (total - 1) in Hlen by (unfold total; lia).
  assert (Htotal : 1 <= total) by (unfold total; lia).
  pose proof (Z.div_mod total 12 ltac:(lia)) as Hd12.
  pose proof (Z.mod_pos_bound total 12 ltac:(lia)) as Hm12.
  set (d := total / 12) in *. set (r := total mod 12) in *.
  set (step := Z.max 1 d) in *.
  assert (Hstep : 1 <= step) by (unfold step; lia).
  pose proof (Z.div_mod (total - 1) step ltac:(lia)) as Hdq.
  pose proof (Z.mod_pos_bound (total - 1) step ltac:(lia)) as Hmq.
  set (q := (total - 1) / step) in *. set (rq := (total - 1) mod step) in *.
  assert (Hq0 : 0 <= q) by (apply Z.div_pos; lia).
  assert (Hend : startEpoch + q * step = endEpoch <-> rq = 0) by (unfold total in *; lia).
  split.
  - destruct (Z.leb_spec 1 q) as [Hq1|Hq1]; cbn [andb] in Hlen.
    + destruct (Z.eqb_spec (startEpoch + q * step) endEpoch) as [He|He].
      * apply Hend in He.
        destruct (Z_le_gt_dec d 1) as [Hd|Hd].
        -- assert (step = 1) by (unfold step; lia). nia.
        -- assert (step = d) by (unfold step; lia). nia.
      * assert (Hrq : 1 <= rq) by (destruct (Z.eq_dec rq 0) as [H0|H0]; [apply Hend in H0|]; lia).
        destruct (Z_le_gt_dec d 1) as [Hd|Hd].
        -- assert (step = 1) by (unfold step; lia). lia.
        -- assert (step = d) by (unfold step; lia). nia.
    + lia.
  - intros H144.
    assert (Hd : 12 <= d) by lia.
    assert (Hs : step = d) by (unfold step; lia).
    assert (Hq : 11 <= q <= 12) by nia.
    destruct (Z.leb_spec 1 q) as [Hq1|Hq1]; [|lia]. cbn [andb] in Hlen.
    destruct (Z.eqb_spec (startEpoch + q * step) endEpoch) as [He|He].
    + apply Hend in He. assert (q = 12) by nia. lia.
    + lia.
Qed.

Lemma month_sample_count_witness :
  (1 <= length (epochsToProcessOf "month" 28809 37689) <= 22)%nat
  /\ (144 <= 37689 - 28809 + 1 ->
      (12 <= length (epochsToProcessOf "month" 28809 37689) <= 13)%nat).
Proof. apply (month_sample_count 28809 37689). lia. Defined.

(** ** Share price and value *)

Lemma scaled_floor_bounds (s B S K : Z) :
  0 <= s -> 0 <= B -> 0 < S -> 0 < K ->
  (s * (B * K / S)) / K <= s * B / S
  /\ s * B / S <= (s * (B * K / S)) / K + s / K + 1.
Proof.
  intros Hs HB HS HK.
  pose proof (Z.div_mod (B * K) S ltac:(lia)) as H1.
  pose proof (Z.mod_pos_bound (B * K) S HS) as H1'.
  set (P := B * K / S) in *. set (r1 := (B * K) mod S) in *.
  pose proof (Z.div_mod (s * B) S ltac:(lia)) as H2.
  pose proof (Z.mod_pos_bound (s * B) S HS) as H2'.
  set (V := s * B / S) in *. set (r2 := (s * B) mod S) in *.
  pose proof (Z.div_mod (s * P) K ltac:(lia)) as H3.
  pose proof (Z.mod_pos_bound (s * P) K HK) as H3'.
  set (W := s * P / K) in *. set (r3 := (s * P) mod K) in *.
  pose proof (Z.div_mod s K ltac:(lia)) as H4.
  pose proof (Z.mod_pos_bound s K HK) as H4'.
  set (T := s / K) in *. set (r4 := s mod K) in *.
  assert (HP : 0 <= P) by (apply Z.div_pos; nia).
  assert (HV : 0 <= V) by (apply Z.div_pos; nia).
  assert (HW : 0 <= W) by (apply Z.div_pos; nia).
  assert (HT : 0 <= T) by (apply Z.div_pos; lia).
  assert (E1 : s * (S * P) <= s * (B * K)) by nia.
  assert (E2 : s * (B * K) <= s * (S * P) + s * S) by nia.
  split.
  - assert (E3 : K * (W * S) <= K * (s * B)) by nia.
    assert (E4 : W * S <= s * B) by (apply (Z.mul_le_mono_pos_l _ _ K); lia).
    nia.
  - assert (E3 : S * (V * K) <= S * (s * P + s)) by nia.
    assert (E4 : V * K <= s * P + s) by (apply (Z.mul_le_mono_pos_l _ _ S); lia).
    nia.
Qed.

(** X22.  The columns agree: on non-negative data, [shares] times
    [share_price] (the share value scaled by [10^18]) never exceeds
    [delegation_value] and falls short of it by at most
    [shares / 10^18 + 1] base units, the effect of the two truncating
    divisions. *)
Theorem value_matches_share_price (userShares : Z) (historyEntry : HistoryEntry) :
  0 <= userShares ->
  0 <= default 0 (active_balance historyEntry) ->
  0 <= default 1 (active_shares historyEntry) ->
  Z.quot (userShares * calculateShareValue historyEntry) (10 ^ 18)
  <= calculateTotalValue userShares (Some historyEntry)
  /\ calculateTotalValue userShares (Some historyEntry)
     <= Z.quot (userShares * calculateShareValue historyEntry) (10 ^ 18)
        + Z.quot userShares (10 ^ 18) + 1.
Proof.
  intros Hs HB HS. unfold calculateShareValue, calculateTotalValue. cbn zeta.
  set (B := default 0 (active_balance historyEntry)) in *.
  set (S := default 1 (active_shares historyEntry)) in *.
  assert (HK : 0 < 10 ^ 18) by (apply Z.pow_pos_nonneg; lia).
  set (K := 10 ^ 18) in *.
  destruct (Z.eqb_spec S 0) as [H0|H0].
  - rewrite Z.mul_0_r. rewrite !Z.quot_div_nonneg by lia.
    rewrite Z.div_0_l by lia. split; [lia|].
    assert (0 <= userShares / K) by (apply Z.div_pos; lia). lia.
  - assert (HS' : 0 < S) by lia.
    assert (HP : 0 <= B * K / S) by (apply Z.div_pos; nia).
    rewrite (Z.quot_div_nonneg (B * K)) by nia.
    rewrite !Z.quot_div_nonneg by nia.
    apply scaled_floor_bounds; assumption.
Qed.

Lemma value_matches_share_price_witness :
  Z.quot (7 * calculateShareValue (snapshot 12 1020 1000)) (10 ^ 18)
  <= calculateTotalValue 7 (Some (snapshot 12 1020 1000))
  /\ calculateTotalValue 7 (Some (snapshot 12 1020 1000))
     <= Z.quot (7 * calculateShareValue (snapshot 12 1020 1000)) (10 ^ 18)
        + Z.quot 7 (10 ^ 18) + 1.
Proof.
  apply (value_matches_share_price 7 (snapshot 12 1020 1000)); vm_compute; discriminate.
Defined.

(* ===================================================================== *)
(** * Further properties: validators do not interfere                      *)
(* ===================================================================== *)

Lemma localEvent_other validatorHistories v e o ev :
  String.eqb (ev_validator ev) v = false ->
  localEvent validatorHistories v e o ev = o.
Proof. unfold localEvent. intros ->. reflexivity. Qed.

Lemma localEvent_filter validatorHistories v e evs : forall o,
  foldl (localEvent validatorHistories v e) o evs
  = foldl (localEvent validatorHistories v e) o
      (List.filter (fun ev => String.eqb (ev_validator ev) v) evs).
Proof.
  induction evs as [|ev evs IH]; intros o; [reflexivity|].
  cbn [foldl List.filter]. destruct (String.eqb (ev_validator ev) v) eqn:E.
  - cbn [foldl]. apply IH.
  - rewrite localEvent_other by exact E. apply IH.
Qed.

Lemma localEvent_history validatorHistories validatorHistories' v e o ev :
  validatorHistories !! v = validatorHistories' !! v ->
  localEvent validatorHistories v e o ev = localEvent validatorHistories' v e o ev.
Proof. unfold localEvent. intros ->. reflexivity. Qed.

Section Independence.
Variable startEpoch : Z.
Variables validators validators' : list string.
Variables validatorHistories validatorHistories' : gmap string (list HistoryEntry).
Variables eventsByEpoch eventsByEpoch' : gmap Z (list Event).
Variable epochTimestamps : gmap Z (option string).
Variable v : string.
Hypothesis same_membership : v ∈ validators <-> v ∈ validators'.
Hypothesis same_history : validatorHistories !! v = validatorHistories' !! v.
Hypothesis same_events : forall e,
  List.filter (fun ev => String.eqb (ev_validator ev) v) (default [] (eventsByEpoch !! e))
  = List.filter (fun ev => String.eqb (ev_validator ev) v) (default [] (eventsByEpoch' !! e)).

Lemma localEpoch_same o e :
  localEpoch validatorHistories eventsByEpoch v o e
  = localEpoch validatorHistories' eventsByEpoch' v o e.
Proof.
  unfold localEpoch.
  rewrite (localEvent_filter validatorHistories), (localEvent_filter validatorHistories').
  rewrite same_events. apply foldl_ext_elem. intros a x _.
  apply localEvent_history. exact same_history.
Qed.

Lemma localEvents_same a b o :
  localEvents validatorHistories eventsByEpoch v a b o
  = localEvents validatorHistories' eventsByEpoch' v a b o.
Proof.
  unfold localEvents. apply foldl_ext_elem. intros x e _. apply localEpoch_same.
Qed.

Lemma localEmit_same epoch timestamp o :
  localEmit startEpoch validators validatorHistories epochTimestamps v epoch timestamp o
  = localEmit startEpoch validators' validatorHistories' epochTimestamps v epoch timestamp o.
Proof.
  unfold localEmit. rewrite same_history.
  rewrite (bool_decide_ext _ _ same_membership). reflexivity.
Qed.

Lemma localStep_same s epoch :
  localStep startEpoch validators validatorHistories eventsByEpoch epochTimestamps v s epoch
  = localStep startEpoch validators' validatorHistories' eventsByEpoch' epochTimestamps v s epoch.
Proof.
  unfold localStep. destruct s as [[o last] rows].
  rewrite localEvents_same, localEmit_same. reflexivity.
Qed.

Lemma localRun_same l : forall s,
  foldl (localStep startEpoch validators validatorHistories eventsByEpoch epochTimestamps v) s l
  = foldl (localStep startEpoch validators' validatorHistories' eventsByEpoch' epochTimestamps v)
      s l.
Proof. intros s. apply foldl_ext_elem. intros a x _. apply localStep_same. Qed.
End Independence.

(** X23.  Validators do not interfere.  Take two engine configurations with
    the same samples and timestamps that agree on validator [v]: [v] is
    listed in both or in neither, has the same history, the same events in
    the same order under every epoch, and the same state, last processed
    epoch and rows so far.  Then the two runs give [v] the same rows and the
    same final state, whatever the other validators, their histories and
    their events are. *)
Theorem validator_independence (startEpoch : Z) (validators validators' : list string)
  (validatorHistories validatorHistories' : gmap string (list HistoryEntry))
  (eventsByEpoch eventsByEpoch' : gmap Z (list Event))
  (epochTimestamps : gmap Z (option string)) (v : string)
  (s s' : Engine) (epochsToProcess : list Z) :
  NoDup validators -> NoDup validators' ->
  (v ∈ validators <-> v ∈ validators') ->
  validatorHistories !! v = validatorHistories' !! v ->
  (forall e,
      List.filter (fun ev => String.eqb (ev_validator ev) v) (default [] (eventsByEpoch !! e))
      = List.filter (fun ev => String.eqb (ev_validator ev) v)
          (default [] (eventsByEpoch' !! e))) ->
  validatorState s !! v = validatorState s' !! v ->
  lastProcessedEpoch s = lastProcessedEpoch s' ->
  rowsOf v (results s) = rowsOf v (results s') ->
  rowsOf v (results (processEpochs startEpoch validators validatorHistories eventsByEpoch
                       epochTimestamps s epochsToProcess))
  = rowsOf v (results (processEpochs startEpoch validators' validatorHistories' eventsByEpoch'
                         epochTimestamps s' epochsToProcess))
  /\ validatorState (processEpochs startEpoch validators validatorHistories eventsByEpoch
                       epochTimestamps s epochsToProcess) !! v
     = validatorState (processEpochs startEpoch validators' validatorHistories' eventsByEpoch'
                         epochTimestamps s' epochsToProcess) !! v.
Proof.
  intros Hnd Hnd' Hmem Hhist Hev Hst Hlast Hrows.
  pose proof (processEpochs_local startEpoch validators validatorHistories eventsByEpoch
                epochTimestamps v epochsToProcess s Hnd) as H1.
  pose proof (processEpochs_local startEpoch validators' validatorHistories' eventsByEpoch'
                epochTimestamps v epochsToProcess s' Hnd') as H2.
  rewrite (localRun_same startEpoch validators validators' validatorHistories validatorHistories'
             eventsByEpoch eventsByEpoch' epochTimestamps v Hmem Hhist Hev) in H1.
  assert (Hview : localView v s = localView v s').
  { unfold localView. rewrite Hst, Hlast, Hrows. reflexivity. }
  rewrite Hview, <- H2 in H1. unfold localView in H1.
  injection H1 as Ho _ Hr. split; assumption.
Qed.

Lemma validator_independence_witness :
  rowsOf "v" (results (processEpochs 0 ["v"%string] exampleHistories exampleEvents
                         exampleTimestamps exampleEngine [20]))
  = rowsOf "v" (results (processEpochs 0 ["w"; "v"]%string crowdedHistories crowdedEvents
                           exampleTimestamps crowdedEngine [20]))
  /\ validatorState (processEpochs 0 ["v"%string] exampleHistories exampleEvents
                       exampleTimestamps exampleEngine [20]) !! "v"%string
     = validatorState (processEpochs 0 ["w"; "v"]%string crowdedHistories crowdedEvents
                         exampleTimestamps crowdedEngine [20]) !! "v"%string.
Proof.
  apply (validator_independence 0 ["v"%string] ["w"; "v"]%string exampleHistories
           crowdedHistories exampleEvents crowdedEvents exampleTimestamps "v"
           exampleEngine crowdedEngine [20]).
  - apply NoDup_ListNoDup. repeat constructor; cbn; intuition discriminate.
  - apply NoDup_ListNoDup. repeat constructor; cbn; intuition discriminate.
  - split; intros _; [right|]; apply list_elem_of_here.
  - reflexivity.
  - intros e. unfold exampleEvents, crowdedEvents.
    destruct (decide (e = 12)) as [->|H12]; [reflexivity|].
    destruct (decide (e = 15)) as [->|H15]; [reflexivity|].
    rewrite lookup_singleton_ne by congruence.
    rewrite lookup_insert_ne by congruence.
    rewrite lookup_singleton_ne by congruence. reflexivity.
  - reflexivity.
  - reflexivity.
  - reflexivity.
Defined.

(* ===================================================================== *)
(** * Further properties: share counts of a run                            *)
(* ===================================================================== *)

Lemma currentShares_nonneg dels v :
  Forall (fun del => 0 <= default 0 (del_shares del)) dels ->
  0 <= sharesAt v (currentSharesPerValidatorOf dels).
Proof.
  intros Hall. unfold currentSharesPerValidatorOf.
  assert (H : forall o, 0 <= sharesAt v o -> 0 <= sharesAt v (foldl recordDelegation o dels)).
  { induction Hall as [|del dels Hdel _ IH]; intros o Ho; [exact Ho|].
    cbn [foldl]. apply IH. unfold recordDelegation.
    destruct (del_validator del) as [x|]; [|exact Ho].
    destruct (del_shares del) as [n|]; [|exact Ho].
    destruct (String.eqb x ""); [exact Ho|].
    unfold sharesAt in *.
    destruct (decide (normalizeAddress (Some x) = v)) as [<-|Hne].
    - rewrite objGet_objSet_eq. exact Hdel.
    - rewrite objGet_objSet_ne by exact Hne. exact Ho. }
  apply H. unfold sharesAt. cbn. lia.
Qed.

Lemma clamped_reversal_nonneg l : forall c,
  0 <= c -> 0 <= foldl (fun s a => Z.max 0 (s - a)) c l.
Proof. induction l as [|a l IH]; intros c Hc; [exact Hc|]. cbn [foldl]. apply IH. lia. Qed.

Lemma sharesOn_nonneg field v evs :
  Forall (fun ev => 0 <= default 0 (field ev)) evs ->
  Forall (fun a => 0 <= a) (sharesOn field v evs).
Proof.
  intros H. unfold sharesOn. apply Forall_fmap. apply Forall_forall. intros ev Hin.
  apply list_elem_of_In, filter_In in Hin as [Hin _]. rewrite Forall_forall in H.
  apply H, list_elem_of_In, Hin.
Qed.

Lemma Forall_list_filter {A : Type} (P : A -> Prop) (p : A -> bool) (l : list A) :
  Forall P l -> Forall P (List.filter p l).
Proof.
  intros H. apply Forall_forall. intros x Hin.
  apply list_elem_of_In, filter_In in Hin as [Hin _]. rewrite Forall_forall in H.
  apply H, list_elem_of_In, Hin.
Qed.

Lemma pushEvents_Forall (P : Event -> Prop) startEpoch mk evs :
  (forall ev, ev ∈ evs -> P (mk ev)) ->
  forall m : gmap Z (list Event),
    (forall e l, m !! e = Some l -> Forall P l) ->
    forall e l, foldl (pushEvent startEpoch mk) m evs !! e = Some l -> Forall P l.
Proof.
  induction evs as [|ev evs IH]; intros Hmk m Hm; [exact Hm|].
  cbn [foldl]. apply IH.
  - intros x Hx. apply Hmk. right. exact Hx.
  - intros e l. rewrite pushEvent_lookup. case_bool_decide as Hk.
    + intros [= <-]. apply Forall_app. split.
      * destruct (m !! e) as [l0|] eqn:Hl0; [exact (Hm e l0 Hl0)|constructor].
      * repeat constructor. apply Hmk. apply list_elem_of_here.
    + apply Hm.
Qed.

Lemma eventsByEpoch_addsNonneg f address startEpoch endEpoch :
  Forall (fun ev => 0 <= default 0 (new_shares ev)) (addEscrowEvents f) ->
  addsNonneg (eventsByEpoch f address startEpoch endEpoch).
Proof.
  intros Hadds e evs ev Hl Hin Hty.
  assert (Hall : Forall (fun ev => ev_type ev = EvAdd -> 0 <= ev_shares ev) evs).
  { revert e evs Hl Hin. unfold eventsByEpoch, eventsByEpochOf. intros e evs Hl _.
    revert e evs Hl. apply pushEvents_Forall.
    - intros x _. cbn. discriminate.
    - apply pushEvents_Forall.
      + intros x Hx _. cbn. unfold relevantAddEvents in Hx.
        apply list_elem_of_In, filter_In in Hx as [Hx _]. rewrite Forall_forall in Hadds.
        apply Hadds, list_elem_of_In, Hx.
      + intros e l Hl. rewrite lookup_empty in Hl. discriminate. }
  rewrite Forall_forall in Hall. exact (Hall ev Hin Hty).
Qed.

Section LocalShares.
Variable startEpoch : Z.
Variable validators : list string.
Variable validatorHistories : gmap string (list HistoryEntry).
Variable eventsByEpoch : gmap Z (list Event).
Variable epochTimestamps : gmap Z (option string).
Variable v : string.
Hypothesis Hadds : addsNonneg eventsByEpoch.

Lemma localEvents_shares_nonneg a b o :
  (forall st, o = Some st -> 0 <= shares st) ->
  forall st, localEvents validatorHistories eventsByEpoch v a b o = Some st -> 0 <= shares st.
Proof.
  unfold localEvents. generalize (seqZ (a + 1) (b - a)) as l. intros l. revert o.
  induction l as [|e l IH]; intros o Ho; [exact Ho|].
  cbn [foldl]. apply IH. unfold localEpoch.
  destruct (eventsByEpoch !! e) as [evs|] eqn:Hevs; [|exact Ho].
  cbn [default from_option id].
  assert (Hin : forall ev, ev ∈ evs -> ev_type ev = EvAdd -> 0 <= ev_shares ev)
    by (intros ev Hev; exact (Hadds e evs ev Hevs Hev)).
  clear Hevs. revert o Ho. induction evs as [|ev evs IHe]; intros o Ho; [exact Ho|].
  cbn [foldl]. apply IHe.
  - intros x Hx. apply Hin. right. exact Hx.
  - unfold localEvent. destruct (String.eqb (ev_validator ev) v); [|exact Ho].
    destruct o as [st0|]; [|discriminate]. cbn. intros st [= <-].
    apply applyToState_shares_nonneg; [apply Ho; reflexivity|].
    apply Hin. apply list_elem_of_here.
Qed.

Lemma localRun_shares_nonneg l : forall o last rows,
  (forall st, o = Some st -> 0 <= shares st) ->
  Forall (fun r => exists n, 0 <= n /\ row_shares r = Format.toString n) rows ->
  Forall (fun r => exists n, 0 <= n /\ row_shares r = Format.toString n)
    (foldl (localStep startEpoch validators validatorHistories eventsByEpoch epochTimestamps v)
       (o, last, rows) l).2.
Proof.
  induction l as [|epoch l IH]; intros o last rows Ho Hrows; [exact Hrows|].
  cbn [foldl]. unfold localStep at 2.
  destruct (truthy (tsLookup epochTimestamps epoch)); cbn [negb]; [|apply IH; assumption].
  pose proof (localEvents_shares_nonneg last epoch o Ho) as Ho1.
  set (o1 := localEvents validatorHistories eventsByEpoch v last epoch o) in *.
  unfold localEmit. case_bool_decide as Hin.
  - destruct o1 as [state|] eqn:Hstate.
    + destruct (emitFor _ _ _ _ _ _ _) as [[row state']|] eqn:He.
      * pose proof (emitFor_shares _ _ _ _ _ _ _ _ _ He) as Hs.
        apply emitFor_fields in He as (h & _ & _ & _ & _ & _ & Hrs & _).
        apply IH.
        -- intros st [= <-]. rewrite Hs. apply Ho1. reflexivity.
        -- apply Forall_app. split; [exact Hrows|]. repeat constructor.
           exists (shares state). split; [apply Ho1; reflexivity|exact Hrs].
      * rewrite app_nil_r. apply IH; assumption.
    + rewrite app_nil_r. apply IH; [discriminate|assumption].
  - rewrite app_nil_r. apply IH; assumption.
Qed.
End LocalShares.

(** X24.  Share counts of a run.  If the current delegations and the Debond
    events carry non-negative share amounts, the share count reconstructed
    for [startEpoch] is non-negative for every validator; if the Add events
    carry non-negative amounts as well, the [shares] column of every row is
    the decimal form of a non-negative number. *)
Theorem run_shares_nonneg (f : Fetched) (address : string) (startEpoch endEpoch : Z)
  (granularity : string) :
  Forall (fun del => 0 <= default 0 (del_shares del)) (currentDelegations f) ->
  Forall (fun ev => 0 <= default 0 (debonding_shares ev)) (debondingEvents f) ->
  (forall v, 0 <= sharesAt v (sharesPerValidator f address startEpoch endEpoch))
  /\ (Forall (fun ev => 0 <= default 0 (new_shares ev)) (addEscrowEvents f) ->
      Forall (fun r => exists n, 0 <= n /\ row_shares r = Format.toString n)
        (fetchStakingRewardsTest f address startEpoch endEpoch granularity)).
Proof.
  intros Hdels Hdebs.
  assert (Hstart : forall v, 0 <= sharesAt v (sharesPerValidator f address startEpoch endEpoch)).
  { intros v. unfold sharesPerValidator, currentSharesPerValidator.
    rewrite sharesPerValidatorOf_value.
    pose proof (clamped_reversal_nonneg
                  (sharesOn new_shares v (relevantAddEvents f address startEpoch endEpoch))
                  _ (currentShares_nonneg _ v Hdels)) as H1.
    pose proof (sumZ_nonneg _ (sharesOn_nonneg debonding_shares v
                  (relevantDebondEvents f address startEpoch endEpoch)
                  (Forall_list_filter _ _ _ Hdebs))) as H2.
    lia. }
  split; [exact Hstart|].
  intros Hadds. apply Forall_forall. intros r Hr.
  assert (Hrv : r ∈ rowsOf (validator r)
                      (fetchStakingRewardsTest f address startEpoch endEpoch granularity))
    by (apply rowsOf_elem; split; [exact Hr|reflexivity]).
  rewrite fetchStakingRewardsTest_local in Hrv.
  pose proof (localRun_shares_nonneg startEpoch (validators f address startEpoch endEpoch)
                (validatorHistories f address startEpoch endEpoch)
                (eventsByEpoch f address startEpoch endEpoch)
                (epochTimestamps f startEpoch (epochsToProcessOf granularity startEpoch endEpoch))
                (validator r) (eventsByEpoch_addsNonneg f address startEpoch endEpoch Hadds)
                (epochsToProcessOf granularity startEpoch endEpoch)
                (initialValidatorState f address startEpoch endEpoch !! validator r)
                startEpoch []) as Hall.
  assert (Hinit : forall st,
             initialValidatorState f address startEpoch endEpoch !! validator r = Some st ->
             0 <= shares st).
  { intros st Hst. rewrite initialValidatorState_lookup in Hst.
    case_bool_decide; [|discriminate]. injection Hst as <-. apply Hstart. }
  specialize (Hall Hinit). specialize (Hall ltac:(constructor)).
  rewrite Forall_forall in Hall. apply Hall. exact Hrv.
Qed.

Lemma run_shares_nonneg_witness :
  (forall v, 0 <= sharesAt v (sharesPerValidator exampleFetched "addr" 0 24))
  /\ (Forall (fun ev => 0 <= default 0 (new_shares ev)) (addEscrowEvents exampleFetched) ->
      Forall (fun r => exists n, 0 <= n /\ row_shares r = Format.toString n)
        (fetchStakingRewardsTest exampleFetched "addr" 0 24 "month")).
Proof.
  apply (run_shares_nonneg exampleFetched "addr" 0 24 "month").
  - repeat constructor. cbn. lia.
  - repeat constructor. cbn. lia.
Defined.

(* ===================================================================== *)
(** * Reconciliation in terms of the events                               *)
(* ===================================================================== *)

Lemma list_filter_filter {A : Type} (p q : A -> bool) (l : list A) :
  List.filter p (List.filter q l) = List.filter (fun x => q x && p x) l.
Proof.
  induction l as [|x l IH]; [reflexivity|].
  cbn [List.filter]. destruct (q x); cbn [andb List.filter]; [|exact IH].
  destruct (p x); [f_equal|]; exact IH.
Qed.

Lemma accruedIn_refl g a : accruedIn g a a = 0.
Proof. unfold accruedIn. rewrite Z.sub_diag. reflexivity. Qed.

Lemma accruedIn_split g a b c :
  (a <= b /\ b <= c) \/ a = b ->
  accruedIn g a b + accruedIn g b c = accruedIn g a c.
Proof.
  intros [[Hab Hbc]| ->]; [|rewrite accruedIn_refl; lia].
  unfold accruedIn. replace (c - a) with ((b - a) + (c - b)) by lia.
  rewrite seqZ_app, fmap_app, sumZ_app by lia.
  replace (a + 1 + (b - a)) with (b + 1) by lia. reflexivity.
Qed.

Lemma sharesThrough_refl f address startEpoch endEpoch v a x :
  sharesThrough f address startEpoch endEpoch v a a x = x.
Proof. unfold sharesThrough. rewrite Z.sub_diag. reflexivity. Qed.

Lemma sharesThrough_split f address startEpoch endEpoch v a b c x :
  (a <= b /\ b <= c) \/ a = b ->
  sharesThrough f address startEpoch endEpoch v b c
    (sharesThrough f address startEpoch endEpoch v a b x)
  = sharesThrough f address startEpoch endEpoch v a c x.
Proof.
  intros [[Hab Hbc]| ->]; [|rewrite sharesThrough_refl; reflexivity].
  unfold sharesThrough. replace (c - a) with ((b - a) + (c - b)) by lia.
  rewrite seqZ_app, foldl_app by lia.
  replace (a + 1 + (b - a)) with (b + 1) by lia. reflexivity.
Qed.

(** Summing epoch by epoch over [(a, b]] is summing over the events filed
    in [(a, b]]. *)
Lemma sumZ_pick_epoch (key a : Z) (F : Z -> Z) (l : list Z) :
  NoDup l ->
  sumZ ((fun k => if key =? k then a + F k else F k) <$> l)
  = (if bool_decide (key ∈ l) then a else 0) + sumZ (F <$> l).
Proof.
  induction l as [|y l IH]; intros Hnd.
  - cbn. reflexivity.
  - apply NoDup_cons in Hnd as [Hy Hnd]. cbn [fmap list_fmap]. rewrite !sumZ_cons.
    change (list_fmap _ _ ?g l) with (g <$> l). rewrite (IH Hnd).
    destruct (Z.eqb_spec key y) as [->|Hne].
    + rewrite (bool_decide_eq_false_2 _ Hy).
      rewrite bool_decide_eq_true_2 by apply list_elem_of_here. lia.
    + destruct (decide (key ∈ l)) as [Hin|Hout].
      * rewrite !bool_decide_eq_true_2; [lia | right; exact Hin | exact Hin].
      * rewrite !bool_decide_eq_false_2; [lia | | exact Hout].
        intros Hc. apply elem_of_cons in Hc as [?|?]; congruence.
Qed.

Lemma accruedIn_events (base : EventBody -> bool) (key : EventBody -> Z)
  (price : EventBody -> Z) (evs : list EventBody) (a b : Z) :
  accruedIn (fun k => sumZ (price <$> List.filter (fun ev => base ev && (key ev =? k)) evs)) a b
  = sumZ (price <$> List.filter (fun ev => base ev && (a <? key ev) && (key ev <=? b)) evs).
Proof.
  unfold accruedIn. induction evs as [|ev evs IH].
  - cbn [List.filter fmap list_fmap]. generalize (seqZ (a + 1) (b - a)) as l.
    induction l as [|k l IHl]; [reflexivity|].
    cbn [fmap list_fmap]. rewrite sumZ_cons. exact IHl.
  - cbn [List.filter]. destruct (base ev); cbn [andb]; [|exact IH].
    transitivity
      ((if bool_decide (key ev ∈ seqZ (a + 1) (b - a)) then price ev else 0)
       + sumZ ((fun k => sumZ (price <$> List.filter (fun ev => base ev && (key ev =? k)) evs))
                 <$> seqZ (a + 1) (b - a))).
    + rewrite <- sumZ_pick_epoch by apply NoDup_seqZ. f_equal.
      apply list_fmap_ext. intros _ k _. destruct (key ev =? k); [|reflexivity].
      cbn [fmap list_fmap]. rewrite sumZ_cons. reflexivity.
    + rewrite IH.
      destruct (Z.ltb_spec a (key ev)) as [Hlt|Hge];
        destruct (Z.leb_spec (key ev) b) as [Hle|Hgt]; cbn [andb].
      * rewrite bool_decide_eq_true_2 by (apply elem_of_seqZ; lia).
        cbn [fmap list_fmap]. rewrite sumZ_cons. reflexivity.
      * rewrite bool_decide_eq_false_2 by (rewrite elem_of_seqZ; lia). lia.
      * rewrite bool_decide_eq_false_2 by (rewrite elem_of_seqZ; lia). lia.
      * rewrite bool_decide_eq_false_2 by (rewrite elem_of_seqZ; lia). lia.
Qed.

(** ** The engine's state in terms of the events *)

Lemma validatorState_eq s1 p1 d1 u1 s2 p2 d2 u2 :
  s1 = s2 -> p1 = p2 -> d1 = d2 -> u1 = u2 ->
  Some {| shares := s1; prevTotalValue := p1; periodDelegationValue := d1;
          periodUndelegationValue := u1 |}
  = Some {| shares := s2; prevTotalValue := p2; periodDelegationValue := d2;
            periodUndelegationValue := u2 |}.
Proof. congruence. Qed.

Lemma localEvent_adds validatorHistories v k (l : list EventBody) : forall st,
  foldl (localEvent validatorHistories v k) (Some st) (addEventOf <$> l)
  = Some {| shares := foldl (fun n ev => n + default 0 (new_shares ev)) (shares st)
                        (List.filter (fun ev => String.eqb (normalizeAddress (escrow ev)) v) l);
            prevTotalValue := prevTotalValue st;
            periodDelegationValue :=
              periodDelegationValue st
              + sumZ ((fun ev => calculateTotalValue (default 0 (new_shares ev))
                                   (findHistoryEntryForEpoch
                                      (default [] (validatorHistories !! v)) k))
                        <$> List.filter
                              (fun ev => String.eqb (normalizeAddress (escrow ev)) v) l);
            periodUndelegationValue := periodUndelegationValue st |}.
Proof.
  induction l as [|ev l IH]; intros st.
  - destruct st. cbn. apply validatorState_eq; try reflexivity. unfold sumZ. cbn. lia.
  - cbn [fmap list_fmap foldl List.filter]. change (list_fmap _ _ addEventOf l) with (addEventOf <$> l).
    unfold localEvent at 2. change (ev_validator (addEventOf ev)) with (normalizeAddress (escrow ev)).
    destruct (String.eqb (normalizeAddress (escrow ev)) v).
    + cbn [fmap option_fmap option_map]. rewrite IH.
      cbn [foldl fmap list_fmap]. apply validatorState_eq; try reflexivity.
      rewrite sumZ_cons. unfold applyToState.
      cbn [ev_type addEventOf periodDelegationValue ev_shares].
      change (list_fmap _ _ ?g ?x) with (g <$> x). lia.
    + apply IH.
Qed.

Lemma localEvent_debonds validatorHistories v k (l : list EventBody) : forall st,
  foldl (localEvent validatorHistories v k) (Some st) (debondEventOf <$> l)
  = Some {| shares := foldl (fun n ev => Z.max 0 (n - default 0 (debonding_shares ev)))
                        (shares st)
                        (List.filter (fun ev => String.eqb (normalizeAddress (escrow ev)) v) l);
            prevTotalValue := prevTotalValue st;
            periodDelegationValue := periodDelegationValue st;
            periodUndelegationValue :=
              periodUndelegationValue st
              + sumZ ((fun ev => calculateTotalValue (default 0 (debonding_shares ev))
                                   (findHistoryEntryForEpoch
                                      (default [] (validatorHistories !! v)) k))
                        <$> List.filter
                              (fun ev => String.eqb (normalizeAddress (escrow ev)) v) l) |}.
Proof.
  induction l as [|ev l IH]; intros st.
  - destruct st. cbn. apply validatorState_eq; try reflexivity. unfold sumZ. cbn. lia.
  - cbn [fmap list_fmap foldl List.filter].
    change (list_fmap _ _ debondEventOf l) with (debondEventOf <$> l).
    unfold localEvent at 2.
    change (ev_validator (debondEventOf ev)) with (normalizeAddress (escrow ev)).
    destruct (String.eqb (normalizeAddress (escrow ev)) v).
    + cbn [fmap option_fmap option_map]. rewrite IH.
      cbn [foldl fmap list_fmap]. apply validatorState_eq; try reflexivity.
      * unfold applyToState. cbn [ev_type debondEventOf shares ev_shares]. f_equal.
        destruct (Z.ltb_spec (shares st - default 0 (debonding_shares ev)) 0); lia.
      * rewrite sumZ_cons. unfold applyToState.
        cbn [ev_type debondEventOf periodUndelegationValue ev_shares].
        change (list_fmap _ _ ?g ?x) with (g <$> x). lia.
    + apply IH.
Qed.

Lemma relevant_ofPeriod address startEpoch endEpoch v k ev :
  relevant (normalizeAddress (Some address)) startEpoch endEpoch ev
  && (orNum (body_epoch ev) startEpoch =? k)
  && String.eqb (normalizeAddress (escrow ev)) v
  = ofPeriod address startEpoch endEpoch v ev && (filedEpoch startEpoch ev =? k).
Proof.
  unfold relevant, ofPeriod, filedEpoch. cbn zeta.
  destruct (String.eqb (normalizeAddress (owner ev)) (normalizeAddress (Some address)));
    cbn [negb andb]; [|reflexivity].
  destruct (startEpoch <? orNum (body_epoch ev) 0), (orNum (body_epoch ev) 0 <=? endEpoch),
    (orNum (body_epoch ev) startEpoch =? k), (String.eqb (normalizeAddress (escrow ev)) v);
    reflexivity.
Qed.

Lemma filter_eventsAt address startEpoch endEpoch v k evs :
  List.filter (fun ev => String.eqb (normalizeAddress (escrow ev)) v)
    (List.filter (fun ev => orNum (body_epoch ev) startEpoch =? k)
       (List.filter (relevant (normalizeAddress (Some address)) startEpoch endEpoch) evs))
  = eventsAt address startEpoch endEpoch v k evs.
Proof.
  rewrite !list_filter_filter. unfold eventsAt. apply filter_ext.
  intros ev. rewrite andb_assoc. apply relevant_ofPeriod.
Qed.

Section EventAccounting.
Variable f : Fetched.
Variable address : string.
Variables startEpoch endEpoch : Z.
Variable v : string.
Hypothesis Hv : v ∈ validators f address startEpoch endEpoch.

Lemma history_of_validator :
  default [] (validatorHistories f address startEpoch endEpoch !! v)
  = sortByEpoch (fetchedHistory f v).
Proof. rewrite validatorHistories_lookup, bool_decide_eq_true_2 by exact Hv. reflexivity. Qed.

Lemma localEpoch_events st k :
  localEpoch (validatorHistories f address startEpoch endEpoch)
    (eventsByEpoch f address startEpoch endEpoch) v (Some st) k
  = Some {| shares := sharesStep f address startEpoch endEpoch v (shares st) k;
            prevTotalValue := prevTotalValue st;
            periodDelegationValue :=
              periodDelegationValue st + delegationsAt f address startEpoch endEpoch v k;
            periodUndelegationValue :=
              periodUndelegationValue st + undelegationsAt f address startEpoch endEpoch v k |}.
Proof.
  unfold localEpoch.
  assert (Hevs : default [] (eventsByEpoch f address startEpoch endEpoch !! k)
                 = (addEventOf <$> List.filter (fun ev => orNum (body_epoch ev) startEpoch =? k)
                                     (relevantAddEvents f address startEpoch endEpoch))
                   ++ (debondEventOf <$> List.filter (fun ev => orNum (body_epoch ev) startEpoch =? k)
                                           (relevantDebondEvents f address startEpoch endEpoch))).
  { unfold eventsByEpoch, eventsByEpochOf.
    rewrite !pushEvents_lookup, lookup_empty. reflexivity. }
  rewrite Hevs, foldl_app, localEvent_adds, localEvent_debonds.
  cbn [shares prevTotalValue periodDelegationValue periodUndelegationValue].
  unfold relevantAddEvents, relevantDebondEvents. rewrite !filter_eventsAt.
  rewrite history_of_validator.
  apply validatorState_eq; try reflexivity.
  - unfold delegationsAt. f_equal. f_equal. apply list_fmap_ext. intros i ev Hev.
    unfold pricedAt. do 2 f_equal.
    apply list_elem_of_lookup_2 in Hev. apply list_elem_of_In, filter_In in Hev as [_ Hk].
    apply andb_true_iff in Hk as [_ Hk]. apply Z.eqb_eq in Hk. symmetry. exact Hk.
  - unfold undelegationsAt. f_equal. f_equal. apply list_fmap_ext. intros i ev Hev.
    unfold pricedAt. do 2 f_equal.
    apply list_elem_of_lookup_2 in Hev. apply list_elem_of_In, filter_In in Hev as [_ Hk].
    apply andb_true_iff in Hk as [_ Hk]. apply Z.eqb_eq in Hk. symmetry. exact Hk.
Qed.

Lemma localEvents_events a b st :
  localEvents (validatorHistories f address startEpoch endEpoch)
    (eventsByEpoch f address startEpoch endEpoch) v a b (Some st)
  = Some {| shares := sharesThrough f address startEpoch endEpoch v a b (shares st);
            prevTotalValue := prevTotalValue st;
            periodDelegationValue :=
              periodDelegationValue st
              + accruedIn (delegationsAt f address startEpoch endEpoch v) a b;
            periodUndelegationValue :=
              periodUndelegationValue st
              + accruedIn (undelegationsAt f address startEpoch endEpoch v) a b |}.
Proof.
  unfold localEvents, sharesThrough, accruedIn.
  generalize (seqZ (a + 1) (b - a)) as l. intros l. revert st.
  induction l as [|k l IH]; intros st.
  - destruct st. cbn. apply validatorState_eq; try reflexivity; unfold sumZ; cbn; lia.
  - cbn [foldl fmap list_fmap]. rewrite localEpoch_events, IH.
    cbn [shares prevTotalValue periodDelegationValue periodUndelegationValue].
    apply validatorState_eq; try reflexivity; rewrite sumZ_cons; lia.
Qed.
End EventAccounting.

Lemma closingEpoch_snoc startEpoch rows r :
  closingEpoch startEpoch (rows ++ [r]) = end_epoch r.
Proof. unfold closingEpoch. rewrite last_snoc. reflexivity. Qed.

Lemma delegationsIn_accrued f address startEpoch endEpoch v a b :
  accruedIn (delegationsAt f address startEpoch endEpoch v) a b
  = delegationsIn f address startEpoch endEpoch v a b.
Proof. unfold delegationsAt, delegationsIn, eventsAt, eventsIn. apply accruedIn_events. Qed.

Lemma undelegationsIn_accrued f address startEpoch endEpoch v a b :
  accruedIn (undelegationsAt f address startEpoch endEpoch v) a b
  = undelegationsIn f address startEpoch endEpoch v a b.
Proof. unfold undelegationsAt, undelegationsIn, eventsAt, eventsIn. apply accruedIn_events. Qed.

Section ReconRun.
Variable f : Fetched.
Variable address : string.
Variables startEpoch endEpoch : Z.
Variable v : string.
Hypothesis Hv : v ∈ validators f address startEpoch endEpoch.
Variable epochTimestamps : gmap Z (option string).

Abbreviation stepOf :=
  (localStep startEpoch (validators f address startEpoch endEpoch)
     (validatorHistories f address startEpoch endEpoch)
     (eventsByEpoch f address startEpoch endEpoch) epochTimestamps v).

Lemma localStep_recon s epoch :
  reconInv f address startEpoch endEpoch v s ->
  (startEpoch <= closingEpoch startEpoch s.2 /\ closingEpoch startEpoch s.2 <= s.1.2
   /\ s.1.2 <= epoch)
  \/ (closingEpoch startEpoch s.2 = startEpoch /\ s.1.2 = startEpoch) ->
  reconInv f address startEpoch endEpoch v (stepOf s epoch).
Proof.
  destruct s as [[o last] rows]. cbn [fst snd].
  intros (state & Ho & Hsh & Hprev & HpD & HpU & Hsum & Hrows) HP.
  cbn [fst snd] in *. subst o.
  set (L := closingEpoch startEpoch rows) in *.
  set (I := initialTotalValueOf f address startEpoch endEpoch v) in *.
  unfold localStep. destruct (truthy (tsLookup epochTimestamps epoch)); cbn [negb].
  2: { exists state. cbn [fst snd]. fold L I.
    split; [reflexivity|]. split; [exact Hsh|]. split; [exact Hprev|].
    split; [exact HpD|]. split; [exact HpU|]. split; [exact Hsum|exact Hrows]. }
  rewrite (localEvents_events f address startEpoch endEpoch v Hv).
  assert (Hshares1 : sharesThrough f address startEpoch endEpoch v last epoch (shares state)
                     = sharesThrough f address startEpoch endEpoch v startEpoch epoch
                         (startShares f address startEpoch endEpoch v)).
  { rewrite Hsh. apply sharesThrough_split. destruct HP as [(? & ? & ?)|[_ ->]]; [left; lia|right; reflexivity]. }
  assert (HD1 : periodDelegationValue state
                + accruedIn (delegationsAt f address startEpoch endEpoch v) last epoch
                = accruedIn (delegationsAt f address startEpoch endEpoch v) L epoch).
  { rewrite HpD. apply accruedIn_split. destruct HP as [(? & ? & ?)|[-> ->]]; [left; lia|right; reflexivity]. }
  assert (HU1 : periodUndelegationValue state
                + accruedIn (undelegationsAt f address startEpoch endEpoch v) last epoch
                = accruedIn (undelegationsAt f address startEpoch endEpoch v) L epoch).
  { rewrite HpU. apply accruedIn_split. destruct HP as [(? & ? & ?)|[-> ->]]; [left; lia|right; reflexivity]. }
  assert (HDs : accruedIn (delegationsAt f address startEpoch endEpoch v) startEpoch L
                + accruedIn (delegationsAt f address startEpoch endEpoch v) L epoch
                = accruedIn (delegationsAt f address startEpoch endEpoch v) startEpoch epoch).
  { apply accruedIn_split. destruct HP as [(? & ? & ?)|[-> _]]; [left; lia|right; reflexivity]. }
  assert (HUs : accruedIn (undelegationsAt f address startEpoch endEpoch v) startEpoch L
                + accruedIn (undelegationsAt f address startEpoch endEpoch v) L epoch
                = accruedIn (undelegationsAt f address startEpoch endEpoch v) startEpoch epoch).
  { apply accruedIn_split. destruct HP as [(? & ? & ?)|[-> _]]; [left; lia|right; reflexivity]. }
  rewrite Hshares1, HD1, HU1.
  set (state1 := {| shares := sharesThrough f address startEpoch endEpoch v startEpoch epoch
                                (startShares f address startEpoch endEpoch v);
                    prevTotalValue := prevTotalValue state;
                    periodDelegationValue :=
                      accruedIn (delegationsAt f address startEpoch endEpoch v) L epoch;
                    periodUndelegationValue :=
                      accruedIn (undelegationsAt f address startEpoch endEpoch v) L epoch |}).
  unfold localEmit. rewrite bool_decide_eq_true_2 by exact Hv.
  rewrite (history_of_validator f address startEpoch endEpoch v Hv).
  destruct (emitFor _ _ _ _ _ _ state1) as [[row state']|] eqn:He.
  - pose proof (emitFor_row _ _ _ _ _ _ _ _ _ He) as (_ & Hee & _ & _ & _ & (h & Hh & Hr & Hst') & _).
    apply emitFor_fields in He as (h' & Hh' & Hp & Ht & Hd & Hu & _ & _ & _ & Hrw & _).
    rewrite Hh in Hh'. injection Hh' as <-.
    cbn [shares prevTotalValue periodDelegationValue periodUndelegationValue state1] in *.
    exists state'. cbn [fst snd].
    rewrite closingEpoch_snoc, closingValue_snoc, Hee, !accruedIn_refl.
    subst state'. cbn [shares prevTotalValue periodDelegationValue periodUndelegationValue].
    split; [reflexivity|]. split; [reflexivity|]. split; [symmetry; exact Ht|].
    split; [reflexivity|]. split; [reflexivity|]. split.
    + rewrite fmap_app, sumZ_app. cbn [fmap list_fmap]. rewrite sumZ_cons.
      rewrite (rewardOf_toRose _ _ Hrw), Hsum, Hp, Hd, Hu, Hprev.
      change (sumZ []) with 0. fold I. lia.
    + apply Forall_app. split; [exact Hrows|]. repeat constructor.
      rewrite Hee, Ht. unfold valueAtEpoch. rewrite Hh. reflexivity.
  - exists state1. cbn [fst snd]. rewrite app_nil_r. fold L I.
    cbn [shares prevTotalValue periodDelegationValue periodUndelegationValue state1].
    split; [reflexivity|]. split; [reflexivity|]. split; [exact Hprev|].
    split; [reflexivity|]. split; [reflexivity|]. split; [exact Hsum|exact Hrows].
Qed.

Lemma localStep_order s epoch :
  startEpoch <= closingEpoch startEpoch s.2 ->
  closingEpoch startEpoch s.2 <= s.1.2 ->
  s.1.2 <= epoch ->
  startEpoch <= closingEpoch startEpoch (stepOf s epoch).2
  /\ closingEpoch startEpoch (stepOf s epoch).2 <= (stepOf s epoch).1.2
  /\ (stepOf s epoch).1.2 <= epoch.
Proof.
  destruct s as [[o last] rows]. cbn [fst snd]. intros H1 H2 H3.
  unfold localStep. destruct (truthy (tsLookup epochTimestamps epoch)); cbn [negb fst snd];
    [|lia].
  destruct (localEmit_fields startEpoch (validators f address startEpoch endEpoch)
              (validatorHistories f address startEpoch endEpoch) epochTimestamps v epoch
              (default ""%string (tsLookup epochTimestamps epoch))
              (localEvents (validatorHistories f address startEpoch endEpoch)
                 (eventsByEpoch f address startEpoch endEpoch) v last epoch o))
    as [->|(state & h & row & state' & _ & _ & -> & Hee & _)]; cbn [fst snd].
  - rewrite app_nil_r. lia.
  - rewrite closingEpoch_snoc, Hee. lia.
Qed.

Lemma localRun_recon l : forall s,
  reconInv f address startEpoch endEpoch v s ->
  startEpoch <= closingEpoch startEpoch s.2 ->
  closingEpoch startEpoch s.2 <= s.1.2 ->
  Forall (fun y => s.1.2 <= y) l ->
  strictlyAscending l ->
  reconInv f address startEpoch endEpoch v (foldl stepOf s l).
Proof.
  induction l as [|x l IH]; intros s Hinv H1 H2 Hle Hasc; [exact Hinv|].
  cbn [foldl]. apply Forall_cons in Hle as [Hx Hle].
  apply strictlyAscending_cons in Hasc as [Hxl Hasc].
  destruct (localStep_order s x H1 H2 Hx) as (H1' & H2' & H3').
  apply IH; [apply localStep_recon; [exact Hinv|left; auto] | exact H1' | exact H2' | | exact Hasc].
  eapply Forall_impl; [exact Hxl|]. cbn. intros y Hy. lia.
Qed.
End ReconRun.

Lemma run_recon f address startEpoch endEpoch v granularity :
  v ∈ validators f address startEpoch endEpoch ->
  reconInv f address startEpoch endEpoch v
    (foldl
       (localStep startEpoch (validators f address startEpoch endEpoch)
          (validatorHistories f address startEpoch endEpoch)
          (eventsByEpoch f address startEpoch endEpoch)
          (epochTimestamps f startEpoch (epochsToProcessOf granularity startEpoch endEpoch)) v)
       (initialValidatorState f address startEpoch endEpoch !! v, startEpoch, [])
       (epochsToProcessOf granularity startEpoch endEpoch)).
Proof.
  intros Hv.
  assert (Hinit : reconInv f address startEpoch endEpoch v
                    (initialValidatorState f address startEpoch endEpoch !! v, startEpoch, [])).
  { exists (initialState f address startEpoch endEpoch v). cbn [fst snd].
    rewrite initialValidatorState_lookup, bool_decide_eq_true_2 by exact Hv.
    unfold closingEpoch, closingValue. cbn [last fmap option_fmap option_map default from_option id].
    rewrite sharesThrough_refl, !accruedIn_refl.
    split; [reflexivity|]. split; [reflexivity|]. split; [reflexivity|].
    split; [reflexivity|]. split; [reflexivity|]. split; [|constructor].
    change (sumZ (list_fmap Row Z rewardOf [])) with 0. lia. }
  destruct (epochsToProcessOf_shape granularity startEpoch endEpoch) as (init & Hshape & Hasc & Hb).
  destruct (Z_lt_le_dec startEpoch endEpoch) as [Hlt|Hle].
  - apply (localRun_recon f address startEpoch endEpoch v Hv); cbn [fst snd].
    + exact Hinit.
    + unfold closingEpoch. cbn. lia.
    + unfold closingEpoch. cbn. lia.
    + rewrite Hshape. apply Forall_app. split.
      * eapply Forall_impl; [exact Hb|]. cbn. intros; lia.
      * repeat constructor. lia.
    + rewrite Hshape. exact Hasc.
  - assert (init = []) as ->.
    { destruct init as [|x init]; [reflexivity|]. inversion Hb; subst. lia. }
    rewrite Hshape. cbn [app foldl].
    apply (localStep_recon f address startEpoch endEpoch v Hv); [exact Hinit|].
    right. cbn [fst snd]. split; reflexivity.
Qed.

Lemma last_of_ascending (l : list Z) (x : Z) :
  strictlyAscending l -> x ∈ l -> Forall (fun y => y <= x) l -> last l = Some x.
Proof.
  intros Hasc Hin Hle. apply list_elem_of_lookup_1 in Hin as [i Hi].
  destruct (last l) as [y|] eqn:Hl; [|apply last_None in Hl; subst; discriminate].
  f_equal. pose proof Hl as Hl'. rewrite last_lookup in Hl'.
  pose proof (lookup_lt_Some _ _ _ Hi) as Hlt.
  destruct (decide (i = pred (length l))) as [->|Hne]; [congruence|].
  pose proof (Hasc i (pred (length l)) x y Hi Hl' ltac:(lia)) as Hxy.
  rewrite Forall_forall in Hle.
  pose proof (Hle y (list_elem_of_lookup_2 _ _ _ Hl')). lia.
Qed.

Lemma rowsOf_sublist f address startEpoch endEpoch granularity v :
  (end_epoch <$> rowsOf v (fetchStakingRewardsTest f address startEpoch endEpoch granularity))
  `sublist_of` epochsToProcessOf granularity startEpoch endEpoch.
Proof.
  rewrite fetchStakingRewardsTest_local.
  destruct (localRun_rows startEpoch (validators f address startEpoch endEpoch)
              (validatorHistories f address startEpoch endEpoch)
              (eventsByEpoch f address startEpoch endEpoch)
              (epochTimestamps f startEpoch (epochsToProcessOf granularity startEpoch endEpoch))
              v (epochsToProcessOf granularity startEpoch endEpoch)
              (initialValidatorState f address startEpoch endEpoch !! v) startEpoch [])
    as (o' & last' & new & -> & Hs & _).
  exact Hs.
Qed.

(** A row that closes at [endEpoch] is the validator's last row. *)
Lemma closingEpoch_emitted f address startEpoch endEpoch granularity v :
  emittedAt v endEpoch (fetchStakingRewardsTest f address startEpoch endEpoch granularity) ->
  closingEpoch startEpoch
    (rowsOf v (fetchStakingRewardsTest f address startEpoch endEpoch granularity)) = endEpoch.
Proof.
  intros Hem. apply emittedAt_rowsOf in Hem as (r & Hr & He).
  pose proof (rowsOf_sublist f address startEpoch endEpoch granularity v) as Hsub.
  destruct (epochsToProcessOf_shape granularity startEpoch endEpoch) as (init & Hshape & Hasc & Hb).
  unfold closingEpoch. rewrite <- fmap_last.
  rewrite (last_of_ascending _ endEpoch); [reflexivity| | |].
  - eapply strictlyAscending_sublist; [exact Hsub|]. rewrite Hshape. exact Hasc.
  - apply list_elem_of_fmap. exists r. split; [symmetry; exact He|exact Hr].
  - apply Forall_forall. intros y Hy.
    assert (Hin : y ∈ epochsToProcessOf granularity startEpoch endEpoch)
      by (eapply elem_of_sublist; [exact Hy|exact Hsub]).
    rewrite Hshape in Hin. apply elem_of_app in Hin as [Hin|Hin].
    + rewrite Forall_forall in Hb. specialize (Hb _ Hin). cbn in Hb. lia.
    + apply list_elem_of_singleton in Hin. lia.
Qed.

(** The account of one run. *)
Lemma run_accounts f address startEpoch endEpoch granularity v :
  sumRewards v (fetchStakingRewardsTest f address startEpoch endEpoch granularity)
  = closingValue (initialTotalValueOf f address startEpoch endEpoch v)
      (rowsOf v (fetchStakingRewardsTest f address startEpoch endEpoch granularity))
    - initialTotalValueOf f address startEpoch endEpoch v
    - delegationsIn f address startEpoch endEpoch v startEpoch
        (closingEpoch startEpoch
           (rowsOf v (fetchStakingRewardsTest f address startEpoch endEpoch granularity)))
    + undelegationsIn f address startEpoch endEpoch v startEpoch
        (closingEpoch startEpoch
           (rowsOf v (fetchStakingRewardsTest f address startEpoch endEpoch granularity)))
  /\ Forall (fun r => _totalValue r
                      = valueAtEpoch f address startEpoch endEpoch v (end_epoch r))
       (rowsOf v (fetchStakingRewardsTest f address startEpoch endEpoch granularity)).
Proof.
  rewrite <- delegationsIn_accrued, <- undelegationsIn_accrued. unfold sumRewards.
  destruct (decide (v ∈ validators f address startEpoch endEpoch)) as [Hv|Hv].
  - pose proof (run_recon f address startEpoch endEpoch v granularity Hv) as Hinv.
    rewrite fetchStakingRewardsTest_local.
    destruct Hinv as (state & _ & _ & _ & _ & _ & Hsum & Hrows).
    split; [exact Hsum|exact Hrows].
  - assert (Hnone : rowsOf v (fetchStakingRewardsTest f address startEpoch endEpoch granularity) = []).
    { pose proof (rows_provenance_aux f address startEpoch endEpoch granularity) as Hall.
      unfold rowsOf. induction Hall as [|r rows Hr _ IH]; [reflexivity|].
      cbn [List.filter]. destruct (String.eqb_spec (validator r) v) as [<-|_]; [|exact IH].
      contradiction. }
    rewrite Hnone. unfold closingEpoch, closingValue.
    cbn [last fmap list_fmap option_fmap option_map default from_option id].
    rewrite !accruedIn_refl. change (sumZ []) with 0. split; [lia|constructor].
Qed.

Lemma eventsAt_none address startEpoch endEpoch v a b k evs :
  eventsIn address startEpoch endEpoch v a b evs = [] -> a < k <= b ->
  eventsAt address startEpoch endEpoch v k evs = [].
Proof.
  intros Hnone Hk. unfold eventsIn, eventsAt in *.
  induction evs as [|ev evs IH]; [reflexivity|].
  cbn [List.filter] in *.
  destruct (ofPeriod address startEpoch endEpoch v ev); cbn [andb] in *; [|exact (IH Hnone)].
  destruct (Z.eqb_spec (filedEpoch startEpoch ev) k) as [Hek|Hek].
  - destruct (Z.ltb_spec a (filedEpoch startEpoch ev)); [|lia].
    destruct (Z.leb_spec (filedEpoch startEpoch ev) b); [|lia].
    cbn [andb] in Hnone. discriminate.
  - apply IH. destruct ((a <? filedEpoch startEpoch ev) && (filedEpoch startEpoch ev <=? b));
      [discriminate|exact Hnone].
Qed.

Lemma sharesThrough_none f address startEpoch endEpoch v a b x :
  eventsIn address startEpoch endEpoch v a b (addEscrowEvents f) = [] ->
  eventsIn address startEpoch endEpoch v a b (debondingEvents f) = [] ->
  sharesThrough f address startEpoch endEpoch v a b x = x.
Proof.
  intros Ha Hd. unfold sharesThrough.
  assert (H : forall l, Forall (fun k => a < k <= b) l ->
                        foldl (sharesStep f address startEpoch endEpoch v) x l = x).
  { induction l as [|k l IH]; intros Hl; [reflexivity|].
    apply Forall_cons in Hl as [Hk Hl]. cbn [foldl]. unfold sharesStep at 2.
    rewrite (eventsAt_none _ _ _ _ _ _ _ _ Ha Hk), (eventsAt_none _ _ _ _ _ _ _ _ Hd Hk).
    cbn [foldl]. apply IH, Hl. }
  apply H. apply Forall_forall. intros k Hk. apply elem_of_seqZ in Hk. lia.
Qed.

Lemma finalTotalValueOf_events f address startEpoch endEpoch v :
  v ∈ validators f address startEpoch endEpoch ->
  finalTotalValueOf f address startEpoch endEpoch v
  = valueAtEpoch f address startEpoch endEpoch v endEpoch.
Proof.
  intros Hv. unfold finalTotalValueOf, referenceState.
  rewrite initialValidatorState_lookup, bool_decide_eq_true_2 by exact Hv.
  rewrite (localEvents_events f address startEpoch endEpoch v Hv).
  rewrite (history_of_validator f address startEpoch endEpoch v Hv). reflexivity.
Qed.

(** C1 (amended).  Reconciliation, in terms of the fetched events.  For
    every data set, period, granularity and validator, the rewards of the
    validator's rows sum exactly to [C - I - D + U]: [I] is the validator's
    initial value (its start shares priced at the snapshot fetched for
    [startEpoch]), [C] the value at which its last row closes ([I] when it
    has no row), and [D] / [U] the sums of the snapshot-priced values of the
    account's Add / Debond events on the validator from [startEpoch] up to
    the end epoch of that last row; every row's [_totalValue] prices, at the
    snapshot located at the row's end epoch, the share count replayed from
    the start shares through the events up to that epoch (an Add adds, a
    Debond subtracts with floor 0).  Hence the rewards of a run and of the
    "year" run sum to the same integer exactly when the two runs agree on
    [C - D + U].  A row at [endEpoch] is the validator's last row; so when
    both runs emit a row at [endEpoch] the sums are equal, to
    [finalTotalValue - initialTotalValue - delegations + undelegations] over
    the whole period, which is [finalTotalValue - initialTotalValue] at the
    unchanged share count when the validator has no event in the period. *)
Theorem monthly_rewards_reconcile (f : Fetched) (address : string)
  (startEpoch endEpoch : Z) (granularity v : string) :
  initialTotalValueOf f address startEpoch endEpoch v
  = calculateTotalValue (startShares f address startEpoch endEpoch v)
      (fetchHistoryAtEpoch f v startEpoch)
  /\ (forall g,
        sumRewards v (fetchStakingRewardsTest f address startEpoch endEpoch g)
        = closingValue (initialTotalValueOf f address startEpoch endEpoch v)
            (rowsOf v (fetchStakingRewardsTest f address startEpoch endEpoch g))
          - initialTotalValueOf f address startEpoch endEpoch v
          - delegationsIn f address startEpoch endEpoch v startEpoch
              (closingEpoch startEpoch
                 (rowsOf v (fetchStakingRewardsTest f address startEpoch endEpoch g)))
          + undelegationsIn f address startEpoch endEpoch v startEpoch
              (closingEpoch startEpoch
                 (rowsOf v (fetchStakingRewardsTest f address startEpoch endEpoch g)))
        /\ Forall (fun r => _totalValue r
                            = valueAtEpoch f address startEpoch endEpoch v (end_epoch r))
             (rowsOf v (fetchStakingRewardsTest f address startEpoch endEpoch g))
        /\ (emittedAt v endEpoch (fetchStakingRewardsTest f address startEpoch endEpoch g) ->
            closingEpoch startEpoch
              (rowsOf v (fetchStakingRewardsTest f address startEpoch endEpoch g)) = endEpoch
            /\ closingValue (initialTotalValueOf f address startEpoch endEpoch v)
                 (rowsOf v (fetchStakingRewardsTest f address startEpoch endEpoch g))
               = valueAtEpoch f address startEpoch endEpoch v endEpoch))
  /\ (sumRewards v (fetchStakingRewardsTest f address startEpoch endEpoch granularity)
      = sumRewards v (fetchStakingRewardsTest f address startEpoch endEpoch "year")
      <-> closingValue (initialTotalValueOf f address startEpoch endEpoch v)
            (rowsOf v (fetchStakingRewardsTest f address startEpoch endEpoch granularity))
          - delegationsIn f address startEpoch endEpoch v startEpoch
              (closingEpoch startEpoch
                 (rowsOf v (fetchStakingRewardsTest f address startEpoch endEpoch granularity)))
          + undelegationsIn f address startEpoch endEpoch v startEpoch
              (closingEpoch startEpoch
                 (rowsOf v (fetchStakingRewardsTest f address startEpoch endEpoch granularity)))
          = closingValue (initialTotalValueOf f address startEpoch endEpoch v)
              (rowsOf v (fetchStakingRewardsTest f address startEpoch endEpoch "year"))
            - delegationsIn f address startEpoch endEpoch v startEpoch
                (closingEpoch startEpoch
                   (rowsOf v (fetchStakingRewardsTest f address startEpoch endEpoch "year")))
            + undelegationsIn f address startEpoch endEpoch v startEpoch
                (closingEpoch startEpoch
                   (rowsOf v (fetchStakingRewardsTest f address startEpoch endEpoch "year"))))
  /\ (emittedAt v endEpoch (fetchStakingRewardsTest f address startEpoch endEpoch granularity) ->
      emittedAt v endEpoch (fetchStakingRewardsTest f address startEpoch endEpoch "year") ->
      sumRewards v (fetchStakingRewardsTest f address startEpoch endEpoch granularity)
      = sumRewards v (fetchStakingRewardsTest f address startEpoch endEpoch "year")
      /\ sumRewards v (fetchStakingRewardsTest f address startEpoch endEpoch "year")
         = valueAtEpoch f address startEpoch endEpoch v endEpoch
           - initialTotalValueOf f address startEpoch endEpoch v
           - delegationsIn f address startEpoch endEpoch v startEpoch endEpoch
           + undelegationsIn f address startEpoch endEpoch v startEpoch endEpoch)
  /\ (v ∈ validators f address startEpoch endEpoch ->
      finalTotalValueOf f address startEpoch endEpoch v
      = valueAtEpoch f address startEpoch endEpoch v endEpoch)
  /\ (eventsIn address startEpoch endEpoch v startEpoch endEpoch (addEscrowEvents f) = [] ->
      eventsIn address startEpoch endEpoch v startEpoch endEpoch (debondingEvents f) = [] ->
      delegationsIn f address startEpoch endEpoch v startEpoch endEpoch = 0
      /\ undelegationsIn f address startEpoch endEpoch v startEpoch endEpoch = 0
      /\ valueAtEpoch f address startEpoch endEpoch v endEpoch
         = calculateTotalValue (startShares f address startEpoch endEpoch v)
             (findHistoryEntryForEpoch (sortByEpoch (fetchedHistory f v)) endEpoch)).
Proof.
  assert (Hclose : forall g,
             emittedAt v endEpoch (fetchStakingRewardsTest f address startEpoch endEpoch g) ->
             closingEpoch startEpoch
               (rowsOf v (fetchStakingRewardsTest f address startEpoch endEpoch g)) = endEpoch
             /\ closingValue (initialTotalValueOf f address startEpoch endEpoch v)
                  (rowsOf v (fetchStakingRewardsTest f address startEpoch endEpoch g))
                = valueAtEpoch f address startEpoch endEpoch v endEpoch).
  { intros g Hem. pose proof (closingEpoch_emitted _ _ _ _ _ _ Hem) as HL.
    split; [exact HL|].
    destruct (run_accounts f address startEpoch endEpoch g v) as [_ Hrows].
    unfold closingEpoch, closingValue in *.
    destruct (last (rowsOf v (fetchStakingRewardsTest f address startEpoch endEpoch g)))
      as [r|] eqn:Hl.
    - cbn [fmap option_fmap option_map default from_option id] in *.
      rewrite Forall_forall in Hrows. rewrite (Hrows r), HL; [reflexivity|].
      apply last_Some in Hl as [l' ->]. apply elem_of_app. right. apply list_elem_of_here.
    - apply last_None in Hl. apply emittedAt_rowsOf in Hem as (r & Hr & _).
      rewrite Hl in Hr. inversion Hr. }
  split; [reflexivity|]. split; [|split; [|split; [|split]]].
  - intros g. destruct (run_accounts f address startEpoch endEpoch g v) as [Hsum Hrows].
    split; [exact Hsum|]. split; [exact Hrows|]. apply Hclose.
  - destruct (run_accounts f address startEpoch endEpoch granularity v) as [-> _].
    destruct (run_accounts f address startEpoch endEpoch "year" v) as [-> _].
    split; intros H; lia.
  - intros Hg Hy.
    destruct (run_accounts f address startEpoch endEpoch granularity v) as [-> _].
    destruct (run_accounts f address startEpoch endEpoch "year" v) as [-> _].
    destruct (Hclose _ Hg) as [-> ->]. destruct (Hclose _ Hy) as [-> ->].
    split; reflexivity.
  - apply finalTotalValueOf_events.
  - intros Ha Hd. unfold delegationsIn, undelegationsIn, valueAtEpoch.
    rewrite Ha, Hd, (sharesThrough_none _ _ _ _ _ _ _ _ Ha Hd).
    split; [reflexivity|]. split; reflexivity.
Qed.

(** A full exit reconciles although the month run has no row at
    [endEpoch]: its rows close at epochs 2 and 4, the second one at value
    zero with no event after it, and both runs sum to 1. *)
Example clean_exit_reconciles :
  end_epoch <$> rowsOf "v" (fetchStakingRewardsTest exitFetched "addr" 0 24 "month") = [2; 4]
  /\ sumRewards "v" (fetchStakingRewardsTest exitFetched "addr" 0 24 "month") = 1
  /\ sumRewards "v" (fetchStakingRewardsTest exitFetched "addr" 0 24 "year") = 1
  /\ closingValue (initialTotalValueOf exitFetched "addr" 0 24 "v")
       (rowsOf "v" (fetchStakingRewardsTest exitFetched "addr" 0 24 "month")) = 0
  /\ undelegationsIn exitFetched "addr" 0 24 "v" 0 4 = 101
  /\ undelegationsIn exitFetched "addr" 0 24 "v" 0 24 = 101
  /\ initialTotalValueOf exitFetched "addr" 0 24 "v" = 100.
Proof. vm_compute. auto 10. Qed.

(** The account of the yearly run of [exampleFetched]: 440 shares worth 440
    at the start, an Add of 100 shares priced 100 at epoch 5, a Debond of 40
    shares priced 40 at epoch 15, 500 shares worth 520 at the end; the
    reward is 520 - 440 - 100 + 40 = 20. *)
Example exampleFetched_account :
  initialTotalValueOf exampleFetched "addr" 0 24 "v" = 440
  /\ delegationsIn exampleFetched "addr" 0 24 "v" 0 24 = 100
  /\ undelegationsIn exampleFetched "addr" 0 24 "v" 0 24 = 40
  /\ sharesThrough exampleFetched "addr" 0 24 "v" 0 24
       (startShares exampleFetched "addr" 0 24 "v") = 500
  /\ valueAtEpoch exampleFetched "addr" 0 24 "v" 24 = 520
  /\ sumRewards "v" (fetchStakingRewardsTest exampleFetched "addr" 0 24 "year") = 20
  /\ sumRewards "v" (fetchStakingRewardsTest exampleFetched "addr" 0 24 "month") = 20.
Proof. vm_compute. auto 10. Qed.
